(** * Critical Path Method scheduler: a shallow embedding of [src/main.py]

    The development embeds [compute_cpm_and_export_pdf] of [src/main.py]
    from the data frame to the content of the report: the parsing of the
    predecessor cells (lines 46-59), graph construction, Kahn's
    topological sort, the forward and backward passes, the slack table
    and the selection of one critical path (lines 63-132), the calls that
    draw the network diagram (lines 141-163) and the schedule table
    (lines 210-218).

    Conventions of the embedding:
    - a spreadsheet row is a record [row]: the task identifier is text
      (the unique string key of the data model), the duration an integer,
      the predecessor list already split and stripped;
    - integer durations are modelled as [Z] (the arithmetic of the passes
      is addition, subtraction, [max] and [min]; overflow of the
      spreadsheet's 64-bit cells is not considered); for a [Duration]
      column that holds fractions the passes are embedded a second time
      on binary64 numbers, in the module [Binary64];
    - Python dictionaries are [gmap string _]; a failing subscript [d[k]]
      raises [KeyError k], [max]/[min] of an empty sequence raise
      [ValueError];
    - the [while queue] loop is run with fuel; [OutOfFuel] is the outcome of
      exhausted fuel and is shown never to happen. *)

From stdpp Require Import base option list gmap strings fin_maps.
From Stdlib Require Import ZArith Lia Ascii DecimalString PrimFloat.

Local Open Scope Z_scope.

(** ** Outcomes of fallible code *)

Inductive exn : Type :=
| KeyError (k : string)
| ValueError.

Inductive outcome (A : Type) : Type :=
| Ok (a : A)
| Raise (e : exn)
| OutOfFuel.

Arguments Ok {A} a.
Arguments Raise {A} e.
Arguments OutOfFuel {A}.

(** Sequencing uses stdpp's [x ← m; k] notation. *)
#[global] Instance outcome_bind : MBind outcome := λ A B k m,
  match m with
  | Ok a => k a
  | Raise e => Raise e
  | OutOfFuel => OutOfFuel
  end.

(** [d[k]] on a dictionary. *)
Definition subscript {V : Type} (d : gmap string V) (k : string) : outcome V :=
  match d !! k with
  | Some v => Ok v
  | None => Raise (KeyError k)
  end.

(** [d[k] for k in ks], evaluated left to right. *)
Fixpoint subscripts {V : Type} (d : gmap string V) (ks : list string)
  : outcome (list V) :=
  match ks with
  | [] => Ok []
  | k :: ks' => v ← subscript d k; vs ← subscripts d ks'; Ok (v :: vs)
  end.

(** [max(xs)] and [min(xs)] on integers. *)
Definition py_max (xs : list Z) : outcome Z :=
  match xs with
  | [] => Raise ValueError
  | x :: xs' => Ok (foldl Z.max x xs')
  end.

Definition py_min (xs : list Z) : outcome Z :=
  match xs with
  | [] => Raise ValueError
  | x :: xs' => Ok (foldl Z.min x xs')
  end.

(** ** Input rows and graph construction (lines 48-59) *)

(** A row with a text identifier and an integer duration; rows whose
    duration is a fraction are those of [Binary64] below. *)
Record row : Type := Row {
  Task : string;
  Duration : Z;
  Predecessors : list string
}.

(** [tasks = df['Task'].tolist()] *)
Definition tasks_of (rows : list row) : list string := Task <$> rows.

(** [duration = dict(zip(df['Task'], df['Duration']))] *)
Definition duration_of (rows : list row) : gmap string Z :=
  foldl (λ d r, <[Task r := Duration r]> d) ∅ rows.

(** [predecessors[task] = preds], row after row *)
Definition predecessors_of (rows : list row) : gmap string (list string) :=
  foldl (λ d r, <[Task r := Predecessors r]> d) ∅ rows.

(** Reading a [defaultdict(list)]: a missing key reads as the empty list. *)
Definition getlist (d : gmap string (list string)) (k : string) : list string :=
  default [] (d !! k).

(** [successors[p].append(task)] *)
Definition append_succ (task : string) (d : gmap string (list string))
    (p : string) : gmap string (list string) :=
  <[p := getlist d p ++ [task]]> d.

(** The loop of lines 54-59, as far as [successors] is concerned. *)
Definition successors_of (rows : list row) : gmap string (list string) :=
  foldl (λ d r, foldl (append_succ (Task r)) d (Predecessors r)) ∅ rows.

(** ** The stages, over the dictionaries built from the rows *)

(** An entry of [best_info]: [(total_duration, node_count, path_list)]. *)
Abbreviation info := (Z * Z * list string)%type.

(** The local variables of [compute_cpm_and_export_pdf] when line 132 is
    reached; the rendering that follows only reads them. *)
Record schedule : Type := Schedule {
  topo_order : list string;
  ES : gmap string Z;
  EF : gmap string Z;
  project_duration : Z;
  LS : gmap string Z;
  LF : gmap string Z;
  slack : gmap string Z;
  best_info : gmap string info;
  critical_path : list string
}.

Section stages.
Variable tasks : list string.
Variable duration : gmap string Z.
Variable predecessors : gmap string (list string).
Variable successors : gmap string (list string).

(** *** Topological sort (lines 64-74) *)

(** [in_degree = {t: len(predecessors[t]) for t in tasks}] *)
Fixpoint in_degree_init (ts : list string) (deg : gmap string Z)
  : outcome (gmap string Z) :=
  match ts with
  | [] => Ok deg
  | t :: ts' =>
      ps ← subscript predecessors t;
      in_degree_init ts' (<[t := Z.of_nat (length ps)]> deg)
  end.

(** [deque([t for t in tasks if in_degree[t] == 0])] *)
Fixpoint queue_init (deg : gmap string Z) (ts : list string)
  : outcome (list string) :=
  match ts with
  | [] => Ok []
  | t :: ts' =>
      d ← subscript deg t;
      q ← queue_init deg ts';
      Ok (if Z.eqb d 0 then t :: q else q)
  end.

(** The body of [for succ in successors[node]] (lines 71-74). *)
Fixpoint relax (succs : list string) (deg : gmap string Z)
    (queue : list string) : outcome (gmap string Z * list string) :=
  match succs with
  | [] => Ok (deg, queue)
  | succ :: rest =>
      d ← subscript deg succ;
      relax rest (<[succ := d - 1]> deg)
            (if Z.eqb (d - 1) 0 then queue ++ [succ] else queue)
  end.

(** [while queue: ...] (lines 68-74). *)
Fixpoint kahn_loop (fuel : nat) (deg : gmap string Z) (queue : list string)
    (topo : list string) : outcome (list string) :=
  match queue with
  | [] => Ok topo
  | node :: queue' =>
      match fuel with
      | O => OutOfFuel
      | S fuel' =>
          '(deg', queue'') ← relax (getlist successors node) deg queue';
          kahn_loop fuel' deg' queue'' (topo ++ [node])
      end
  end.

Definition topo_sort : outcome (list string) :=
  deg ← in_degree_init tasks ∅;
  queue ← queue_init deg tasks;
  kahn_loop (length tasks) deg queue [].

(** *** Forward pass (lines 79-87) *)

Definition earliest_start (EF : gmap string Z) (ps : list string) : outcome Z :=
  match ps with
  | [] => Ok 0
  | _ :: _ => vs ← subscripts EF ps; py_max vs
  end.

Fixpoint forward_pass (order : list string) (ES EF : gmap string Z)
  : outcome (gmap string Z * gmap string Z) :=
  match order with
  | [] => Ok (ES, EF)
  | task :: rest =>
      ps ← subscript predecessors task;
      es ← earliest_start EF ps;
      d ← subscript duration task;
      forward_pass rest (<[task := es]> ES) (<[task := es + d]> EF)
  end.

(** [max(EF.values())] *)
Definition max_values (EF : gmap string Z) : outcome Z :=
  py_max ((map_to_list EF).*2).

(** *** Backward pass (lines 92-100) *)

Definition latest_finish (pd : Z) (LS : gmap string Z) (ss : list string)
  : outcome Z :=
  match ss with
  | [] => Ok pd
  | _ :: _ => vs ← subscripts LS ss; py_min vs
  end.

Fixpoint backward_pass (pd : Z) (order : list string) (LS LF : gmap string Z)
  : outcome (gmap string Z * gmap string Z) :=
  match order with
  | [] => Ok (LS, LF)
  | task :: rest =>
      lf ← latest_finish pd LS (getlist successors task);
      d ← subscript duration task;
      backward_pass pd rest (<[task := lf - d]> LS) (<[task := lf]> LF)
  end.

(** [slack = {t: LS[t] - ES[t] for t in tasks}] *)
Fixpoint slack_table (LS ES : gmap string Z) (ts : list string)
    (acc : gmap string Z) : outcome (gmap string Z) :=
  match ts with
  | [] => Ok acc
  | t :: ts' =>
      ls ← subscript LS t;
      es ← subscript ES t;
      slack_table LS ES ts' (<[t := ls - es]> acc)
  end.

(** *** Critical path selection (lines 108-132) *)

(** [best_info.get(p, (0, 0, []))] *)
Definition get_info (best : gmap string info) (p : string) : info :=
  default (0, 0, []) (best !! p).

(** The slice [[:2]] of an entry. *)
Definition key2 (i : info) : Z * Z := (i.1.1, i.1.2).

(** Tuple comparison [a > b] on pairs of integers. *)
Definition tuple_gt (a b : Z * Z) : bool :=
  (b.1 <? a.1) || ((a.1 =? b.1) && (b.2 <? a.2)).

(** [max(items, key=key)]: the running maximum is replaced only by a
    strictly greater key. *)
Fixpoint max_by (key : string → Z * Z) (cur : string) (items : list string)
  : string :=
  match items with
  | [] => cur
  | x :: items' =>
      if tuple_gt (key x) (key cur) then max_by key x items'
      else max_by key cur items'
  end.

Fixpoint best_path_dp (order : list string) (best : gmap string info)
  : outcome (gmap string info) :=
  match order with
  | [] => Ok best
  | task :: rest =>
      dur ← subscript duration task;
      ps ← subscript predecessors task;
      match ps with
      | [] => best_path_dp rest (<[task := (dur, 1, [task])]> best)
      | p0 :: ps' =>
          let prev := max_by (λ p, key2 (get_info best p)) p0 ps' in
          let '(prev_dur, prev_count, prev_path) := get_info best prev in
          best_path_dp rest
            (<[task := (prev_dur + dur, prev_count + 1, prev_path ++ [task])]> best)
      end
  end.

(** [end_tasks = [t for t in tasks if not successors[t]]] *)
Definition is_nil (l : list string) : bool :=
  match l with [] => true | _ => false end.

Definition end_tasks : list string :=
  filter (λ t, is_nil (getlist successors t) = true) tasks.

(** The loop of lines 125-130. *)
Fixpoint select_path (best : gmap string info) (ends : list string)
    (best_tuple : Z * Z) (critical_path : list string) : list string :=
  match ends with
  | [] => critical_path
  | t :: rest =>
      let '(tot_dur, cnt, path) := get_info best t in
      if tuple_gt (tot_dur, cnt) best_tuple
      then select_path best rest (tot_dur, cnt) path
      else select_path best rest best_tuple critical_path
  end.

(** *** The whole computation, up to line 132 *)

Definition run_stages : outcome schedule :=
  topo ← topo_sort;
  '(ES, EF) ← forward_pass topo ∅ ∅;
  pd ← max_values EF;
  '(LS, LF) ← backward_pass pd (reverse topo) ∅ ∅;
  sl ← slack_table LS ES tasks ∅;
  best ← best_path_dp topo ∅;
  Ok (Schedule topo ES EF pd LS LF sl best
        (select_path best end_tasks (0, 0) [])).
End stages.

(** The scheduling part of [compute_cpm_and_export_pdf], from the parsed
    rows to the variables of line 132. *)
Definition compute_cpm_and_export_pdf (rows : list row) : outcome schedule :=
  run_stages (tasks_of rows) (duration_of rows) (predecessors_of rows)
             (successors_of rows).

(** The helper stages are kept folded by [simpl]. *)
Arguments earliest_start : simpl never.
Arguments latest_finish : simpl never.
Arguments subscript : simpl never.
Arguments max_values : simpl never.

(** ** Graph notions used in the statements *)

(** The task graph is the [predecessors] dictionary the code builds: an
    edge [p → t] says that [p] is listed in [predecessors[t]]. *)
Definition edge (rows : list row) (p t : string) : Prop :=
  p ∈ getlist (predecessors_of rows) t.

Definition has_cycle (rows : list row) : Prop := ∃ t, tc (edge rows) t t.

Definition dangling (rows : list row) : Prop :=
  ∃ p t, edge rows p t ∧ p ∉ tasks_of rows.

Definition malformed (rows : list row) : Prop := has_cycle rows ∨ dangling rows.

Definition acyclic (rows : list row) : Prop := ∀ t, ¬ tc (edge rows) t t.

Definition closed (rows : list row) : Prop :=
  ∀ p t, edge rows p t → p ∈ tasks_of rows.

(** A valid DAG of the data model: unique task identifiers, every
    predecessor is a task, no cycle. *)
Definition valid_dag (rows : list row) : Prop :=
  NoDup (tasks_of rows) ∧ closed rows ∧ acyclic rows.

Definition nonneg_durations (rows : list row) : Prop :=
  ∀ r, r ∈ rows → 0 ≤ Duration r.

(** [p] occurs strictly before [t] in [l]. *)
Definition before (l : list string) (p t : string) : Prop :=
  ∃ l1 l2 l3, l = l1 ++ p :: l2 ++ t :: l3.

Definition is_max (m : Z) (xs : list Z) : Prop := m ∈ xs ∧ ∀ x, x ∈ xs → x ≤ m.
Definition is_min (m : Z) (xs : list Z) : Prop := m ∈ xs ∧ ∀ x, x ∈ xs → m ≤ x.

(** Number of occurrences of [x] in [l]. *)
Definition occ (x : string) (l : list string) : nat :=
  length (filter (λ y, y = x) l).

(** ** Notions used in the statements and in the invariants *)

(** The dependents of [p] in declaration order, one entry per listing of
    [p] in a predecessor list. *)
Definition declared_successors (rows : list row) (p : string) : list string :=
  rows ≫= λ r, replicate (occ p (Predecessors r)) (Task r).

Definition topo_order_of (rows : list row) : outcome (list string) :=
  topo_sort (tasks_of rows) (predecessors_of rows) (successors_of rows).

Definition preds_of (rows : list row) (t : string) : list string :=
  getlist (predecessors_of rows) t.

Definition succs_of (rows : list row) (t : string) : list string :=
  getlist (successors_of rows) t.

Definition terminals_of (rows : list row) : list string :=
  end_tasks (tasks_of rows) (successors_of rows).

Definition indeg (deg : gmap string Z) (t : string) : Z := default 0 (deg !! t).

(** Number of entries of [ts] whose in-degree is still positive. *)
Definition pending (deg : gmap string Z) (ts : list string) : nat :=
  length (filter (λ t, 0 < indeg deg t) ts).

(** Consecutive entries of the list are related. *)
Fixpoint chain (R : relation string) (l : list string) : Prop :=
  match l with
  | [] => True
  | x :: l' => match l' with [] => True | y :: _ => R x y end ∧ chain R l'
  end.

(** Listings in [predecessors[t]] that are not yet in the order. *)
Definition unmet (predecessors : gmap string (list string))
    (topo : list string) (t : string) : nat :=
  length (filter (λ p, p ∉ topo) (getlist predecessors t)).

(** The loop invariant of the sort, for unique task identifiers. *)
Record kahn_inv (tasks : list string) (predecessors : gmap string (list string))
    (deg : gmap string Z) (q topo : list string) : Prop := {
  inv_nodup : NoDup (topo ++ q);
  inv_tasks : ∀ x, x ∈ topo ++ q → x ∈ tasks;
  inv_deg : ∀ t, t ∈ tasks →
    deg !! t = Some (Z.of_nat (unmet predecessors topo t));
  inv_ready : ∀ t, t ∈ tasks →
    t ∈ topo ++ q ↔ unmet predecessors topo t = 0%nat;
  inv_order : ∀ l1 t l2, topo = l1 ++ t :: l2 →
    ∀ p, p ∈ getlist predecessors t → p ∈ l1
}.

(** [x] is the maximum (minimum) of [m[k]] for [k] in [ks]. *)
Definition max_over (m : gmap string Z) (ks : list string) (x : Z) : Prop :=
  (∃ k, k ∈ ks ∧ m !! k = Some x) ∧ ∀ k, k ∈ ks → ∃ v, m !! k = Some v ∧ v ≤ x.

Definition min_over (m : gmap string Z) (ks : list string) (x : Z) : Prop :=
  (∃ k, k ∈ ks ∧ m !! k = Some x) ∧ ∀ k, k ∈ ks → ∃ v, m !! k = Some v ∧ x ≤ v.

(** Every dependency of a member of [order] comes earlier in [order]. *)
Definition respects (deps : string → list string) (order : list string) : Prop :=
  ∀ l1 t l2, order = l1 ++ t :: l2 → ∀ p, p ∈ deps t → p ∈ l1.

(** Lexicographic order on [(total_duration, node_count)] pairs. *)
Definition lex_lt (a b : Z * Z) : Prop := a.1 < b.1 ∨ (a.1 = b.1 ∧ a.2 < b.2).

Definition best_key (best : gmap string info) (p : string) : Z * Z :=
  key2 (get_info best p).

(** [p] is the first entry of [l] whose key is maximal. *)
Definition first_max (key : string → Z * Z) (l : list string) (p : string) : Prop :=
  ∃ l1 l2, l = l1 ++ p :: l2 ∧
    (∀ q, q ∈ l1 → lex_lt (key q) (key p)) ∧
    (∀ q, q ∈ l2 → ¬ lex_lt (key p) (key q)).

(** The forward-pass equations at task [t]. *)
Definition forward_ok (duration : gmap string Z)
    (predecessors : gmap string (list string)) (ES EF : gmap string Z)
    (t : string) : Prop :=
  ∃ es d, ES !! t = Some es ∧ duration !! t = Some d ∧ EF !! t = Some (es + d) ∧
    (getlist predecessors t = [] → es = 0) ∧
    (getlist predecessors t ≠ [] → max_over EF (getlist predecessors t) es).

(** The backward-pass equations at task [t]. *)
Definition backward_ok (duration : gmap string Z)
    (successors : gmap string (list string)) (pd : Z) (LS LF : gmap string Z)
    (t : string) : Prop :=
  ∃ lf d, LF !! t = Some lf ∧ duration !! t = Some d ∧ LS !! t = Some (lf - d) ∧
    (getlist successors t = [] → lf = pd) ∧
    (getlist successors t ≠ [] → min_over LS (getlist successors t) lf).

(** The equations of the longest-path table at task [t]. *)
Definition best_ok (duration : gmap string Z)
    (predecessors : gmap string (list string)) (best : gmap string info)
    (t : string) : Prop :=
  ∃ dur, duration !! t = Some dur ∧
    (getlist predecessors t = [] → best !! t = Some (dur, 1, [t])) ∧
    (getlist predecessors t ≠ [] →
     ∃ prev d c path,
       first_max (best_key best) (getlist predecessors t) prev ∧
       best !! prev = Some (d, c, path) ∧
       best !! t = Some (d + dur, c + 1, path ++ [t])).

(** Every task with an earliest finish is a key of [predecessors], has
    all its predecessors finished as well, and is accessible. *)
Definition finished_ok (predecessors : gmap string (list string))
    (EF : gmap string Z) : Prop :=
  ∀ t, is_Some (EF !! t) →
    is_Some (predecessors !! t) ∧
    Acc (λ p t, p ∈ getlist predecessors t) t ∧
    ∀ p, p ∈ getlist predecessors t → is_Some (EF !! p).

(** [walk E a l b]: the list [l] starts at [a], ends at [b], and follows
    an edge of [E] at every step. *)
Inductive walk (E : relation string) : string → list string → string → Prop :=
| walk_here a : walk E a [a] a
| walk_step a s l b : E a s → walk E s l b → walk E a (a :: l) b.

Fixpoint total (dur : string → Z) (l : list string) : Z :=
  match l with
  | [] => 0
  | t :: l' => dur t + total dur l'
  end.

(** The edges of a [predecessors] dictionary, and the total reading of a
    dictionary of integers (0 where the key is missing). *)
Definition pred_edge (predecessors : gmap string (list string))
    (p t : string) : Prop :=
  p ∈ getlist predecessors t.

Definition value_of (m : gmap string Z) (t : string) : Z := default 0 (m !! t).

Definition root (tasks : list string)
    (predecessors : gmap string (list string)) (t : string) : Prop :=
  t ∈ tasks ∧ getlist predecessors t = [].

Definition terminal (tasks : list string)
    (successors : gmap string (list string)) (t : string) : Prop :=
  t ∈ tasks ∧ getlist successors t = [].

(** A root-to-terminal path. *)
Definition full_path (tasks : list string)
    (predecessors successors : gmap string (list string))
    (l : list string) : Prop :=
  ∃ r e, walk (pred_edge predecessors) r l e ∧
         root tasks predecessors r ∧ terminal tasks successors e.

(** A root-to-terminal path of maximal total duration. *)
Definition longest (tasks : list string) (duration : gmap string Z)
    (predecessors successors : gmap string (list string))
    (l : list string) : Prop :=
  full_path tasks predecessors successors l ∧
  ∀ l', full_path tasks predecessors successors l' →
        total (value_of duration) l' ≤ total (value_of duration) l.

(** Everything the stages establish, collected for one schedule. *)
Record schedule_ok (rows : list row) (s : schedule) : Prop := {
  ok_topo_run : topo_order_of rows = Ok (topo_order s);
  ok_topo_nodup : NoDup (topo_order s);
  ok_topo_elem : ∀ t, t ∈ topo_order s ↔ t ∈ tasks_of rows;
  ok_topo_resp : respects (preds_of rows) (topo_order s);
  ok_forward_run :
    forward_pass (duration_of rows) (predecessors_of rows) (topo_order s) ∅ ∅
    = Ok (ES s, EF s);
  ok_forward : ∀ t, t ∈ tasks_of rows →
    forward_ok (duration_of rows) (predecessors_of rows) (ES s) (EF s) t;
  ok_EF_dom : ∀ t, is_Some (EF s !! t) → t ∈ tasks_of rows;
  ok_pd : (∃ t, EF s !! t = Some (project_duration s)) ∧
          ∀ t v, EF s !! t = Some v → v ≤ project_duration s;
  ok_backward_run :
    backward_pass (duration_of rows) (successors_of rows) (project_duration s)
      (reverse (topo_order s)) ∅ ∅ = Ok (LS s, LF s);
  ok_backward : ∀ t, t ∈ tasks_of rows →
    backward_ok (duration_of rows) (successors_of rows) (project_duration s)
      (LS s) (LF s) t;
  ok_slack : ∀ t, t ∈ tasks_of rows →
    ∃ ls es, LS s !! t = Some ls ∧ ES s !! t = Some es ∧
             slack s !! t = Some (ls - es);
  ok_best_run :
    best_path_dp (duration_of rows) (predecessors_of rows) (topo_order s) ∅
    = Ok (best_info s);
  ok_best : ∀ t, t ∈ tasks_of rows →
    best_ok (duration_of rows) (predecessors_of rows) (best_info s) t;
  ok_critical :
    critical_path s = select_path (best_info s) (terminals_of rows) (0, 0) []
}.

(** A root-to-terminal path of the task graph. *)
Definition root_to_terminal (rows : list row) (l : list string) : Prop :=
  full_path (tasks_of rows) (predecessors_of rows) (successors_of rows) l.

(** A root-to-terminal path whose total duration no other one exceeds. *)
Definition longest_path (rows : list row) (l : list string) : Prop :=
  longest (tasks_of rows) (duration_of rows) (predecessors_of rows)
    (successors_of rows) l.

(** [sum(duration[t] for t in path)] *)
Definition sum_durations (duration : gmap string Z) (path : list string)
  : outcome Z :=
  vs ← subscripts duration path; Ok (foldr Z.add 0 vs).

(** Whether the input is turned down before any pass runs: the graph
    stage itself raises. *)
Definition rejected_before_passes (rows : list row) : Prop :=
  ∃ e, topo_order_of rows = Raise e.

(** *** Kahn's algorithm as the specification words it *)

(** One sweep over the successors of the dequeued task: each successor has
    its in-degree decremented and joins the back of the queue the moment
    the in-degree reaches 0. *)
Inductive kahn_visit :
  list string → gmap string Z → list string → gmap string Z → list string → Prop :=
| visit_done deg q : kahn_visit [] deg q deg q
| visit_ready s ss deg q d deg' q' :
    deg !! s = Some d → d - 1 = 0 →
    kahn_visit ss (<[s := 0]> deg) (q ++ [s]) deg' q' →
    kahn_visit (s :: ss) deg q deg' q'
| visit_wait s ss deg q d deg' q' :
    deg !! s = Some d → d - 1 ≠ 0 →
    kahn_visit ss (<[s := d - 1]> deg) q deg' q' →
    kahn_visit (s :: ss) deg q deg' q'.

(** The FIFO loop: dequeue the front task, append it to the order, sweep
    its successors; stop when the queue is empty. *)
Inductive kahn_run (succ : string → list string) :
  gmap string Z → list string → list string → list string → Prop :=
| run_empty deg topo : kahn_run succ deg [] topo topo
| run_dequeue deg node q topo deg' q' out :
    kahn_visit (succ node) deg q deg' q' →
    kahn_run succ deg' q' (topo ++ [node]) out →
    kahn_run succ deg (node :: q) topo out.

(** [in_degree[t] = len(predecessors[t])], from the declarations. *)
Definition declared_in_degree (rows : list row) : gmap string Z :=
  list_to_map ((λ r, (Task r, Z.of_nat (length (Predecessors r)))) <$> rows).

(** The order Kahn's algorithm produces from the declarations: the queue
    is seeded with the in-degree-0 tasks in declaration order, successors
    are swept in first-seen order. *)
Definition kahn_order (rows : list row) (topo : list string) : Prop :=
  kahn_run (declared_successors rows) (declared_in_degree rows)
    (filter (λ t, declared_in_degree rows !! t = Some 0) (tasks_of rows)) [] topo.

(** *** A sufficient check for concrete rows *)

(** Index of the first occurrence of [t] in [l]. *)
Fixpoint position (t : string) (l : list string) : nat :=
  match l with
  | [] => 0
  | x :: l' => if decide (x = t) then 0 else S (position t l')
  end.

(** Every predecessor is declared, and declared before its dependent. *)
Definition declared_in_order (rows : list row) : Prop :=
  Forall (λ r, Forall (λ p, p ∈ tasks_of rows ∧
                            (position p (tasks_of rows)
                             < position (Task r) (tasks_of rows))%nat)
                 (Predecessors r)) rows.

(** *** Concrete inputs *)

(** Scenario A of the specification. *)
Definition scenario_A : list row :=
  [ Row "A" 3 []; Row "B" 2 ["A"]; Row "C" 4 ["A"]; Row "D" 1 ["B"; "C"] ].

(** A task that lists an identifier which is not a task. *)
Definition rows_dangling : list row :=
  [ Row "A" 3 []; Row "B" 2 ["A"; "X"] ].

(** Two tasks that list each other. *)
Definition rows_cycle : list row :=
  [ Row "A" 1 ["B"]; Row "B" 1 ["A"] ].

(** Two unrelated tasks of equal duration: both are terminals with the
    same table key. *)
Definition rows_two_ends : list row :=
  [ Row "A" 2 []; Row "B" 2 [] ].

(** A task with two predecessors whose table keys are equal. *)
Definition rows_join : list row :=
  [ Row "A" 2 []; Row "B" 2 []; Row "C" 1 ["B"; "A"] ].

Definition summary (o : outcome schedule)
  : option (Z * list string * list (string * Z)) :=
  match o with
  | Ok s => Some (project_duration s, critical_path s, map_to_list (slack s))
  | _ => None
  end.

(** ** Loading the rows (lines 45-59) *)

(** [str.isspace] of a character.  A [string] here carries code points
    below 256; among them Python counts as whitespace 9-13, 28-32, 133 and
    160. *)
Definition py_isspace (c : ascii) : bool :=
  let n := nat_of_ascii c in
  ((9 <=? n) && (n <=? 13) || (28 <=? n) && (n <=? 32)
   || (n =? 133) || (n =? 160))%nat.

(** [s.lstrip()], [s.rstrip()] and [s.strip()] *)
Fixpoint lstrip (s : string) : string :=
  match s with
  | EmptyString => EmptyString
  | String c s' => if py_isspace c then lstrip s' else s
  end.

Fixpoint rstrip (s : string) : string :=
  match s with
  | EmptyString => EmptyString
  | String c s' =>
      match rstrip s' with
      | EmptyString => if py_isspace c then EmptyString else String c EmptyString
      | String _ _ as r => String c r
      end
  end.

Definition strip (s : string) : string := rstrip (lstrip s).

(** [s.split(',')]: every comma ends a piece; there is always at least
    one piece. *)
Fixpoint split_comma (s : string) : list string :=
  match s with
  | EmptyString => [EmptyString]
  | String c s' =>
      if Ascii.eqb c ","%char then EmptyString :: split_comma s'
      else match split_comma s' with
           | p :: ps => String c p :: ps
           | [] => [String c EmptyString]
           end
  end.

(** [[p.strip() for p in cell.split(',') if p.strip()]] (line 56) *)
Definition parse_predecessors (cell : string) : list string :=
  filter (λ p, p ≠ EmptyString) (strip <$> split_comma cell).

(** A row of the data frame of a sheet whose [Task] column holds text
    and whose [Duration] column holds integers; the [Predecessors] cell
    is text or empty ([NaN]). *)
Record sheet_row : Type := SheetRow {
  cell_Task : string;
  cell_Duration : Z;
  cell_Predecessors : option string
}.

(** [fillna('')] on a cell (line 46); [astype(str)] leaves text as it is. *)
Definition fillna (cell : option string) : string := default EmptyString cell.

(** The rows as the loop of lines 54-59 reads them. *)
Definition load_rows (df : list sheet_row) : list row :=
  (λ r, Row (cell_Task r) (cell_Duration r)
            (parse_predecessors (fillna (cell_Predecessors r)))) <$> df.

(** [','.join(pieces)] *)
Fixpoint join_commas (pieces : list string) : string :=
  match pieces with
  | [] => EmptyString
  | [p] => p
  | p :: (_ :: _) as rest => p +:+ "," +:+ join_commas rest
  end.

(** Every character of the string is whitespace. *)
Definition blank (s : string) : Prop :=
  ∀ c, c ∈ String.list_ascii_of_string s → py_isspace c = true.

(** A name a predecessor cell can carry: not empty, no comma, no
    whitespace at either end. *)
Definition clean_name (s : string) : Prop :=
  s ≠ EmptyString ∧ strip s = s ∧ ","%char ∉ String.list_ascii_of_string s.

(** An entry between two commas of a cell, as a user writes it: a name
    with blank padding on either side, or nothing but blanks. *)
Inductive cell_entry : Type :=
| Listed (l n r : string)
| Unlisted (pad : string).

Definition entry_text (e : cell_entry) : string :=
  match e with
  | Listed l n r => l +:+ n +:+ r
  | Unlisted pad => pad
  end.

Definition entry_names (e : cell_entry) : list string :=
  match e with
  | Listed _ n _ => [n]
  | Unlisted _ => []
  end.

Definition entry_ok (e : cell_entry) : Prop :=
  match e with
  | Listed l n r => blank l ∧ clean_name n ∧ blank r
  | Unlisted pad => blank pad
  end.

(** ** The network diagram (lines 137-163) and the schedule table
       (lines 210-218) *)

(** [f"{x}"] on an integer. *)
Definition show (z : Z) : string := NilZero.string_of_int (Z.to_int z).

Definition newline : string := String "010"%char EmptyString.

(** A call [dot.node(name, label=..., shape="box", style="filled",
    fillcolor=...)] with a text [name]. *)
Record node : Type := Node {
  node_name : string;
  node_label : string;
  node_fillcolor : string
}.

(** The label of lines 142-148. *)
Definition node_label_text (task : string) (es ef ls lf sl : Z) : string :=
  task +:+ newline +:+ "-----------------" +:+ newline +:+
  "ES: " +:+ show es +:+ " | EF: " +:+ show ef +:+ newline +:+
  "LS: " +:+ show ls +:+ " | LF: " +:+ show lf +:+ newline +:+
  "Slack: " +:+ show sl.

(** The loop of lines 141-159. *)
Fixpoint diagram_nodes (s : schedule) (ts : list string) : outcome (list node) :=
  match ts with
  | [] => Ok []
  | task :: rest =>
      es ← subscript (ES s) task;
      ef ← subscript (EF s) task;
      ls ← subscript (LS s) task;
      lf ← subscript (LF s) task;
      sl ← subscript (slack s) task;
      let color :=
        if bool_decide (task ∈ critical_path s) then "red" else "lightblue" in
      nodes ← diagram_nodes s rest;
      Ok (Node task (node_label_text task es ef ls lf sl) color :: nodes)
  end.

(** The loop of lines 161-163: one call [dot.edge(pred, task)] each. *)
Fixpoint diagram_edges (predecessors : gmap string (list string))
    (ts : list string) : outcome (list (string * string)) :=
  match ts with
  | [] => Ok []
  | task :: rest =>
      ps ← subscript predecessors task;
      edges ← diagram_edges predecessors rest;
      Ok (((λ p, (p, task)) <$> ps) ++ edges)
  end.

(** A row of [result.values.tolist()]. *)
Record table_row : Type := TableRow {
  row_Task : string;
  row_Duration : Z;
  row_ES : Z;
  row_EF : Z;
  row_LS : Z;
  row_LF : Z;
  row_Slack : Z
}.

(** The rows of a data frame built from seven columns. *)
Fixpoint zip_columns (ts : list string) (d es ef ls lf sl : list Z)
  : list table_row :=
  match ts, d, es, ef, ls, lf, sl with
  | t :: ts', x1 :: d', x2 :: es', x3 :: ef', x4 :: ls', x5 :: lf', x6 :: sl' =>
      TableRow t x1 x2 x3 x4 x5 x6 :: zip_columns ts' d' es' ef' ls' lf' sl'
  | _, _, _, _, _, _, _ => []
  end.

(** The data frame of lines 210-218, column after column. *)
Definition schedule_table (tasks : list string) (duration : gmap string Z)
    (s : schedule) : outcome (list table_row) :=
  d ← subscripts duration tasks;
  es ← subscripts (ES s) tasks;
  ef ← subscripts (EF s) tasks;
  ls ← subscripts (LS s) tasks;
  lf ← subscripts (LF s) tasks;
  sl ← subscripts (slack s) tasks;
  Ok (zip_columns tasks d es ef ls lf sl).

(** What the rendering part hands to Graphviz and to the report. *)
Record report : Type := Report {
  report_schedule : schedule;
  report_nodes : list node;
  report_edges : list (string * string);
  report_table : list table_row
}.

(** Lines 137-218 as far as they read the schedule. *)
Definition render (rows : list row) (s : schedule) : outcome report :=
  nodes ← diagram_nodes s (tasks_of rows);
  edges ← diagram_edges (predecessors_of rows) (tasks_of rows);
  table ← schedule_table (tasks_of rows) (duration_of rows) s;
  Ok (Report s nodes edges table).

Definition report_summary (o : outcome report)
  : option (list (string * string) * list (string * string) * list table_row) :=
  match o with
  | Ok r => Some ((λ n, (node_name n, node_fillcolor n)) <$> report_nodes r,
                  report_edges r, report_table r)
  | _ => None
  end.

(** The node and the table row of a task, read from the schedule with
    [value_of]. *)
Definition node_of (s : schedule) (t : string) : node :=
  Node t
    (node_label_text t (value_of (ES s) t) (value_of (EF s) t)
       (value_of (LS s) t) (value_of (LF s) t) (value_of (slack s) t))
    (if bool_decide (t ∈ critical_path s) then "red" else "lightblue").

Definition row_of (duration : gmap string Z) (s : schedule) (t : string)
  : table_row :=
  TableRow t (value_of duration t) (value_of (ES s) t) (value_of (EF s) t)
    (value_of (LS s) t) (value_of (LF s) t) (value_of (slack s) t).

(** The three assignments of lines 83, 98 and 100, read on the columns
    of one table row. *)
Definition row_consistent (tr : table_row) : Prop :=
  row_EF tr = row_ES tr + row_Duration tr ∧
  row_LS tr = row_LF tr - row_Duration tr ∧
  row_Slack tr = row_LS tr - row_ES tr.

(** The early and the late interval of one table row inside a project
    of length [pd]. *)
Definition row_in_window (pd : Z) (tr : table_row) : Prop :=
  0 ≤ row_ES tr ∧ row_ES tr ≤ row_EF tr ∧ row_EF tr ≤ pd ∧
  row_LS tr ≤ row_LF tr ∧ row_LF tr ≤ pd.

(** Scenario A as a data frame. *)
Definition sheet_A : list sheet_row :=
  [ SheetRow "A" 3 None; SheetRow "B" 2 (Some "A");
    SheetRow "C" 4 (Some " A "); SheetRow "D" 1 (Some "B, C") ].

(** ** Notions of the statements on the selection of the critical path *)

(** A terminal task, read off the declarations: a task that no row lists
    among its predecessors. *)
Definition declared_terminal (rows : list row) (t : string) : Prop :=
  t ∈ tasks_of rows ∧ ∀ r, r ∈ rows → t ∉ Predecessors r.

(** An error kind that tells the empty input apart: it is raised on the
    empty input and on no other. *)
Definition empty_input_error (e : exn) : Prop :=
  compute_cpm_and_export_pdf [] = Raise e ∧
  ∀ rows, compute_cpm_and_export_pdf rows = Raise e → rows = [].

(** No task is without predecessors. *)
Definition no_root (rows : list row) : Prop :=
  ∀ t, t ∈ tasks_of rows → getlist (predecessors_of rows) t ≠ [].

(** ** Fractional durations: lines 49 and 63-100 on binary64 numbers *)

(** When the [Duration] column holds a fraction, pandas reads it as
    binary64 and every sum, difference and comparison of the passes
    rounds as IEEE 754 prescribes.  The graph stage is the one above; the
    passes are embedded a second time, on [float].  Python's [int] 0 of
    line 81 enters this arithmetic as [0.0]. *)
Module Binary64.

(** The graph part of a row: its identifier and its predecessor list. *)
Definition shape_of (task : string) (preds : list string) : row :=
  Row task 0 preds.

Record row : Type := Row {
  Task : string;
  Duration : float;
  Predecessors : list string
}.

Definition shape (r : row) := shape_of (Task r) (Predecessors r).

Definition graph (rows : list row) := shape <$> rows.

(** [tasks = df['Task'].tolist()] *)
Definition tasks_of (rows : list row) : list string := Task <$> rows.

(** A dictionary of numbers, in insertion order. *)
Definition dict : Type := list (string * float).

(** [d[k]] *)
Fixpoint getitem (d : dict) (k : string) : outcome float :=
  match d with
  | [] => Raise (KeyError k)
  | (k', v) :: d' => if decide (k' = k) then Ok v else getitem d' k
  end.

(** [d[k] = v]: a present key keeps its place. *)
Fixpoint setitem (d : dict) (k : string) (v : float) : dict :=
  match d with
  | [] => [(k, v)]
  | (k', v') :: d' =>
      if decide (k' = k) then (k, v) :: d' else (k', v') :: setitem d' k v
  end.

(** [d.values()] *)
Definition values (d : dict) : list float := d.*2.

(** [d[k] for k in ks], evaluated left to right. *)
Fixpoint getitems (d : dict) (ks : list string) : outcome (list float) :=
  match ks with
  | [] => Ok []
  | k :: ks' => v ← getitem d k; vs ← getitems d ks'; Ok (v :: vs)
  end.

(** [duration = dict(zip(df['Task'], df['Duration']))] *)
Definition duration_of (rows : list row) : dict :=
  foldl (λ d r, setitem d (Task r) (Duration r)) [] rows.

(** [max(xs)]: the running maximum is replaced by an item that compares
    greater; [min(xs)] likewise with less. *)
Definition py_max (xs : list float) : outcome float :=
  match xs with
  | [] => Raise ValueError
  | x :: xs' => Ok (foldl (λ m y, if (m <? y)%float then y else m) x xs')
  end.

Definition py_min (xs : list float) : outcome float :=
  match xs with
  | [] => Raise ValueError
  | x :: xs' => Ok (foldl (λ m y, if (y <? m)%float then y else m) x xs')
  end.

Record times : Type := Times {
  topo_order : list string;
  ES : dict;
  EF : dict;
  project_duration : float;
  LS : dict;
  LF : dict;
  slack : dict
}.

Section passes.
Variable tasks : list string.
Variable duration : dict.
Variable predecessors : gmap string (list string).
Variable successors : gmap string (list string).

(** *** Forward pass (lines 79-87) *)

Definition earliest_start (EF : dict) (ps : list string) : outcome float :=
  match ps with
  | [] => Ok 0%float
  | _ :: _ => vs ← getitems EF ps; py_max vs
  end.

Fixpoint forward_pass (order : list string) (ES EF : dict)
  : outcome (dict * dict) :=
  match order with
  | [] => Ok (ES, EF)
  | task :: rest =>
      ps ← subscript predecessors task;
      es ← earliest_start EF ps;
      d ← getitem duration task;
      forward_pass rest (setitem ES task es) (setitem EF task (es + d)%float)
  end.

(** [max(EF.values())] *)
Definition max_values (EF : dict) : outcome float := py_max (values EF).

(** *** Backward pass (lines 92-100) *)

Definition latest_finish (pd : float) (LS : dict) (ss : list string)
  : outcome float :=
  match ss with
  | [] => Ok pd
  | _ :: _ => vs ← getitems LS ss; py_min vs
  end.

Fixpoint backward_pass (pd : float) (order : list string) (LS LF : dict)
  : outcome (dict * dict) :=
  match order with
  | [] => Ok (LS, LF)
  | task :: rest =>
      lf ← latest_finish pd LS (getlist successors task);
      d ← getitem duration task;
      backward_pass pd rest (setitem LS task (lf - d)%float) (setitem LF task lf)
  end.

(** [slack = {t: LS[t] - ES[t] for t in tasks}] *)
Fixpoint slack_table (LS ES : dict) (ts : list string) (acc : dict)
  : outcome dict :=
  match ts with
  | [] => Ok acc
  | t :: ts' =>
      ls ← getitem LS t;
      es ← getitem ES t;
      slack_table LS ES ts' (setitem acc t (ls - es)%float)
  end.

(** *** Lines 63-100 *)

Definition run_passes : outcome times :=
  topo ← topo_sort tasks predecessors successors;
  '(ES, EF) ← forward_pass topo [] [];
  pd ← max_values EF;
  '(LS, LF) ← backward_pass pd (reverse topo) [] [];
  sl ← slack_table LS ES tasks [];
  Ok (Times topo ES EF pd LS LF sl).
End passes.

Definition compute_times (rows : list row) : outcome times :=
  run_passes (tasks_of rows) (duration_of rows) (predecessors_of (graph rows))
    (successors_of (graph rows)).

Definition nonneg_durations (rows : list row) : Prop :=
  ∀ r, r ∈ rows → (0 <=? Duration r)%float = true.

(** Two tasks in sequence, of 0.1 and 0.7 time units. *)
#[warnings="-inexact-float"]
Definition rows_tenths : list row :=
  [ Row "A" 0.1 []; Row "B" 0.7 ["A"] ].

(** Three tasks in sequence, of 0.1, 0.2 and 0.3 time units. *)
#[warnings="-inexact-float"]
Definition rows_chain : list row :=
  [ Row "A" 0.1 []; Row "B" 0.2 ["A"]; Row "C" 0.3 ["B"] ].

End Binary64.

(** ** Basic facts about outcomes, subscripts, [max] and [min] *)

Lemma bind_Ok {A B} (m : outcome A) (k : A → outcome B) b :
  m ≫= k = Ok b ↔ ∃ a, m = Ok a ∧ k a = Ok b.
Proof.
  destruct m as [a| |]; simpl; split; try (intros [? [? ?]]); try done.
  - eauto.
  - by simplify_eq.
Qed.

Lemma bind_not_OutOfFuel {A B} (m : outcome A) (k : A → outcome B) :
  m ≠ OutOfFuel → (∀ a, m = Ok a → k a ≠ OutOfFuel) → m ≫= k ≠ OutOfFuel.
Proof. destruct m; simpl; naive_solver. Qed.

Ltac inv_bind H :=
  repeat match type of H with
  | _ ≫= _ = Ok _ =>
      let a := fresh "a" in let Ha := fresh "Hrun" in
      apply bind_Ok in H as (a & Ha & H)
  end.

Lemma subscript_Ok {V} (d : gmap string V) k v :
  subscript d k = Ok v ↔ d !! k = Some v.
Proof. unfold subscript. destruct (d !! k); naive_solver. Qed.

Lemma subscript_lookup {V} (d : gmap string V) k v :
  d !! k = Some v → subscript d k = Ok v.
Proof. apply subscript_Ok. Qed.

Lemma subscript_not_OutOfFuel {V} (d : gmap string V) k : subscript d k ≠ OutOfFuel.
Proof. unfold subscript. by destruct (d !! k). Qed.

Lemma subscripts_Ok {V} (d : gmap string V) ks vs :
  subscripts d ks = Ok vs ↔ Forall2 (λ k v, d !! k = Some v) ks vs.
Proof.
  revert vs. induction ks as [|k ks IH]; intros vs; simpl.
  - split; [intros; simplify_eq; constructor | by inversion 1].
  - rewrite bind_Ok. split.
    + intros (v & Hv & H). apply bind_Ok in H as (vs' & Hvs & H).
      simplify_eq. constructor; [by apply subscript_Ok | by apply IH].
    + inversion 1 as [|? v ? vs' Hv Hvs]; subst.
      exists v. split; [by apply subscript_Ok|].
      apply bind_Ok. exists vs'. split; [by apply IH | done].
Qed.

Lemma foldl_max_spec (xs : list Z) (x : Z) :
  (foldl Z.max x xs = x ∨ foldl Z.max x xs ∈ xs) ∧
  x ≤ foldl Z.max x xs ∧ ∀ y, y ∈ xs → y ≤ foldl Z.max x xs.
Proof.
  revert x. induction xs as [|y xs IH]; intros x; simpl.
  - split; [by left|]. split; [lia|]. intros y Hy. by apply elem_of_nil in Hy.
  - destruct (IH (Z.max x y)) as (H1 & H2 & H3). split; [|split].
    + destruct H1 as [H1|H1].
      * rewrite H1. destruct (Z.max_spec x y) as [[? ->]|[? ->]];
          [right; left | by left].
      * right. by right.
    + lia.
    + intros z [->|Hz]%elem_of_cons; [lia | by apply H3].
Qed.

Lemma foldl_min_spec (xs : list Z) (x : Z) :
  (foldl Z.min x xs = x ∨ foldl Z.min x xs ∈ xs) ∧
  foldl Z.min x xs ≤ x ∧ ∀ y, y ∈ xs → foldl Z.min x xs ≤ y.
Proof.
  revert x. induction xs as [|y xs IH]; intros x; simpl.
  - split; [by left|]. split; [lia|]. intros y Hy. by apply elem_of_nil in Hy.
  - destruct (IH (Z.min x y)) as (H1 & H2 & H3). split; [|split].
    + destruct H1 as [H1|H1].
      * rewrite H1. destruct (Z.min_spec x y) as [[? ->]|[? ->]];
          [by left | right; left].
      * right. by right.
    + lia.
    + intros z [->|Hz]%elem_of_cons; [lia | by apply H3].
Qed.

Lemma py_max_Ok xs m : py_max xs = Ok m → is_max m xs.
Proof.
  destruct xs as [|x xs]; simpl; [done|]. intros [= <-].
  destruct (foldl_max_spec xs x) as (H1 & H2 & H3). split.
  - destruct H1 as [->|H1]; [left | by right].
  - intros y [->|Hy]%elem_of_cons; [done | by apply H3].
Qed.

Lemma py_min_Ok xs m : py_min xs = Ok m → is_min m xs.
Proof.
  destruct xs as [|x xs]; simpl; [done|]. intros [= <-].
  destruct (foldl_min_spec xs x) as (H1 & H2 & H3). split.
  - destruct H1 as [->|H1]; [left | by right].
  - intros y [->|Hy]%elem_of_cons; [done | by apply H3].
Qed.

(** *** Occurrence counting *)

Lemma occ_nil x : occ x [] = 0%nat.
Proof. done. Qed.

Lemma occ_cons x y l :
  occ x (y :: l) = ((if decide (y = x) then 1 else 0) + occ x l)%nat.
Proof. unfold occ. rewrite filter_cons. by case_decide. Qed.

Lemma occ_app x l1 l2 : occ x (l1 ++ l2) = (occ x l1 + occ x l2)%nat.
Proof. unfold occ. by rewrite filter_app, length_app. Qed.

Lemma occ_pos x l : (0 < occ x l)%nat ↔ x ∈ l.
Proof.
  induction l as [|y l IH]; [rewrite occ_nil, elem_of_nil; lia|].
  rewrite occ_cons, elem_of_cons. case_decide; subst; [|rewrite <- IH]; naive_solver lia.
Qed.

Lemma occ_zero x l : occ x l = 0%nat ↔ x ∉ l.
Proof. rewrite <- occ_pos. lia. Qed.

(** ** Graph construction *)

Lemma elem_of_tasks_of rows t : t ∈ tasks_of rows ↔ ∃ r, r ∈ rows ∧ Task r = t.
Proof. unfold tasks_of. rewrite list_elem_of_fmap. naive_solver. Qed.

Lemma tasks_of_snoc rows r : tasks_of (rows ++ [r]) = tasks_of rows ++ [Task r].
Proof. unfold tasks_of. by rewrite fmap_app. Qed.

Lemma predecessors_of_snoc rows r :
  predecessors_of (rows ++ [r]) = <[Task r := Predecessors r]> (predecessors_of rows).
Proof. unfold predecessors_of. by rewrite foldl_app. Qed.

Lemma duration_of_snoc rows r :
  duration_of (rows ++ [r]) = <[Task r := Duration r]> (duration_of rows).
Proof. unfold duration_of. by rewrite foldl_app. Qed.

Lemma predecessors_of_is_Some rows t :
  is_Some (predecessors_of rows !! t) ↔ t ∈ tasks_of rows.
Proof.
  induction rows as [|r rows IH] using rev_ind.
  - unfold predecessors_of, tasks_of. simpl. rewrite lookup_empty, elem_of_nil.
    split; [by intros [? ?] | done].
  - rewrite predecessors_of_snoc, tasks_of_snoc, elem_of_app, list_elem_of_singleton.
    rewrite lookup_insert_is_Some. destruct (decide (Task r = t)); naive_solver.
Qed.

Lemma duration_of_is_Some rows t :
  is_Some (duration_of rows !! t) ↔ t ∈ tasks_of rows.
Proof.
  induction rows as [|r rows IH] using rev_ind.
  - unfold duration_of, tasks_of. simpl. rewrite lookup_empty, elem_of_nil.
    split; [by intros [? ?] | done].
  - rewrite duration_of_snoc, tasks_of_snoc, elem_of_app, list_elem_of_singleton.
    rewrite lookup_insert_is_Some. destruct (decide (Task r = t)); naive_solver.
Qed.

Lemma predecessors_of_row rows t ps :
  predecessors_of rows !! t = Some ps →
  ∃ r, r ∈ rows ∧ Task r = t ∧ Predecessors r = ps.
Proof.
  induction rows as [|r rows IH] using rev_ind; [done|].
  rewrite predecessors_of_snoc. destruct (decide (Task r = t)) as [<-|Hne].
  - rewrite lookup_insert_eq. intros [= <-]. exists r. set_solver.
  - rewrite lookup_insert_ne by done. intros (r' & ? & ?)%IH. exists r'. set_solver.
Qed.

Lemma predecessors_of_lookup rows r :
  NoDup (tasks_of rows) → r ∈ rows →
  predecessors_of rows !! Task r = Some (Predecessors r).
Proof.
  induction rows as [|r' rows IH] using rev_ind; [by intros _ ?%elem_of_nil|].
  rewrite tasks_of_snoc, predecessors_of_snoc.
  intros [Hnd [Hnin _]]%NoDup_app Hr.
  apply elem_of_app in Hr as [Hr| ->%list_elem_of_singleton].
  - rewrite lookup_insert_ne; [by apply IH|].
    intros Heq. apply (Hnin (Task r)); [|rewrite Heq; by left].
    apply elem_of_tasks_of; eauto.
  - by rewrite lookup_insert_eq.
Qed.

Lemma duration_of_lookup rows r :
  NoDup (tasks_of rows) → r ∈ rows →
  duration_of rows !! Task r = Some (Duration r).
Proof.
  induction rows as [|r' rows IH] using rev_ind; [by intros _ ?%elem_of_nil|].
  rewrite tasks_of_snoc, duration_of_snoc.
  intros [Hnd [Hnin _]]%NoDup_app Hr.
  apply elem_of_app in Hr as [Hr| ->%list_elem_of_singleton].
  - rewrite lookup_insert_ne; [by apply IH|].
    intros Heq. apply (Hnin (Task r)); [|rewrite Heq; by left].
    apply elem_of_tasks_of; eauto.
  - by rewrite lookup_insert_eq.
Qed.

Lemma getlist_insert d k k' l :
  getlist (<[k := l]> d) k' = if decide (k = k') then l else getlist d k'.
Proof. unfold getlist. rewrite lookup_insert. by case_decide. Qed.

Lemma getlist_Some d k l : d !! k = Some l → getlist d k = l.
Proof. unfold getlist. by intros ->. Qed.

Lemma getlist_elem d k x : x ∈ getlist d k → ∃ l, d !! k = Some l ∧ x ∈ l.
Proof.
  unfold getlist. destruct (d !! k) as [l|]; simpl; [eauto|by intros ?%elem_of_nil].
Qed.

Lemma append_succ_all task ps d p :
  getlist (foldl (append_succ task) d ps) p = getlist d p ++ replicate (occ p ps) task.
Proof.
  revert d. induction ps as [|q ps IH]; intros d; simpl.
  - by rewrite app_nil_r.
  - rewrite IH, occ_cons. unfold append_succ. rewrite getlist_insert.
    case_decide; subst; simpl; [by rewrite <- app_assoc | done].
Qed.

Lemma successors_of_snoc rows r :
  successors_of (rows ++ [r]) =
  foldl (append_succ (Task r)) (successors_of rows) (Predecessors r).
Proof. unfold successors_of. by rewrite foldl_app. Qed.

Lemma successors_of_declared rows p :
  getlist (successors_of rows) p = declared_successors rows p.
Proof.
  unfold declared_successors.
  induction rows as [|r rows IH] using rev_ind; [done|].
  rewrite successors_of_snoc, append_succ_all, IH, bind_app. simpl.
  by rewrite app_nil_r.
Qed.

Lemma elem_of_declared_successors rows p s :
  s ∈ declared_successors rows p ↔
  ∃ r, r ∈ rows ∧ Task r = s ∧ p ∈ Predecessors r.
Proof.
  unfold declared_successors. rewrite list_elem_of_bind. split.
  - intros (r & Hs & Hr). apply elem_of_replicate in Hs as [-> Hn].
    exists r. split_and!; [done..|]. apply occ_pos. lia.
  - intros (r & Hr & <- & Hp). exists r. split; [|done].
    apply elem_of_replicate. split; [done|]. apply occ_pos in Hp. lia.
Qed.

Lemma successors_of_task rows p s :
  s ∈ getlist (successors_of rows) p → s ∈ tasks_of rows.
Proof.
  rewrite successors_of_declared, elem_of_declared_successors, elem_of_tasks_of.
  naive_solver.
Qed.

Lemma occ_replicate x n y :
  occ x (replicate n y) = if decide (y = x) then n else 0%nat.
Proof.
  induction n as [|n IH]; simpl; [by case_decide|].
  rewrite occ_cons, IH. by case_decide.
Qed.

(** With unique identifiers the two adjacency views are inverse to each
    other, multiplicities included. *)
Lemma successors_of_occ rows p s :
  NoDup (tasks_of rows) →
  occ s (getlist (successors_of rows) p) = occ p (getlist (predecessors_of rows) s).
Proof.
  rewrite successors_of_declared. unfold declared_successors.
  induction rows as [|r rows IH] using rev_ind; [done|].
  rewrite tasks_of_snoc, predecessors_of_snoc, bind_app, occ_app.
  intros [Hnd [Hnin _]]%NoDup_app. simpl. rewrite app_nil_r, occ_replicate.
  rewrite getlist_insert. case_decide as Heq.
  - subst s. destruct (occ (Task r) (rows ≫= _)) eqn:Hocc; [done|].
    exfalso. apply (Hnin (Task r)); [|by left].
    assert (Task r ∈ declared_successors rows p) as Hin
      by (apply occ_pos; unfold declared_successors; lia).
    apply elem_of_declared_successors in Hin as (r' & ? & ? & _).
    apply elem_of_tasks_of. eauto.
  - rewrite IH by done. lia.
Qed.

Lemma edge_task rows p t : edge rows p t → t ∈ tasks_of rows.
Proof. intros (ps & Hps & _)%getlist_elem. apply predecessors_of_is_Some. eauto. Qed.

Lemma edge_successor rows p t :
  NoDup (tasks_of rows) → edge rows p t ↔ t ∈ getlist (successors_of rows) p.
Proof.
  intros Hnd. unfold edge. rewrite <- !occ_pos. by rewrite successors_of_occ.
Qed.

(** With unique identifiers the edges are the declared ones. *)
Lemma edge_declared rows p t :
  NoDup (tasks_of rows) →
  edge rows p t ↔ ∃ r, r ∈ rows ∧ Task r = t ∧ p ∈ Predecessors r.
Proof.
  intros Hnd. split.
  - intros (ps & (r & ? & ? & <-)%predecessors_of_row & ?)%getlist_elem. eauto.
  - intros (r & Hr & <- & Hp). unfold edge.
    by rewrite (getlist_Some _ _ _ (predecessors_of_lookup _ _ Hnd Hr)).
Qed.

(** ** Kahn's loop terminates within its fuel, on every input *)

Lemma pending_cons deg t ts :
  pending deg (t :: ts) =
  ((if decide (0 < indeg deg t)%Z then 1 else 0) + pending deg ts)%nat.
Proof. unfold pending. rewrite filter_cons. by case_decide. Qed.

Lemma pending_le deg1 deg ts :
  (∀ t, t ∈ ts → 0 < indeg deg1 t → 0 < indeg deg t) →
  (pending deg1 ts ≤ pending deg ts)%nat.
Proof.
  induction ts as [|t ts IH]; intros Hmono; [done|].
  rewrite !pending_cons.
  assert (pending deg1 ts ≤ pending deg ts)%nat
    by (apply IH; intros; apply Hmono; [by right | done]).
  destruct (decide (0 < indeg deg1 t)) as [H1|H1].
  - rewrite decide_True by (apply Hmono; [by left | done]). lia.
  - case_decide; lia.
Qed.

Lemma pending_lt deg1 deg ts s :
  (∀ t, t ∈ ts → 0 < indeg deg1 t → 0 < indeg deg t) →
  s ∈ ts → 0 < indeg deg s → ¬ 0 < indeg deg1 s →
  (pending deg1 ts < pending deg ts)%nat.
Proof.
  induction ts as [|t ts IH]; intros Hmono Hs Hpos Hneg;
    [by apply elem_of_nil in Hs|].
  assert (pending deg1 ts ≤ pending deg ts)%nat as Hle
    by (apply pending_le; intros; apply Hmono; [by right | done]).
  rewrite !pending_cons.
  destruct (decide (t = s)) as [->|Hne].
  - destruct (decide (0 < indeg deg1 s)); [done|].
    destruct (decide (0 < indeg deg s)); [lia | done].
  - apply elem_of_cons in Hs as [?|Hs]; [done|].
    assert (pending deg1 ts < pending deg ts)%nat
      by (apply IH; [intros; apply Hmono; [by right | done] | done..]).
    destruct (decide (0 < indeg deg1 t)) as [H1|H1].
    + rewrite decide_True by (apply Hmono; [by left | done]). lia.
    + case_decide; lia.
Qed.

Lemma filter_disjoint_length {A} (P Q : A → Prop) `{!∀ x, Decision (P x)}
    `{!∀ x, Decision (Q x)} (l : list A) :
  (∀ x, P x → Q x → False) →
  (length (filter P l) + length (filter Q l) ≤ length l)%nat.
Proof.
  intros Hdisj. induction l as [|x l IH]; [done|].
  rewrite !filter_cons. destruct (decide (P x)), (decide (Q x)); simpl; try lia.
  exfalso; eauto.
Qed.

Lemma indeg_insert deg s d t :
  indeg (<[s := d]> deg) t = if decide (s = t) then d else indeg deg t.
Proof. unfold indeg. rewrite lookup_insert. by case_decide. Qed.

Section kahn_total.
Variable tasks : list string.
Variable predecessors : gmap string (list string).
Variable successors : gmap string (list string).
Hypothesis pred_dom : ∀ t, t ∈ tasks → is_Some (predecessors !! t).
Hypothesis succ_task : ∀ p s, s ∈ getlist successors p → s ∈ tasks.

Lemma in_degree_init_Ok ts deg :
  (∀ t, t ∈ ts → is_Some (predecessors !! t)) →
  ∃ deg', in_degree_init predecessors ts deg = Ok deg' ∧
    ∀ t, deg' !! t =
         if decide (t ∈ ts)
         then Some (Z.of_nat (length (getlist predecessors t)))
         else deg !! t.
Proof.
  revert deg. induction ts as [|t ts IH]; intros deg Hdom; simpl.
  - exists deg. split; [done|]. intros t.
    destruct (decide (t ∈ [])) as [H|]; [by apply elem_of_nil in H | done].
  - destruct (Hdom t) as [ps Hps]; [by left|].
    rewrite (subscript_lookup _ _ _ Hps). simpl.
    destruct (IH (<[t := Z.of_nat (length ps)]> deg)) as (deg' & -> & Hdeg');
      [intros; apply Hdom; by right|].
    exists deg'. split; [done|]. intros x. rewrite Hdeg'.
    destruct (decide (x ∈ ts)) as [Hx|Hx].
    + rewrite decide_True by (by right). done.
    + destruct (decide (t = x)) as [->|Hne].
      * rewrite decide_True by (by left).
        by rewrite lookup_insert_eq, (getlist_Some _ _ _ Hps).
      * rewrite lookup_insert_ne by done.
        rewrite decide_False; [done|]. intros [?|?]%elem_of_cons; by simplify_eq.
Qed.

Lemma queue_init_Ok deg ts :
  (∀ t, t ∈ ts → is_Some (deg !! t)) →
  queue_init deg ts = Ok (filter (λ t, deg !! t = Some 0) ts).
Proof.
  induction ts as [|t ts IH]; intros Hdom; simpl; [done|].
  destruct (Hdom t) as [d Hd]; [by left|].
  rewrite (subscript_lookup _ _ _ Hd), IH by (intros; apply Hdom; by right).
  simpl. rewrite filter_cons, Hd. destruct (Z.eqb_spec d 0) as [->|Hne].
  - by rewrite decide_True.
  - rewrite decide_False; [done|]. by intros [= ?].
Qed.

Lemma relax_total ss deg q :
  (∀ s, s ∈ ss → s ∈ tasks) →
  (∀ t, t ∈ tasks → is_Some (deg !! t)) →
  ∃ deg' q', relax ss deg q = Ok (deg', q') ∧
    (∀ t, t ∈ tasks → is_Some (deg' !! t)) ∧
    (length q' + pending deg' tasks ≤ length q + pending deg tasks)%nat.
Proof.
  revert deg q. induction ss as [|s ss IH]; intros deg q Hss Hdom; simpl.
  - exists deg, q. split_and!; [done..|lia].
  - assert (s ∈ tasks) as Hs by (apply Hss; by left).
    destruct (Hdom s Hs) as [d Hd].
    rewrite (subscript_lookup _ _ _ Hd). simpl.
    set (deg1 := <[s := d - 1]> deg).
    set (q1 := if d - 1 =? 0 then q ++ [s] else q).
    destruct (IH deg1 q1) as (deg' & q' & -> & Hdom' & Hle).
    { intros; apply Hss; by right. }
    { intros t Ht. unfold deg1. rewrite lookup_insert_is_Some.
      destruct (decide (s = t)); [by left | right; auto]. }
    exists deg', q'. split_and!; [done..|].
    assert (indeg deg s = d) as Hds by (unfold indeg; by rewrite Hd).
    assert (∀ t, t ∈ tasks → 0 < indeg deg1 t → 0 < indeg deg t) as Hmono.
    { intros t _. unfold deg1. rewrite indeg_insert. case_decide; subst; lia. }
    assert (length q1 + pending deg1 tasks ≤ length q + pending deg tasks)%nat;
      [|lia].
    unfold q1. destruct (Z.eqb_spec (d - 1) 0) as [Hz|Hz].
    + rewrite length_app. simpl.
      assert (pending deg1 tasks < pending deg tasks)%nat; [|lia].
      apply (pending_lt _ _ _ s); [done..|lia|].
      unfold deg1. rewrite indeg_insert, decide_True by done. lia.
    + pose proof (pending_le deg1 deg tasks Hmono). lia.
Qed.

Lemma kahn_loop_total fuel deg q topo :
  (∀ t, t ∈ tasks → is_Some (deg !! t)) →
  (length q + pending deg tasks ≤ fuel)%nat →
  ∃ topo', kahn_loop successors fuel deg q topo = Ok topo'.
Proof.
  revert deg q topo. induction fuel as [|fuel IH]; intros deg q topo Hdom Hfuel.
  - destruct q; simpl in *; [eauto | lia].
  - destruct q as [|node q]; simpl in *; [eauto|].
    destruct (relax_total (getlist successors node) deg q)
      as (deg' & q' & -> & Hdom' & Hle); [by apply succ_task | done |].
    simpl. apply IH; [done | lia].
Qed.

Lemma topo_sort_total : ∃ topo, topo_sort tasks predecessors successors = Ok topo.
Proof.
  unfold topo_sort.
  destruct (in_degree_init_Ok tasks ∅ pred_dom) as (deg & -> & Hdeg). simpl.
  assert (∀ t, t ∈ tasks → is_Some (deg !! t)) as Hdom.
  { intros t Ht. rewrite Hdeg, decide_True by done. eauto. }
  rewrite queue_init_Ok by done. simpl.
  apply kahn_loop_total; [done|].
  apply filter_disjoint_length. intros t Ht. unfold indeg. rewrite Ht. simpl. lia.
Qed.
End kahn_total.

(** ** What one sweep over a successor list does *)

Lemma relax_spec ss deg q :
  (∀ s, s ∈ ss → ∃ d, deg !! s = Some d ∧ Z.of_nat (occ s ss) ≤ d) →
  ∃ deg' added, relax ss deg q = Ok (deg', q ++ added) ∧
    (∀ t, deg' !! t = (λ d, d - Z.of_nat (occ t ss)) <$> deg !! t) ∧
    NoDup added ∧
    (∀ t, t ∈ added ↔ t ∈ ss ∧ deg !! t = Some (Z.of_nat (occ t ss))).
Proof.
  revert deg q. induction ss as [|s ss IH]; intros deg q Hpre; simpl.
  - exists deg, []. rewrite app_nil_r. split_and!; [done| |constructor|].
    + intros t. rewrite occ_nil. destruct (deg !! t); simpl; [f_equal; lia | done].
    + intros t. rewrite !elem_of_nil. naive_solver.
  - destruct (Hpre s) as (d & Hd & Hle); [by left|].
    rewrite occ_cons, decide_True in Hle by done.
    rewrite (subscript_lookup _ _ _ Hd). simpl.
    set (deg1 := <[s := d - 1]> deg).
    destruct (IH deg1 (if d - 1 =? 0 then q ++ [s] else q))
      as (deg' & added & -> & Hdeg' & Hnd & Hadded).
    { intros x Hx. unfold deg1. destruct (decide (s = x)) as [->|Hne].
      - rewrite lookup_insert_eq. exists (d - 1). split; [done | lia].
      - rewrite lookup_insert_ne by done.
        destruct (Hpre x) as (dx & ? & Hlex); [by right|].
        rewrite occ_cons, decide_False in Hlex by done. eauto. }
    assert (∀ t, deg' !! t = (λ d, d - Z.of_nat (occ t (s :: ss))) <$> deg !! t)
      as Hdeg.
    { intros t. rewrite Hdeg', occ_cons. unfold deg1.
      destruct (decide (s = t)) as [->|Hne].
      - rewrite lookup_insert_eq, Hd. simpl. f_equal. lia.
      - rewrite lookup_insert_ne by done. destruct (deg !! t); simpl; [f_equal; lia|done]. }
    assert (∀ t, t ≠ s → deg1 !! t = deg !! t) as Hother
      by (intros; unfold deg1; by rewrite lookup_insert_ne).
    assert (deg1 !! s = Some (d - 1)) as Hself
      by (unfold deg1; by rewrite lookup_insert_eq).
    destruct (Z.eqb_spec (d - 1) 0) as [Hz|Hz].
    + exists deg', (s :: added). rewrite <- app_assoc. simpl.
      assert (s ∉ ss) as Hs by (apply occ_zero; lia).
      split_and!; [done..| |].
      * constructor; [|done]. rewrite Hadded. naive_solver.
      * intros t. rewrite elem_of_cons, Hadded, elem_of_cons, occ_cons.
        destruct (decide (s = t)) as [->|Hne].
        -- split; [|by left]. intros _. split; [by left|].
           rewrite Hd. f_equal. apply occ_zero in Hs. lia.
        -- rewrite Hother by done. simpl. naive_solver.
    + exists deg', added. split_and!; [done..|].
      intros t. rewrite Hadded, elem_of_cons, occ_cons.
      destruct (decide (s = t)) as [->|Hne].
      * rewrite Hself, Hd. split.
        -- intros [_ [= Heq]]. split; [by left|]. f_equal. lia.
        -- intros [_ [= Heq]]. split; [apply occ_pos; lia | f_equal; lia].
      * rewrite Hother by done. simpl. naive_solver.
Qed.

(** ** Well-foundedness of a finite acyclic relation *)

Section finite_acyclic.
Variable tasks : list string.
Variable R : relation string.
Hypothesis R_closed : ∀ p t, R p t → p ∈ tasks.
Hypothesis R_acyclic : ∀ t, ¬ tc R t t.

Lemma chain_reach x l y : chain R (x :: l) → y ∈ l → tc R x y.
Proof.
  revert x. induction l as [|z l IH]; intros x [Hxz Hch] Hy;
    [by apply elem_of_nil in Hy|].
  apply elem_of_cons in Hy as [->|Hy]; [by apply tc_once|].
  eapply tc_l; [done | by apply IH].
Qed.

Lemma acc_of_chain n t l :
  chain R (t :: l) → NoDup (t :: l) → (∀ x, x ∈ t :: l → x ∈ tasks) →
  (length tasks < length (t :: l) + n)%nat → Acc R t.
Proof.
  revert t l. induction n as [|n IH]; intros t l Hch Hnd Htasks Hlen.
  - exfalso. pose proof (submseteq_length _ _ (NoDup_submseteq _ _ Hnd Htasks)).
    lia.
  - constructor. intros p Hp. apply (IH p (t :: l)).
    + by split.
    + constructor; [|done]. intros Hin. apply (R_acyclic p).
      by apply (chain_reach p (t :: l)).
    + intros x [->|Hx]%elem_of_cons; [by eapply R_closed | by apply Htasks].
    + simpl in *. lia.
Qed.

Lemma finite_acyclic_wf : well_founded R.
Proof.
  intros t. constructor. intros p Hp.
  apply (acc_of_chain (length tasks) p []).
  - done.
  - apply NoDup_singleton.
  - intros x ->%list_elem_of_singleton. by eapply R_closed.
  - simpl. lia.
Qed.
End finite_acyclic.

(** ** Kahn's algorithm on a graph with unique task identifiers *)

Lemma filter_length_zero {A} (P : A → Prop) `{!∀ x, Decision (P x)} (l : list A) :
  length (filter P l) = 0%nat ↔ ∀ x, x ∈ l → ¬ P x.
Proof.
  induction l as [|x l IH].
  - split; [by intros _ ? ?%elem_of_nil | done].
  - rewrite filter_cons. destruct (decide (P x)) as [HP|HP]; simpl.
    + split; [done|]. intros Hall. exfalso. apply (Hall x); [by left | done].
    + rewrite IH. split.
      * intros Hall y [->|Hy]%elem_of_cons; [done | by apply Hall].
      * intros Hall y Hy. apply Hall. by right.
Qed.

Section kahn.
Variable tasks : list string.
Variable predecessors : gmap string (list string).
Variable successors : gmap string (list string).

Abbreviation preds t := (getlist predecessors t).
Abbreviation succs p := (getlist successors p).

Hypothesis tasks_nodup : NoDup tasks.
Hypothesis pred_dom : ∀ t, t ∈ tasks ↔ is_Some (predecessors !! t).
Hypothesis succ_occ : ∀ p s, occ s (succs p) = occ p (preds s).

Lemma unmet_zero topo t :
  unmet predecessors topo t = 0%nat ↔ ∀ p, p ∈ preds t → p ∈ topo.
Proof.
  unfold unmet. rewrite filter_length_zero. split.
  - intros H p Hp. destruct (decide (p ∈ topo)); [done|]. by destruct (H p Hp).
  - intros H p Hp Hn. by apply Hn, H.
Qed.

Lemma unmet_snoc topo node t :
  node ∉ topo →
  (unmet predecessors (topo ++ [node]) t + occ node (preds t))%nat = unmet predecessors topo t.
Proof.
  intros Hnode. unfold unmet. induction (preds t) as [|p l IH]; [done|].
  rewrite occ_cons, !filter_cons.
  destruct (decide (p = node)) as [->|Hne].
  - rewrite decide_False by set_solver. rewrite decide_True by done. simpl. lia.
  - destruct (decide (p ∈ topo)).
    + rewrite decide_False by set_solver. rewrite decide_False by set_solver. lia.
    + rewrite decide_True by set_solver. rewrite decide_True by set_solver.
      simpl. lia.
Qed.

Lemma succs_task p s : s ∈ succs p → s ∈ tasks.
Proof.
  intros Hs%occ_pos. rewrite succ_occ in Hs.
  apply occ_pos, getlist_elem in Hs as (l & Hl & _). apply pred_dom. eauto.
Qed.

Lemma kahn_inv_init deg :
  (∀ t, deg !! t =
        if decide (t ∈ tasks) then Some (Z.of_nat (length (preds t))) else None) →
  kahn_inv tasks predecessors deg (filter (λ t, deg !! t = Some 0) tasks) [].
Proof.
  intros Hdeg.
  assert (∀ t, unmet predecessors [] t = length (preds t)) as Hunmet.
  { intros t. unfold unmet. induction (preds t) as [|p l IH]; [done|].
    rewrite filter_cons_True by apply not_elem_of_nil.
    rewrite !length_cons. by f_equal. }
  split; simpl.
  - by apply NoDup_filter.
  - intros x Hx. by apply list_elem_of_filter in Hx as [_ ?].
  - intros t Ht. by rewrite Hdeg, decide_True, Hunmet.
  - intros t Ht. rewrite list_elem_of_filter, Hdeg, decide_True, Hunmet by done.
    split; [intros [[= ?] _]; lia | intros ->; done].
  - intros l1 t l2 Heq. by destruct l1.
Qed.

Lemma kahn_inv_step deg node q topo :
  kahn_inv tasks predecessors deg (node :: q) topo →
  ∃ deg' q', relax (succs node) deg q = Ok (deg', q') ∧
             kahn_inv tasks predecessors deg' q' (topo ++ [node]).
Proof.
  intros [Hnd Htasks Hdeg Hready Horder].
  assert (node ∉ topo) as Hnode.
  { apply NoDup_app in Hnd as (_ & Hdisj & _). intros Hin.
    apply (Hdisj node Hin). by left. }
  assert (node ∈ tasks) as Hnode_task by (apply Htasks; set_solver).
  assert (∀ t, occ t (succs node) ≤ unmet predecessors topo t)%nat as Hocc.
  { intros t. rewrite succ_occ, <- (unmet_snoc topo node t Hnode). lia. }
  destruct (relax_spec (succs node) deg q)
    as (deg' & added & Hrun & Hdeg' & Hnd_added & Hadded).
  { intros s Hs. exists (Z.of_nat (unmet predecessors topo s)).
    split; [by apply Hdeg, succs_task with node|]. specialize (Hocc s). lia. }
  assert (∀ t, t ∈ tasks →
            deg' !! t = Some (Z.of_nat (unmet predecessors (topo ++ [node]) t))) as Hdeg_new.
  { intros t Ht. rewrite Hdeg', Hdeg by done. simpl. f_equal.
    rewrite succ_occ, <- (unmet_snoc topo node t Hnode). lia. }
  assert (∀ t, t ∈ added ↔
            t ∈ tasks ∧ unmet predecessors topo t ≠ 0%nat ∧
            unmet predecessors (topo ++ [node]) t = 0%nat)
    as Hadded'.
  { intros t. rewrite Hadded. split.
    - intros [Hin Ht]. assert (t ∈ tasks) as Ht' by by eapply succs_task.
      rewrite Hdeg in Ht by done. injection Ht as Ht. apply Nat2Z.inj in Ht.
      apply occ_pos in Hin.
      pose proof (unmet_snoc topo node t Hnode) as Hs. rewrite <- succ_occ in Hs.
      split_and!; [done|lia..].
    - intros (Ht & Hpos & Hzero).
      pose proof (unmet_snoc topo node t Hnode) as Hs. rewrite <- succ_occ in Hs.
      split; [apply occ_pos; lia|]. rewrite Hdeg by done. do 2 f_equal. lia. }
  exists deg', (q ++ added). split; [done|].
  assert ((topo ++ [node]) ++ q ++ added = (topo ++ node :: q) ++ added) as Heq
    by by rewrite <- !app_assoc.
  split.
  - rewrite Heq. apply NoDup_app. split_and!; [done| |done].
    intros x Hx Hx'. apply Hadded' in Hx' as (Ht & Hpos & _).
    by apply Hready in Hx.
  - intros x. rewrite Heq, elem_of_app. intros [Hx|Hx]; [by apply Htasks|].
    by apply Hadded' in Hx as (? & _).
  - done.
  - intros t Ht. rewrite Heq, elem_of_app, Hready, Hadded' by done.
    pose proof (unmet_snoc topo node t Hnode). split; [|intros Hz].
    + intros [?|(_ & _ & ?)]; [lia | done].
    + destruct (decide (unmet predecessors topo t = 0%nat)); [by left | right; done].
  - intros l1 t l2 Hsplit p Hp.
    destruct l2 as [|x l2 _] using rev_ind.
    + apply app_inj_tail in Hsplit as [<- <-].
      assert (unmet predecessors topo node = 0%nat) as Hz by (apply Hready; set_solver).
      by apply (unmet_zero topo node).
    + rewrite app_comm_cons, app_assoc in Hsplit.
      apply app_inj_tail in Hsplit as [-> _]. by eapply Horder.
Qed.

Lemma kahn_loop_inv fuel deg q topo topo' :
  kahn_inv tasks predecessors deg q topo →
  kahn_loop successors fuel deg q topo = Ok topo' →
  ∃ deg', kahn_inv tasks predecessors deg' [] topo'.
Proof.
  revert deg q topo. induction fuel as [|fuel IH]; intros deg q topo Hinv Hrun.
  - destruct q; simpl in Hrun; [|done]. simplify_eq. eauto.
  - destruct q as [|node q]; simpl in Hrun; [simplify_eq; eauto|].
    destruct (kahn_inv_step _ _ _ _ Hinv) as (deg' & q' & Hrelax & Hinv').
    rewrite Hrelax in Hrun. simpl in Hrun. by eapply IH.
Qed.

(** The result of the sort on any graph with unique identifiers: a
    duplicate-free list of tasks in which every listed predecessor of a
    member comes earlier, and which holds exactly the tasks all of whose
    predecessors it holds. *)
Lemma topo_sort_inv :
  ∃ topo, topo_sort tasks predecessors successors = Ok topo ∧
    NoDup topo ∧ (∀ x, x ∈ topo → x ∈ tasks) ∧
    (∀ t, t ∈ tasks → t ∈ topo ↔ ∀ p, p ∈ preds t → p ∈ topo) ∧
    (∀ l1 t l2, topo = l1 ++ t :: l2 → ∀ p, p ∈ preds t → p ∈ l1).
Proof.
  destruct (topo_sort_total tasks predecessors successors) as [topo Hrun].
  { intros t. apply pred_dom. } { apply succs_task. }
  exists topo. split; [done|]. unfold topo_sort in Hrun.
  apply bind_Ok in Hrun as (deg & Hdeg & Hrun).
  apply bind_Ok in Hrun as (q & Hq & Hrun).
  destruct (in_degree_init_Ok predecessors tasks ∅) as (deg0 & Hdeg0 & Hlook);
    [intros t; apply pred_dom|].
  rewrite Hdeg in Hdeg0. injection Hdeg0 as <-.
  rewrite queue_init_Ok in Hq.
  2:{ intros t Ht. rewrite Hlook, decide_True by done. eauto. }
  injection Hq as <-.
  destruct (kahn_loop_inv _ _ _ _ _ (kahn_inv_init deg Hlook) Hrun)
    as [deg' [Hnd Htasks _ Hready Horder]].
  rewrite app_nil_r in Hnd. split_and!; [done| | |done].
  - intros x Hx. apply Htasks. by rewrite app_nil_r.
  - intros t Ht. rewrite <- unmet_zero, <- Hready by done. by rewrite app_nil_r.
Qed.

(** On a closed acyclic graph nothing is left out. *)
Hypothesis preds_closed : ∀ p t, p ∈ preds t → p ∈ tasks.
Hypothesis preds_acyclic : ∀ t, ¬ tc (λ p t, p ∈ preds t) t t.

Lemma preds_wf : well_founded (λ p t, p ∈ preds t).
Proof. by apply (finite_acyclic_wf tasks). Qed.

Lemma topo_sort_complete :
  ∃ topo, topo_sort tasks predecessors successors = Ok topo ∧
    NoDup topo ∧ (∀ x, x ∈ topo ↔ x ∈ tasks) ∧
    (∀ l1 t l2, topo = l1 ++ t :: l2 → ∀ p, p ∈ preds t → p ∈ l1).
Proof.
  destruct topo_sort_inv as (topo & Hrun & Hnd & Htasks & Hready & Horder).
  exists topo. split_and!; [done..| |done].
  intros x. split; [apply Htasks|].
  induction (preds_wf x) as [x _ IH]. intros Hx.
  apply Hready; [done|]. intros p Hp. apply IH; [done|]. by eapply preds_closed.
Qed.
End kahn.

(** ** The forward and backward passes along an order that respects the
       dependencies *)

Lemma respects_prefix deps l t : respects deps (l ++ [t]) → respects deps l.
Proof.
  intros H l1 x l2 ->. apply (H l1 x (l2 ++ [t])). by rewrite <- app_assoc.
Qed.

Lemma respects_last deps l t p : respects deps (l ++ [t]) → p ∈ deps t → p ∈ l.
Proof. intros H. by apply (H l t []). Qed.

Lemma Forall2_lookup_elem {V} (m : gmap string V) ks vs :
  Forall2 (λ k v, m !! k = Some v) ks vs →
  (∀ k, k ∈ ks → ∃ v, m !! k = Some v ∧ v ∈ vs) ∧
  (∀ v, v ∈ vs → ∃ k, k ∈ ks ∧ m !! k = Some v).
Proof.
  induction 1 as [|k v ks vs Hkv _ [IH1 IH2]].
  - split; intros ? ?%elem_of_nil; done.
  - split.
    + intros k' [->|Hk]%elem_of_cons; [exists v; split; [done | by left]|].
      destruct (IH1 k' Hk) as (v' & ? & ?). exists v'. split; [done | by right].
    + intros v' [->|Hv]%elem_of_cons; [exists k; split; [by left | done]|].
      destruct (IH2 v' Hv) as (k' & ? & ?). exists k'. split; [by right | done].
Qed.

Lemma subscripts_total {V} (m : gmap string V) ks :
  (∀ k, k ∈ ks → is_Some (m !! k)) → ∃ vs, subscripts m ks = Ok vs.
Proof.
  induction ks as [|k ks IH]; intros Hdom; simpl; [eauto|].
  destruct (Hdom k) as [v Hv]; [by left|].
  destruct IH as [vs Hvs]; [intros; apply Hdom; by right|].
  exists (v :: vs). by rewrite (subscript_lookup _ _ _ Hv), Hvs.
Qed.

Lemma subscripts_length {V} (m : gmap string V) ks vs :
  subscripts m ks = Ok vs → length vs = length ks.
Proof. intros H%subscripts_Ok. symmetry. by eapply Forall2_length. Qed.

Lemma max_subscripts m ks x :
  (vs ← subscripts m ks; py_max vs) = Ok x → max_over m ks x.
Proof.
  intros (vs & Hvs & [Hin Hub]%py_max_Ok)%bind_Ok.
  apply subscripts_Ok, Forall2_lookup_elem in Hvs as [H1 H2]. split.
  - by apply H2.
  - intros k Hk. destruct (H1 k Hk) as (v & ? & ?). exists v. split; [done | by apply Hub].
Qed.

Lemma min_subscripts m ks x :
  (vs ← subscripts m ks; py_min vs) = Ok x → min_over m ks x.
Proof.
  intros (vs & Hvs & [Hin Hub]%py_min_Ok)%bind_Ok.
  apply subscripts_Ok, Forall2_lookup_elem in Hvs as [H1 H2]. split.
  - by apply H2.
  - intros k Hk. destruct (H1 k Hk) as (v & ? & ?). exists v. split; [done | by apply Hub].
Qed.

Lemma max_subscripts_total m ks :
  ks ≠ [] → (∀ k, k ∈ ks → is_Some (m !! k)) →
  ∃ x, (vs ← subscripts m ks; py_max vs) = Ok x.
Proof.
  intros Hne Hdom. destruct (subscripts_total m ks Hdom) as [vs Hvs].
  rewrite Hvs. simpl. apply subscripts_length in Hvs.
  destruct vs; [destruct ks; simpl in *; done | simpl; eauto].
Qed.

Lemma min_subscripts_total m ks :
  ks ≠ [] → (∀ k, k ∈ ks → is_Some (m !! k)) →
  ∃ x, (vs ← subscripts m ks; py_min vs) = Ok x.
Proof.
  intros Hne Hdom. destruct (subscripts_total m ks Hdom) as [vs Hvs].
  rewrite Hvs. simpl. apply subscripts_length in Hvs.
  destruct vs; [destruct ks; simpl in *; done | simpl; eauto].
Qed.

Lemma max_over_insert m ks x t v :
  t ∉ ks → max_over m ks x → max_over (<[t := v]> m) ks x.
Proof.
  intros Ht [(k & Hk & Hx) Hall]. split.
  - exists k. split; [done|]. rewrite lookup_insert_ne; [done|]. by intros ->.
  - intros k' Hk'. rewrite lookup_insert_ne; [by apply Hall|]. by intros ->.
Qed.

Lemma min_over_insert m ks x t v :
  t ∉ ks → min_over m ks x → min_over (<[t := v]> m) ks x.
Proof.
  intros Ht [(k & Hk & Hx) Hall]. split.
  - exists k. split; [done|]. rewrite lookup_insert_ne; [done|]. by intros ->.
  - intros k' Hk'. rewrite lookup_insert_ne; [by apply Hall|]. by intros ->.
Qed.

Lemma tuple_gt_lex a b : tuple_gt a b = true ↔ lex_lt b a.
Proof.
  unfold tuple_gt, lex_lt. destruct a as [a1 a2], b as [b1 b2]. simpl.
  rewrite orb_true_iff, andb_true_iff, !Z.ltb_lt, Z.eqb_eq. lia.
Qed.

Lemma tuple_gt_not_lex a b : tuple_gt a b = false ↔ ¬ lex_lt b a.
Proof. rewrite <- tuple_gt_lex. by destruct (tuple_gt a b). Qed.

Lemma lex_lt_trans a b c : lex_lt a b → lex_lt b c → lex_lt a c.
Proof. unfold lex_lt. lia. Qed.

Lemma lex_le_lt_trans a b c : ¬ lex_lt b a → lex_lt b c → lex_lt a c.
Proof. unfold lex_lt. lia. Qed.

Lemma lex_lt_irrefl a : ¬ lex_lt a a.
Proof. unfold lex_lt. lia. Qed.

Lemma max_by_first_max key cur items :
  first_max key (cur :: items) (max_by key cur items).
Proof.
  revert cur. induction items as [|x items IH]; intros cur; simpl.
  - exists [], []. split_and!; [done|intros ? ?%elem_of_nil; done..].
  - destruct (tuple_gt (key x) (key cur)) eqn:Hgt.
    + apply tuple_gt_lex in Hgt.
      destruct (IH x) as (l1 & l2 & Heq & Hlt & Hle).
      exists (cur :: l1), l2. split_and!; [simpl; by rewrite Heq| |done].
      intros q [->|Hq]%elem_of_cons; [|by apply Hlt].
      destruct l1 as [|y l1]; simpl in Heq; injection Heq as Hx Hrest.
      * by rewrite <- Hx.
      * subst y. eapply lex_lt_trans; [done|]. apply Hlt. by left.
    + apply tuple_gt_not_lex in Hgt.
      destruct (IH cur) as (l1 & l2 & Heq & Hlt & Hle).
      destruct l1 as [|y l1]; simpl in Heq; injection Heq as Hc Hrest.
      * exists [], (x :: items). split_and!.
        -- simpl. by rewrite <- Hc.
        -- intros ? ?%elem_of_nil; done.
        -- intros q [->|Hq]%elem_of_cons; [by rewrite <- Hc|].
           apply Hle. by rewrite <- Hrest.
      * subst y. exists (cur :: x :: l1), l2. split_and!.
        -- simpl. by rewrite <- Hrest.
        -- intros q [->|[->|Hq]%elem_of_cons]%elem_of_cons.
           ++ apply Hlt. by left.
           ++ eapply lex_le_lt_trans; [done|]. apply Hlt. by left.
           ++ apply Hlt. by right.
        -- done.
Qed.

Lemma first_max_ext key key' l p :
  (∀ q, q ∈ l → key q = key' q) → first_max key l p → first_max key' l p.
Proof.
  intros Hext (l1 & l2 & -> & Hlt & Hle). exists l1, l2.
  split_and!; [done| |].
  - intros q Hq. rewrite <- !Hext by set_solver. by apply Hlt.
  - intros q Hq. rewrite <- !Hext by set_solver. by apply Hle.
Qed.

Lemma first_max_elem key l p : first_max key l p → p ∈ l.
Proof. intros (l1 & l2 & -> & _). set_solver. Qed.

Lemma first_max_ge key l p q : first_max key l p → q ∈ l → ¬ lex_lt (key p) (key q).
Proof.
  intros (l1 & l2 & -> & Hlt & Hle) [Hq|[->|Hq]%elem_of_cons]%elem_of_app.
  - specialize (Hlt q Hq). unfold lex_lt in *. lia.
  - apply lex_lt_irrefl.
  - by apply Hle.
Qed.

Lemma first_max_unique key l p q : first_max key l p → first_max key l q → p = q.
Proof.
  intros (l1 & l2 & -> & Hlt & Hle) (k1 & k2 & Heq & Hlt' & Hle').
  revert k1 Heq Hlt'. induction l1 as [|x l1 IH]; intros k1 Heq Hlt'.
  - destruct k1 as [|y k1]; simplify_eq/=; [done|].
    exfalso. apply (Hle q); [set_solver|]. apply Hlt'. by left.
  - destruct k1 as [|y k1]; simplify_eq/=.
    + exfalso. apply (Hle' p); [set_solver|]. apply Hlt. by left.
    + apply (IH ltac:(set_solver) k1); [done | set_solver].
Qed.

Section passes.
Variable tasks : list string.
Variable duration : gmap string Z.
Variable predecessors : gmap string (list string).
Variable successors : gmap string (list string).

Abbreviation preds t := (getlist predecessors t).
Abbreviation succs p := (getlist successors p).

Hypothesis pred_dom : ∀ t, t ∈ tasks ↔ is_Some (predecessors !! t).
Hypothesis dur_dom : ∀ t, t ∈ tasks → is_Some (duration !! t).

Lemma forward_pass_app l1 l2 ES EF :
  forward_pass duration predecessors (l1 ++ l2) ES EF =
  '(ES', EF') ← forward_pass duration predecessors l1 ES EF;
  forward_pass duration predecessors l2 ES' EF'.
Proof.
  revert ES EF. induction l1 as [|t l1 IH]; intros ES EF; simpl; [done|].
  destruct (subscript predecessors t) as [ps| |]; simpl; [|done..].
  destruct (earliest_start EF ps) as [es| |]; simpl; [|done..].
  destruct (subscript duration t) as [d| |]; simpl; [|done..].
  apply IH.
Qed.

Lemma backward_pass_app pd l1 l2 LS LF :
  backward_pass duration successors pd (l1 ++ l2) LS LF =
  '(LS', LF') ← backward_pass duration successors pd l1 LS LF;
  backward_pass duration successors pd l2 LS' LF'.
Proof.
  revert LS LF. induction l1 as [|t l1 IH]; intros LS LF; simpl; [done|].
  destruct (latest_finish pd LS (succs t)) as [lf| |]; simpl; [|done..].
  destruct (subscript duration t) as [d| |]; simpl; [|done..].
  apply IH.
Qed.

Lemma earliest_start_Ok EF ps es :
  earliest_start EF ps = Ok es →
  (ps = [] → es = 0) ∧ (ps ≠ [] → max_over EF ps es).
Proof.
  destruct ps as [|p ps]; simpl.
  - intros [= <-]. done.
  - intros H. split; [done|]. intros _. by apply max_subscripts.
Qed.

Lemma earliest_start_total EF ps :
  (∀ p, p ∈ ps → is_Some (EF !! p)) → ∃ es, earliest_start EF ps = Ok es.
Proof.
  destruct ps as [|p ps]; [simpl; eauto|]. intros Hdom.
  by apply (max_subscripts_total EF (p :: ps)).
Qed.

Lemma latest_finish_Ok pd LS ss lf :
  latest_finish pd LS ss = Ok lf →
  (ss = [] → lf = pd) ∧ (ss ≠ [] → min_over LS ss lf).
Proof.
  destruct ss as [|s ss]; simpl.
  - intros [= <-]. done.
  - intros H. split; [done|]. intros _. by apply min_subscripts.
Qed.

Lemma latest_finish_total pd LS ss :
  (∀ s, s ∈ ss → is_Some (LS !! s)) → ∃ lf, latest_finish pd LS ss = Ok lf.
Proof.
  destruct ss as [|s ss]; [simpl; eauto|]. intros Hdom.
  by apply (min_subscripts_total LS (s :: ss)).
Qed.

Lemma forward_pass_spec order :
  NoDup order → respects (λ t, preds t) order → (∀ t, t ∈ order → t ∈ tasks) →
  ∃ ES EF, forward_pass duration predecessors order ∅ ∅ = Ok (ES, EF) ∧
    (∀ t, is_Some (ES !! t) ↔ t ∈ order) ∧
    (∀ t, is_Some (EF !! t) ↔ t ∈ order) ∧
    ∀ t, t ∈ order → forward_ok duration predecessors ES EF t.
Proof.
  induction order as [|t order IH] using rev_ind; intros Hnd Hresp Htasks.
  - exists ∅, ∅. split_and!; [done| | |].
    + intros t. rewrite lookup_empty, elem_of_nil. split; [by intros [? ?] | done].
    + intros t. rewrite lookup_empty, elem_of_nil. split; [by intros [? ?] | done].
    + by intros t ?%elem_of_nil.
  - apply NoDup_app in Hnd as (Hnd & Hfresh & _).
    assert (t ∉ order) as Ht by (intros Hin; apply (Hfresh t Hin); by left).
    destruct IH as (ES & EF & Hrun & HES & HEF & Hok);
      [done | by eapply respects_prefix | intros; apply Htasks; set_solver |].
    assert (t ∈ tasks) as Ht_task by (apply Htasks; set_solver).
    destruct (proj1 (pred_dom t) Ht_task) as [ps Hps].
    destruct (dur_dom t Ht_task) as [d Hd].
    assert (preds t = ps) as Hpreds by by apply getlist_Some.
    assert (∀ p, p ∈ ps → p ∈ order) as Hps_order.
    { intros p Hp. apply (respects_last _ _ _ _ Hresp). by rewrite Hpreds. }
    destruct (earliest_start_total EF ps) as [es Hes];
      [intros p Hp; by apply HEF, Hps_order|].
    exists (<[t := es]> ES), (<[t := es + d]> EF).
    split_and!.
    + rewrite forward_pass_app, Hrun. simpl.
      rewrite (subscript_lookup _ _ _ Hps). simpl. rewrite Hes. simpl.
      by rewrite (subscript_lookup _ _ _ Hd).
    + intros x. rewrite lookup_insert_is_Some, HES, elem_of_app, list_elem_of_singleton.
      destruct (decide (t = x)); naive_solver.
    + intros x. rewrite lookup_insert_is_Some, HEF, elem_of_app, list_elem_of_singleton.
      destruct (decide (t = x)); naive_solver.
    + intros x [Hx| ->%list_elem_of_singleton]%elem_of_app.
      * destruct (Hok x Hx) as (es' & d' & H1 & H2 & H3 & H4 & H5).
        assert (t ≠ x) by (by intros ->).
        exists es', d'. rewrite !lookup_insert_ne by done.
        split_and!; [done..|]. intros Hne. apply max_over_insert; [|by apply H5].
        intros Hin. apply Ht.
        apply list_elem_of_split in Hx as (l1 & l2 & ->).
        rewrite <- app_assoc in Hresp. simpl in Hresp.
        specialize (Hresp l1 x (l2 ++ [t]) eq_refl t Hin). set_solver.
      * apply earliest_start_Ok in Hes as [Hes1 Hes2].
        exists es, d. rewrite !lookup_insert_eq, Hpreds.
        split_and!; [done..|]. intros Hne. apply max_over_insert; [|by apply Hes2].
        intros Hin. by apply Ht, Hps_order.
Qed.

Lemma backward_pass_spec pd order :
  NoDup order → respects (λ t, succs t) order → (∀ t, t ∈ order → t ∈ tasks) →
  ∃ LS LF, backward_pass duration successors pd order ∅ ∅ = Ok (LS, LF) ∧
    (∀ t, is_Some (LS !! t) ↔ t ∈ order) ∧
    (∀ t, is_Some (LF !! t) ↔ t ∈ order) ∧
    ∀ t, t ∈ order → backward_ok duration successors pd LS LF t.
Proof.
  induction order as [|t order IH] using rev_ind; intros Hnd Hresp Htasks.
  - exists ∅, ∅. split_and!; [done| | |].
    + intros t. rewrite lookup_empty, elem_of_nil. split; [by intros [? ?] | done].
    + intros t. rewrite lookup_empty, elem_of_nil. split; [by intros [? ?] | done].
    + by intros t ?%elem_of_nil.
  - apply NoDup_app in Hnd as (Hnd & Hfresh & _).
    assert (t ∉ order) as Ht by (intros Hin; apply (Hfresh t Hin); by left).
    destruct IH as (LS & LF & Hrun & HLS & HLF & Hok);
      [done | by eapply respects_prefix | intros; apply Htasks; set_solver |].
    assert (t ∈ tasks) as Ht_task by (apply Htasks; set_solver).
    destruct (dur_dom t Ht_task) as [d Hd].
    assert (∀ s, s ∈ succs t → s ∈ order) as Hss_order
      by (intros s Hs; by apply (respects_last _ _ _ _ Hresp)).
    destruct (latest_finish_total pd LS (succs t)) as [lf Hlf];
      [intros s Hs; by apply HLS, Hss_order|].
    exists (<[t := lf - d]> LS), (<[t := lf]> LF).
    split_and!.
    + rewrite backward_pass_app, Hrun. simpl. rewrite Hlf. simpl.
      by rewrite (subscript_lookup _ _ _ Hd).
    + intros x. rewrite lookup_insert_is_Some, HLS, elem_of_app, list_elem_of_singleton.
      destruct (decide (t = x)); naive_solver.
    + intros x. rewrite lookup_insert_is_Some, HLF, elem_of_app, list_elem_of_singleton.
      destruct (decide (t = x)); naive_solver.
    + intros x [Hx| ->%list_elem_of_singleton]%elem_of_app.
      * destruct (Hok x Hx) as (lf' & d' & H1 & H2 & H3 & H4 & H5).
        assert (t ≠ x) by (by intros ->).
        exists lf', d'. rewrite !lookup_insert_ne by done.
        split_and!; [done..|]. intros Hne. apply min_over_insert; [|by apply H5].
        intros Hin. apply Ht.
        apply list_elem_of_split in Hx as (l1 & l2 & ->).
        rewrite <- app_assoc in Hresp. simpl in Hresp.
        specialize (Hresp l1 x (l2 ++ [t]) eq_refl t Hin). set_solver.
      * apply latest_finish_Ok in Hlf as [Hlf1 Hlf2].
        exists lf, d. rewrite !lookup_insert_eq.
        split_and!; [done..|]. intros Hne. apply min_over_insert; [|by apply Hlf2].
        intros Hin. by apply Ht, Hss_order.
Qed.

Lemma best_path_dp_app l1 l2 best :
  best_path_dp duration predecessors (l1 ++ l2) best =
  best' ← best_path_dp duration predecessors l1 best;
  best_path_dp duration predecessors l2 best'.
Proof.
  revert best. induction l1 as [|t l1 IH]; intros best; simpl; [done|].
  destruct (subscript duration t) as [d| |]; simpl; [|done..].
  destruct (subscript predecessors t) as [[|p0 ps]| |]; simpl; [| |done..].
  - apply IH.
  - destruct (get_info best _) as [[? ?] ?]. apply IH.
Qed.

Lemma best_key_insert best t v q :
  q ≠ t → best_key (<[t := v]> best) q = best_key best q.
Proof. intros. unfold best_key, get_info. by rewrite lookup_insert_ne. Qed.

Lemma best_path_dp_spec order :
  NoDup order → respects (λ t, preds t) order → (∀ t, t ∈ order → t ∈ tasks) →
  ∃ best, best_path_dp duration predecessors order ∅ = Ok best ∧
    (∀ t, is_Some (best !! t) ↔ t ∈ order) ∧
    ∀ t, t ∈ order → best_ok duration predecessors best t.
Proof.
  induction order as [|t order IH] using rev_ind; intros Hnd Hresp Htasks.
  - exists ∅. split_and!; [done| |].
    + intros t. rewrite lookup_empty, elem_of_nil. split; [by intros [? ?] | done].
    + by intros t ?%elem_of_nil.
  - apply NoDup_app in Hnd as (Hnd & Hfresh & _).
    assert (t ∉ order) as Ht by (intros Hin; apply (Hfresh t Hin); by left).
    destruct IH as (best & Hrun & Hdom & Hok);
      [done | by eapply respects_prefix | intros; apply Htasks; set_solver |].
    assert (t ∈ tasks) as Ht_task by (apply Htasks; set_solver).
    destruct (proj1 (pred_dom t) Ht_task) as [ps Hps].
    destruct (dur_dom t Ht_task) as [d Hd].
    assert (preds t = ps) as Hpreds by by apply getlist_Some.
    assert (∀ p, p ∈ ps → p ∈ order) as Hps_order.
    { intros p Hp. apply (respects_last _ _ _ _ Hresp). by rewrite Hpreds. }
    assert (∀ x, x ∈ order → t ∉ preds x) as Hnot_pred.
    { intros x Hx Hin. apply Ht.
      apply list_elem_of_split in Hx as (l1 & l2 & ->).
      rewrite <- app_assoc in Hresp. simpl in Hresp.
      specialize (Hresp l1 x (l2 ++ [t]) eq_refl t Hin). set_solver. }
    assert (∀ v x, x ∈ order → best_ok duration predecessors best x →
                   best_ok duration predecessors (<[t := v]> best) x)
      as Hkeep.
    { intros v x Hx (dur & H1 & H2 & H3). exists dur.
      assert (t ≠ x) by (by intros ->).
      rewrite lookup_insert_ne by done. split_and!; [done..|].
      intros Hne. destruct (H3 Hne) as (prev & pd & pc & pp & Hfm & Hprev & Hx').
      exists prev, pd, pc, pp.
      assert (prev ≠ t).
      { intros ->. by apply (Hnot_pred x Hx), (first_max_elem _ _ _ Hfm). }
      rewrite lookup_insert_ne by done. split_and!; [|done..].
      eapply first_max_ext; [|done]. intros q Hq. symmetry.
      apply best_key_insert. intros ->. by apply (Hnot_pred x Hx). }
    destruct ps as [|p0 ps].
    + exists (<[t := (d, 1, [t])]> best). split_and!.
      * rewrite best_path_dp_app, Hrun. simpl.
        rewrite (subscript_lookup _ _ _ Hd). simpl.
        by rewrite (subscript_lookup _ _ _ Hps).
      * intros x. rewrite lookup_insert_is_Some, Hdom, elem_of_app,
          list_elem_of_singleton. destruct (decide (t = x)); naive_solver.
      * intros x [Hx| ->%list_elem_of_singleton]%elem_of_app; [by apply Hkeep, Hok|].
        exists d. rewrite lookup_insert_eq, Hpreds. done.
    + pose proof (max_by_first_max (best_key best) p0 ps) as Hfm.
      set (prev := max_by (best_key best) p0 ps) in Hfm.
      assert (prev ∈ order) as Hprev
        by (apply Hps_order; by eapply first_max_elem).
      destruct (proj2 (Hdom prev) Hprev) as [[[pd pc] pp] Hinfo].
      assert (get_info best prev = (pd, pc, pp)) as Hget
        by (unfold get_info; by rewrite Hinfo).
      exists (<[t := (pd + d, pc + 1, pp ++ [t])]> best). split_and!.
      * rewrite best_path_dp_app, Hrun. simpl.
        rewrite (subscript_lookup _ _ _ Hd). simpl.
        rewrite (subscript_lookup _ _ _ Hps). simpl.
        change (max_by (λ p, key2 (get_info best p)) p0 ps) with prev.
        by rewrite Hget.
      * intros x. rewrite lookup_insert_is_Some, Hdom, elem_of_app,
          list_elem_of_singleton. destruct (decide (t = x)); naive_solver.
      * intros x [Hx| ->%list_elem_of_singleton]%elem_of_app; [by apply Hkeep, Hok|].
        exists d. rewrite lookup_insert_eq, Hpreds.
        split_and!; [done..|]. intros _. exists prev, pd, pc, pp.
        assert (prev ≠ t) by (by intros ->).
        rewrite lookup_insert_ne by done. split_and!; [|done..].
        eapply first_max_ext; [|done]. intros q Hq. symmetry.
        apply best_key_insert. intros ->. by apply Ht, Hps_order.
Qed.

(** *** [max(EF.values())] and the slack table *)

Lemma max_values_Ok (EF : gmap string Z) pd :
  max_values EF = Ok pd →
  (∃ t, EF !! t = Some pd) ∧ ∀ t v, EF !! t = Some v → v ≤ pd.
Proof.
  unfold max_values. intros [Hin Hub]%py_max_Ok. split.
  - apply list_elem_of_fmap in Hin as ([t v] & -> & Hin).
    exists t. by apply elem_of_map_to_list.
  - intros t v Htv. apply Hub. apply list_elem_of_fmap. exists (t, v).
    split; [done|]. by apply elem_of_map_to_list.
Qed.

Lemma max_values_total (EF : gmap string Z) t :
  is_Some (EF !! t) → ∃ pd, max_values EF = Ok pd.
Proof.
  intros [v Hv]. unfold max_values.
  apply elem_of_map_to_list in Hv.
  destruct (map_to_list EF) as [|[k x] l]; [by apply elem_of_nil in Hv|].
  simpl. eauto.
Qed.

Lemma slack_table_total LS ES ts acc :
  (∀ t, t ∈ ts → is_Some (LS !! t) ∧ is_Some (ES !! t)) →
  ∃ sl, slack_table LS ES ts acc = Ok sl ∧
    (∀ t, t ∈ ts → ∃ ls es, LS !! t = Some ls ∧ ES !! t = Some es ∧
                             sl !! t = Some (ls - es)) ∧
    (∀ t, t ∉ ts → sl !! t = acc !! t).
Proof.
  revert acc. induction ts as [|t ts IH]; intros acc Hdom; simpl.
  - exists acc. split_and!; [done| |done]. by intros t ?%elem_of_nil.
  - destruct (Hdom t) as [[ls Hls] [es Hes]]; [by left|].
    rewrite (subscript_lookup _ _ _ Hls). simpl.
    rewrite (subscript_lookup _ _ _ Hes). simpl.
    destruct (IH (<[t := ls - es]> acc)) as (sl & -> & Hin & Hout);
      [intros; apply Hdom; by right|].
    exists sl. split_and!; [done| |].
    + intros x Hx. destruct (decide (x ∈ ts)) as [Hx'|Hx']; [by apply Hin|].
      apply elem_of_cons in Hx as [->|?]; [|done].
      exists ls, es. by rewrite Hout, lookup_insert_eq.
    + intros x Hx. rewrite Hout by set_solver.
      apply lookup_insert_ne. set_solver.
Qed.

Lemma slack_table_dom LS ES ts acc sl :
  slack_table LS ES ts acc = Ok sl → ∀ t, t ∈ ts → is_Some (ES !! t).
Proof.
  revert acc. induction ts as [|t ts IH]; intros acc Hrun x Hx;
    [by apply elem_of_nil in Hx|].
  simpl in Hrun. inv_bind Hrun.
  apply elem_of_cons in Hx as [->|Hx]; [|by eapply IH].
  match goal with H : subscript ES _ = Ok _ |- _ => apply subscript_Ok in H end.
  eauto.
Qed.
End passes.

(** ** Selecting among the terminal tasks *)

Lemma select_path_spec best ends bt cp :
  (select_path best ends bt cp = cp ∧
   ∀ e, e ∈ ends → ¬ lex_lt bt (best_key best e)) ∨
  (∃ e, first_max (best_key best) ends e ∧ lex_lt bt (best_key best e) ∧
        select_path best ends bt cp = (get_info best e).2).
Proof.
  revert bt cp. induction ends as [|t ends IH]; intros bt cp; simpl.
  - left. split; [done|]. by intros e ?%elem_of_nil.
  - assert (best_key best t = ((get_info best t).1.1, (get_info best t).1.2))
      as Hkey by done.
    destruct (get_info best t) as [[d c] path] eqn:Hinfo. simpl in Hkey.
    destruct (tuple_gt (d, c) bt) eqn:Hgt.
    + apply tuple_gt_lex in Hgt. right.
      destruct (IH (d, c) path) as [[Hsel Hall]|(e & Hfm & Hlt & Hsel)].
      * exists t. split_and!.
        -- exists [], ends. split_and!; [done|by intros ? ?%elem_of_nil|].
           intros q Hq. rewrite Hkey. by apply Hall.
        -- by rewrite Hkey.
        -- by rewrite Hsel, Hinfo.
      * exists e. destruct Hfm as (l1 & l2 & -> & Hl1 & Hl2). split_and!.
        -- exists (t :: l1), l2. split_and!; [done| |done].
           intros q [->|Hq]%elem_of_cons; [by rewrite Hkey | by apply Hl1].
        -- by eapply lex_lt_trans.
        -- done.
    + apply tuple_gt_not_lex in Hgt.
      destruct (IH bt cp) as [[Hsel Hall]|(e & Hfm & Hlt & Hsel)].
      * left. split; [done|].
        intros e [->|He]%elem_of_cons; [by rewrite Hkey | by apply Hall].
      * right. exists e. destruct Hfm as (l1 & l2 & -> & Hl1 & Hl2). split_and!.
        -- exists (t :: l1), l2. split_and!; [done| |done].
           intros q [->|Hq]%elem_of_cons; [|by apply Hl1].
           rewrite Hkey. by eapply lex_le_lt_trans.
        -- done.
        -- done.
Qed.

(** ** Reversing an order *)

Lemma respects_reverse (preds succs : string → list string) topo :
  NoDup topo → respects preds topo →
  (∀ s t, s ∈ succs t → t ∈ preds s ∧ s ∈ topo) →
  respects succs (reverse topo).
Proof.
  intros Hnd Hresp Hsucc l1 t l2 Hrev s Hs.
  destruct (Hsucc s t Hs) as [Hts Hin].
  assert (topo = reverse l2 ++ t :: reverse l1) as Htopo.
  { rewrite <- (reverse_involutive topo), Hrev, reverse_app, reverse_cons.
    by rewrite <- app_assoc. }
  rewrite <- elem_of_reverse in Hin. rewrite Hrev in Hin.
  apply elem_of_app in Hin as [?|[->|Hin]%elem_of_cons]; [done| |].
  - exfalso. specialize (Hresp _ _ _ Htopo t Hts).
    rewrite Htopo in Hnd. apply NoDup_app in Hnd as (_ & Hdisj & _).
    apply (Hdisj t Hresp). by left.
  - exfalso. apply list_elem_of_split in Hin as (k1 & k2 & ->).
    rewrite reverse_app, reverse_cons, <- !app_assoc in Htopo. simpl in Htopo.
    specialize (Hresp _ _ _ Htopo t Hts).
    rewrite Htopo in Hnd. apply NoDup_app in Hnd as (_ & Hdisj & _).
    apply (Hdisj t Hresp). set_solver.
Qed.

(** ** Walks and their durations *)

Section walks.
Variable E : relation string.
Variable dur : string → Z.

Lemma total_app l1 l2 : total dur (l1 ++ l2) = total dur l1 + total dur l2.
Proof. induction l1 as [|x l1 IH]; simpl; lia. Qed.

Lemma total_nonneg l : (∀ t, t ∈ l → 0 ≤ dur t) → 0 ≤ total dur l.
Proof.
  induction l as [|x l IH]; intros Hpos; simpl; [done|].
  assert (0 ≤ dur x) by (apply Hpos; by left).
  assert (0 ≤ total dur l) by (apply IH; intros; apply Hpos; by right). lia.
Qed.

Lemma walk_head a l b : walk E a l b → ∃ l', l = a :: l'.
Proof. destruct 1; eauto. Qed.

Lemma walk_last a l b : walk E a l b → last l = Some b.
Proof.
  induction 1 as [a|a s l b _ Hw IH]; [done|].
  destruct Hw; by rewrite last_cons_cons.
Qed.

Lemma walk_elem_last a l b : walk E a l b → b ∈ l.
Proof. induction 1; [by left | by right]. Qed.

Lemma walk_snoc a l b c : walk E a l b → E b c → walk E a (l ++ [c]) c.
Proof.
  induction 1 as [a|a s l b Has _ IH]; intros Hbc; simpl.
  - apply walk_step with c; [done | constructor].
  - apply walk_step with s; [done | by apply IH].
Qed.

Lemma walk_app a l1 b l2 c :
  walk E a l1 b → walk E b (b :: l2) c → walk E a (l1 ++ l2) c.
Proof.
  induction 1 as [a|a s l b Has _ IH]; intros Hbc; simpl; [done|].
  apply walk_step with s; [done | by apply IH].
Qed.

Lemma walk_split a l c x :
  walk E a l c → x ∈ l →
  ∃ l1 l2, l = l1 ++ x :: l2 ∧ walk E a (l1 ++ [x]) x ∧ walk E x (x :: l2) c.
Proof.
  induction 1 as [a|a s l b Has Hwalk IH]; intros Hx.
  - apply list_elem_of_singleton in Hx as ->.
    exists [], []. split_and!; [done|constructor..].
  - destruct (decide (x = a)) as [->|Hne].
    + exists [], l. split_and!; [done|constructor|by apply walk_step with s].
    + apply elem_of_cons in Hx as [?|Hx]; [done|].
      destruct (IH Hx) as (l1 & l2 & -> & H1 & H2).
      exists (a :: l1), l2. split_and!; [done| |done].
      simpl. by apply walk_step with s.
Qed.

End walks.

(** ** The schedule of a valid DAG, read through walks *)

Lemma tc_flip_inv {A} (R : relation A) x y : tc (flip R) x y → tc R y x.
Proof.
  induction 1 as [x y Hxy|x y z Hxy _ IH]; [by apply tc_once|].
  by eapply tc_r.
Qed.

Lemma nonempty_elem {A} (l : list A) : l ≠ [] → ∃ x, x ∈ l.
Proof. destruct l as [|x l]; [done|]. intros _. exists x. by left. Qed.

Section cpm_theory.
Variable tasks : list string.
Variable duration : gmap string Z.
Variable predecessors : gmap string (list string).
Variable successors : gmap string (list string).

Abbreviation preds t := (getlist predecessors t).
Abbreviation succs p := (getlist successors p).

Hypothesis tasks_nodup : NoDup tasks.
Hypothesis pred_dom : ∀ t, t ∈ tasks ↔ is_Some (predecessors !! t).
Hypothesis succ_occ : ∀ p s, occ s (succs p) = occ p (preds s).
Hypothesis preds_closed : ∀ p t, p ∈ preds t → p ∈ tasks.
Hypothesis preds_acyclic : ∀ t, ¬ tc (λ p t, p ∈ preds t) t t.

Variables ES EF LS LF : gmap string Z.
Variable pd : Z.
Variable best : gmap string info.

Hypothesis forward_eqs : ∀ t, t ∈ tasks → forward_ok duration predecessors ES EF t.
Hypothesis backward_eqs :
  ∀ t, t ∈ tasks → backward_ok duration successors pd LS LF t.
Hypothesis best_eqs : ∀ t, t ∈ tasks → best_ok duration predecessors best t.
Hypothesis pd_max : (∃ t, EF !! t = Some pd) ∧ ∀ t v, EF !! t = Some v → v ≤ pd.
Hypothesis EF_dom : ∀ t, is_Some (EF !! t) → t ∈ tasks.

Abbreviation E := (pred_edge predecessors).
Abbreviation dur := (value_of duration).
Abbreviation es := (value_of ES).
Abbreviation ef := (value_of EF).
Abbreviation ls := (value_of LS).
Abbreviation lf := (value_of LF).
Abbreviation is_root := (root tasks predecessors).
Abbreviation is_terminal := (terminal tasks successors).
Abbreviation is_full_path := (full_path tasks predecessors successors).
Abbreviation is_longest := (longest tasks duration predecessors successors).

Lemma E_succ p t : E p t ↔ t ∈ succs p.
Proof. unfold pred_edge. by rewrite <- !occ_pos, succ_occ. Qed.

Lemma E_tasks p t : E p t → p ∈ tasks ∧ t ∈ tasks.
Proof.
  intros Hpt. split; [by eapply preds_closed|].
  apply getlist_elem in Hpt as (l & Hl & _). apply pred_dom. eauto.
Qed.

Lemma walk_tasks a l b : walk E a l b → a ∈ tasks → ∀ x, x ∈ l → x ∈ tasks.
Proof.
  induction 1 as [a|a s l b Has _ IH]; intros Ha x Hx.
  - by apply list_elem_of_singleton in Hx as ->.
  - apply elem_of_cons in Hx as [->|Hx]; [done|].
    apply IH; [|done]. by apply E_tasks in Has as [_ ?].
Qed.

Lemma fw_lookup t :
  t ∈ tasks → ES !! t = Some (es t) ∧ EF !! t = Some (ef t) ∧ ef t = es t + dur t.
Proof.
  intros (e & d & H1 & H2 & H3 & _)%forward_eqs.
  unfold value_of. by rewrite H1, H2, H3.
Qed.

Lemma fw_root t : is_root t → es t = 0.
Proof.
  intros [(e & d & H1 & _ & _ & H4 & _)%forward_eqs Hnil].
  unfold value_of. rewrite H1. by apply H4.
Qed.

Lemma fw_edge p t : E p t → ef p ≤ es t.
Proof.
  intros Hpt. destruct (E_tasks _ _ Hpt) as [Hp Ht].
  destruct (forward_eqs t Ht) as (e & d & H1 & _ & _ & _ & H5).
  destruct H5 as [_ Hall]; [intros Hnil; unfold pred_edge in Hpt; rewrite Hnil in Hpt;
                            by apply elem_of_nil in Hpt|].
  destruct (Hall p Hpt) as (v & Hv & Hle). unfold value_of. by rewrite Hv, H1.
Qed.

Lemma fw_attained t :
  t ∈ tasks → preds t ≠ [] → ∃ p, E p t ∧ ef p = es t.
Proof.
  intros (e & d & H1 & _ & _ & _ & H5)%forward_eqs Hne.
  destruct (H5 Hne) as [(p & Hp & Hv) _]. exists p. split; [done|].
  unfold value_of. by rewrite Hv, H1.
Qed.

Lemma bw_lookup t :
  t ∈ tasks → LS !! t = Some (ls t) ∧ LF !! t = Some (lf t) ∧ ls t = lf t - dur t.
Proof.
  intros (l & d & H1 & H2 & H3 & _)%backward_eqs.
  unfold value_of. by rewrite H1, H2, H3.
Qed.

Lemma bw_terminal t : is_terminal t → lf t = pd.
Proof.
  intros [(l & d & H1 & _ & _ & H4 & _)%backward_eqs Hnil].
  unfold value_of. rewrite H1. by apply H4.
Qed.

Lemma bw_edge t s : E t s → lf t ≤ ls s.
Proof.
  intros Hts. destruct (E_tasks _ _ Hts) as [Ht Hs].
  apply E_succ in Hts.
  destruct (backward_eqs t Ht) as (l & d & H1 & _ & _ & _ & H5).
  destruct H5 as [_ Hall]; [intros Hnil; rewrite Hnil in Hts;
                            by apply elem_of_nil in Hts|].
  destruct (Hall s Hts) as (v & Hv & Hle). unfold value_of. by rewrite Hv, H1.
Qed.

Lemma bw_attained t :
  t ∈ tasks → succs t ≠ [] → ∃ s, E t s ∧ ls s = lf t.
Proof.
  intros (l & d & H1 & _ & _ & _ & H5)%backward_eqs Hne.
  destruct (H5 Hne) as [(s & Hs & Hv) _]. exists s. split; [by apply E_succ|].
  unfold value_of. by rewrite Hv, H1.
Qed.

(** Upper bounds along any walk. *)
Lemma walk_forward a l b :
  walk E a l b → a ∈ tasks → es a + total dur l ≤ ef b.
Proof.
  induction 1 as [a|a s l b Has _ IH]; intros Ha; simpl.
  - destruct (fw_lookup a Ha) as (_ & _ & ->). lia.
  - destruct (fw_lookup a Ha) as (_ & _ & Heq).
    pose proof (fw_edge _ _ Has). apply E_tasks in Has as [_ Hs].
    specialize (IH Hs). lia.
Qed.

Lemma walk_backward a l b :
  walk E a l b → a ∈ tasks → ls a + total dur l ≤ lf b.
Proof.
  induction 1 as [a|a s l b Has _ IH]; intros Ha; simpl.
  - destruct (bw_lookup a Ha) as (_ & _ & ->). lia.
  - destruct (bw_lookup a Ha) as (_ & _ & Heq).
    pose proof (bw_edge _ _ Has). apply E_tasks in Has as [_ Hs].
    specialize (IH Hs). lia.
Qed.

Lemma succs_wf : well_founded (λ s t, s ∈ succs t).
Proof.
  apply (finite_acyclic_wf tasks).
  - intros s t Hs%E_succ. by apply E_tasks in Hs as [_ ?].
  - intros t Htc. apply (preds_acyclic t).
    apply tc_flip_inv. eapply tc_congruence with (f := id); [|done].
    intros x y Hxy. by apply E_succ.
Qed.

(** The table entry of a task is a walk from a root that attains its
    earliest finish. *)
Lemma best_walk t :
  t ∈ tasks →
  ∃ d c path r, best !! t = Some (d, c, path) ∧ walk E r path t ∧ is_root r ∧
    total dur path = d ∧ ef t = d ∧ c = Z.of_nat (length path).
Proof.
  induction (preds_wf tasks predecessors preds_closed preds_acyclic t)
    as [t _ IH].
  intros Ht. destruct (best_eqs t Ht) as (d & Hd & Hroot & Hstep).
  destruct (fw_lookup t Ht) as (_ & _ & Hef).
  assert (dur t = d) as Hdur by (unfold value_of; by rewrite Hd).
  destruct (decide (preds t = [])) as [Hpreds|Hpreds].
  - exists d, 1, [t], t. split_and!; [by apply Hroot|constructor|done|simpl; lia| |done].
    rewrite Hef, fw_root by done. lia.
  - destruct Hstep as (prev & pd' & pc & pp & Hfm & Hprev & Hbest); [done|].
    assert (E prev t) as Hedge by (by eapply first_max_elem).
    destruct (IH prev Hedge) as (d1 & c1 & path1 & r & Hb1 & Hw & Hr & Htot & Hef1 & Hc1);
      [by apply E_tasks in Hedge as [? _]|].
    rewrite Hprev in Hb1. injection Hb1 as <- <- <-.
    exists (pd' + d), (pc + 1), (pp ++ [t]), r.
    split_and!; [done|by eapply walk_snoc|done| | |].
    + rewrite total_app. simpl. lia.
    + destruct (fw_attained t Ht) as (p & Hp & Hmax); [done|].
      pose proof (fw_edge _ _ Hedge) as Hle.
      destruct (IH p Hp) as (d2 & c2 & path2 & r2 & Hb2 & _ & _ & _ & Hef2 & _);
        [by apply E_tasks in Hp as [? _]|].
      assert (¬ lex_lt (best_key best prev) (best_key best p)) as Hge
        by (by eapply first_max_ge).
      unfold best_key, get_info, lex_lt in Hge. rewrite Hprev, Hb2 in Hge.
      simpl in Hge. lia.
    + rewrite length_app. simpl. lia.
Qed.

(** From every task a walk to a terminal attains [pd - LS]. *)
Lemma tail_walk t :
  t ∈ tasks → ∃ l e, walk E t l e ∧ is_terminal e ∧ ls t + total dur l = pd.
Proof.
  induction (succs_wf t) as [t _ IH]. intros Ht.
  destruct (bw_lookup t Ht) as (_ & _ & Hls).
  destruct (decide (succs t = [])) as [Hsuccs|Hsuccs].
  - exists [t], t. assert (is_terminal t) as Hterm by done.
    split_and!; [constructor|done|]. simpl. rewrite Hls, bw_terminal by done. lia.
  - destruct (bw_attained t Ht) as (s & Hs & Hmin); [done|].
    destruct (IH s) as (l & e & Hw & He & Htot);
      [by apply E_succ | by apply E_tasks in Hs as [_ ?]|].
    exists (t :: l), e. split_and!; [by apply walk_step with s|done|].
    simpl. lia.
Qed.

Lemma full_path_le_pd l : is_full_path l → total dur l ≤ pd.
Proof.
  intros (r & e & Hw & Hr & He).
  pose proof (walk_forward _ _ _ Hw (proj1 Hr)) as Hle.
  rewrite (fw_root r Hr) in Hle.
  destruct (fw_lookup e (proj1 He)) as (_ & Hef & _).
  apply pd_max in Hef. lia.
Qed.

Lemma full_path_through l t :
  is_full_path l → t ∈ l → total dur l ≤ pd - (ls t - es t).
Proof.
  intros (r & e & Hw & Hr & He) Ht.
  assert (t ∈ tasks) as Ht_task by (eapply walk_tasks; [done|apply Hr|done]).
  destruct (walk_split _ _ _ _ _ Hw Ht) as (l1 & l2 & -> & Hw1 & Hw2).
  pose proof (walk_forward _ _ _ Hw1 (proj1 Hr)) as H1.
  pose proof (walk_backward _ _ _ Hw2 Ht_task) as H2.
  rewrite (fw_root r Hr) in H1. rewrite (bw_terminal e He) in H2.
  destruct (fw_lookup t Ht_task) as (_ & _ & Hef).
  rewrite total_app in *. simpl in *. lia.
Qed.

Lemma through_attained t :
  t ∈ tasks →
  ∃ l, is_full_path l ∧ t ∈ l ∧ total dur l = pd - (ls t - es t).
Proof.
  intros Ht.
  destruct (best_walk t Ht) as (d & c & a & r & _ & Hwa & Hr & Htot & Hef & _).
  destruct (tail_walk t Ht) as (l & e & Hwl & He & Hls).
  destruct (walk_head _ _ _ _ Hwl) as [l2 ->].
  exists (a ++ l2). split_and!.
  - exists r, e. split_and!; [by eapply walk_app|done..].
  - apply elem_of_app. left. by eapply walk_elem_last.
  - destruct (fw_lookup t Ht) as (_ & _ & Heq).
    rewrite total_app. simpl in Hls. lia.
Qed.

Lemma slack_nonneg t : t ∈ tasks → 0 ≤ ls t - es t.
Proof.
  intros Ht. destruct (through_attained t Ht) as (l & Hl & _ & Htot).
  apply full_path_le_pd in Hl. lia.
Qed.

Lemma terminal_exists : tasks ≠ [] → ∃ e, is_terminal e.
Proof.
  intros [t Ht]%nonempty_elem.
  destruct (tail_walk t Ht) as (l & e & _ & He & _). eauto.
Qed.

Lemma elem_of_end_tasks e : e ∈ end_tasks tasks successors ↔ is_terminal e.
Proof.
  unfold end_tasks, terminal. rewrite list_elem_of_filter.
  destruct (succs e); simpl; naive_solver.
Qed.

(** From here on durations are non-negative. *)
Hypothesis dur_nonneg : ∀ t, 0 ≤ dur t.

Lemma pd_path : ∃ l, is_full_path l ∧ total dur l = pd.
Proof.
  destruct pd_max as [[t Ht] _].
  assert (t ∈ tasks) as Ht_task by (apply EF_dom; eauto).
  destruct (fw_lookup t Ht_task) as (_ & Hef & Heq).
  rewrite Ht in Hef. injection Hef as Hef.
  destruct (tail_walk t Ht_task) as (l & e & Hwl & He & Hls).
  destruct (walk_head _ _ _ _ Hwl) as [l2 ->]. simpl in Hls.
  assert (0 ≤ total dur l2) by (apply total_nonneg; auto).
  destruct (through_attained t Ht_task) as (l & Hl & _ & Htot).
  exists l. split; [done|]. pose proof (full_path_le_pd l Hl). lia.
Qed.

Lemma longest_total l : is_longest l → total dur l = pd.
Proof.
  intros [Hl Hmax]. destruct pd_path as (l' & Hl' & Htot).
  specialize (Hmax l' Hl'). pose proof (full_path_le_pd l Hl). lia.
Qed.

Lemma slack_zero_iff t :
  t ∈ tasks → ls t - es t = 0 ↔ ∃ l, is_longest l ∧ t ∈ l.
Proof.
  intros Ht. split.
  - intros Hz. destruct (through_attained t Ht) as (l & Hl & Hin & Htot).
    exists l. split; [|done]. split; [done|].
    intros l' Hl'%full_path_le_pd. lia.
  - intros (l & Hl & Hin). pose proof (longest_total l Hl) as Htot.
    pose proof (full_path_through l t (proj1 Hl) Hin).
    pose proof (slack_nonneg t Ht). lia.
Qed.

(** The selected path: the table entry of the first terminal whose key
    is maximal; it is a longest root-to-terminal path. *)
Lemma critical_path_spec :
  tasks ≠ [] →
  ∃ e d c,
    first_max (best_key best) (end_tasks tasks successors) e ∧
    best !! e = Some (d, c, select_path best (end_tasks tasks successors) (0, 0) []) ∧
    is_longest (select_path best (end_tasks tasks successors) (0, 0) []) ∧
    total dur (select_path best (end_tasks tasks successors) (0, 0) []) = pd.
Proof.
  intros Hne.
  destruct (select_path_spec best (end_tasks tasks successors) (0, 0) [])
    as [[_ Hall]|(e & Hfm & Hlt & ->)].
  - exfalso. destruct (terminal_exists Hne) as [e He].
    destruct (best_walk e (proj1 He))
      as (d & c & path & r & Hb & Hw & Hr & Htot & _ & Hc).
    apply (Hall e); [by apply elem_of_end_tasks|].
    unfold best_key, get_info, lex_lt. rewrite Hb. simpl.
    assert (0 ≤ total dur path) by (apply total_nonneg; auto).
    destruct (walk_head _ _ _ _ Hw) as [l' ->]. simpl in Hc. lia.
  - assert (is_terminal e) as He
      by (by eapply elem_of_end_tasks, first_max_elem).
    destruct (best_walk e (proj1 He))
      as (d & c & path & r & Hb & Hw & Hr & Htot & Hef & Hc).
    assert (get_info best e = (d, c, path)) as Hget
      by (unfold get_info; by rewrite Hb).
    rewrite Hget. simpl.
    assert (is_longest path) as Hlong.
    { split; [by exists r, e|].
      intros l' (r' & e' & Hw' & Hr' & He').
      pose proof (walk_forward _ _ _ Hw' (proj1 Hr')) as Hle.
      rewrite (fw_root r' Hr') in Hle.
      destruct (best_walk e' (proj1 He'))
        as (d' & c' & path' & _ & Hb' & _ & _ & _ & Hef' & _).
      assert (¬ lex_lt (best_key best e) (best_key best e')) as Hge
        by (eapply first_max_ge; [done | by apply elem_of_end_tasks]).
      unfold best_key, get_info, lex_lt in Hge. rewrite Hb, Hb' in Hge.
      simpl in Hge. lia. }
    exists e, d, c. split_and!; [done..|]. by apply longest_total.
Qed.
End cpm_theory.

(** ** Only the queue loop can run out of fuel *)

Lemma subscripts_not_OutOfFuel {V} (d : gmap string V) ks : subscripts d ks ≠ OutOfFuel.
Proof.
  induction ks as [|k ks IH]; simpl; [done|].
  apply bind_not_OutOfFuel; [apply subscript_not_OutOfFuel|]. intros v _.
  apply bind_not_OutOfFuel; [done|]. done.
Qed.

Lemma earliest_start_not_OutOfFuel EF ps : earliest_start EF ps ≠ OutOfFuel.
Proof.
  destruct ps as [|p ps]; [done|]. unfold earliest_start.
  apply bind_not_OutOfFuel; [apply subscripts_not_OutOfFuel|]. by intros [|? ?] _.
Qed.

Lemma latest_finish_not_OutOfFuel pd LS ss : latest_finish pd LS ss ≠ OutOfFuel.
Proof.
  destruct ss as [|s ss]; [done|]. unfold latest_finish.
  apply bind_not_OutOfFuel; [apply subscripts_not_OutOfFuel|]. by intros [|? ?] _.
Qed.

Lemma forward_pass_not_OutOfFuel duration predecessors order ES EF :
  forward_pass duration predecessors order ES EF ≠ OutOfFuel.
Proof.
  revert ES EF. induction order as [|t order IH]; intros ES EF; simpl; [done|].
  apply bind_not_OutOfFuel; [apply subscript_not_OutOfFuel|]. intros ps _.
  apply bind_not_OutOfFuel; [apply earliest_start_not_OutOfFuel|]. intros es _.
  apply bind_not_OutOfFuel; [apply subscript_not_OutOfFuel|]. intros d _. apply IH.
Qed.

Lemma backward_pass_not_OutOfFuel duration successors pd order LS LF :
  backward_pass duration successors pd order LS LF ≠ OutOfFuel.
Proof.
  revert LS LF. induction order as [|t order IH]; intros LS LF; simpl; [done|].
  apply bind_not_OutOfFuel; [apply latest_finish_not_OutOfFuel|]. intros lf _.
  apply bind_not_OutOfFuel; [apply subscript_not_OutOfFuel|]. intros d _. apply IH.
Qed.

Lemma slack_table_not_OutOfFuel LS ES ts acc : slack_table LS ES ts acc ≠ OutOfFuel.
Proof.
  revert acc. induction ts as [|t ts IH]; intros acc; simpl; [done|].
  apply bind_not_OutOfFuel; [apply subscript_not_OutOfFuel|]. intros ls _.
  apply bind_not_OutOfFuel; [apply subscript_not_OutOfFuel|]. intros es _. apply IH.
Qed.

Lemma best_path_dp_not_OutOfFuel duration predecessors order best :
  best_path_dp duration predecessors order best ≠ OutOfFuel.
Proof.
  revert best. induction order as [|t order IH]; intros best; simpl; [done|].
  apply bind_not_OutOfFuel; [apply subscript_not_OutOfFuel|]. intros d _.
  apply bind_not_OutOfFuel; [apply subscript_not_OutOfFuel|]. intros [|p0 ps] _.
  - apply IH.
  - destruct (get_info best _) as [[? ?] ?]. apply IH.
Qed.

Lemma max_values_not_OutOfFuel EF : max_values EF ≠ OutOfFuel.
Proof. unfold max_values. by destruct ((map_to_list EF).*2). Qed.

(** The whole computation ends, on every list of rows. *)
Lemma compute_cpm_terminates rows : compute_cpm_and_export_pdf rows ≠ OutOfFuel.
Proof.
  unfold compute_cpm_and_export_pdf, run_stages.
  destruct (topo_sort_total (tasks_of rows) (predecessors_of rows)
              (successors_of rows)) as [topo ->].
  { intros t. apply predecessors_of_is_Some. }
  { apply successors_of_task. }
  simpl.
  apply bind_not_OutOfFuel; [apply forward_pass_not_OutOfFuel|]. intros [ES EF] _.
  apply bind_not_OutOfFuel; [apply max_values_not_OutOfFuel|]. intros pd _.
  apply bind_not_OutOfFuel; [apply backward_pass_not_OutOfFuel|]. intros [LS LF] _.
  apply bind_not_OutOfFuel; [apply slack_table_not_OutOfFuel|]. intros sl _.
  apply bind_not_OutOfFuel; [apply best_path_dp_not_OutOfFuel|]. done.
Qed.

(** ** What a completed forward pass says about the graph *)

Lemma tc_last_step {A} (R : relation A) x z : tc R x z → ∃ y, rtc R x y ∧ R y z.
Proof.
  induction 1 as [x z Hxz|x y z Hxy _ (w & Hyw & Hwz)].
  - exists x. split; [constructor | done].
  - exists w. split; [by eapply rtc_l | done].
Qed.

Lemma Acc_no_cycle {A} (R : relation A) x : Acc R x → ¬ tc R x x.
Proof.
  induction 1 as [x _ IH]. intros (y & Hxy & Hyx)%tc_last_step.
  apply (IH y Hyx). by eapply tc_rtc_r; [apply tc_once|].
Qed.

Section forward_sound.
Variable duration : gmap string Z.
Variable predecessors : gmap string (list string).

Abbreviation preds t := (getlist predecessors t).

Lemma forward_pass_sound order ES EF ES' EF' :
  forward_pass duration predecessors order ES EF = Ok (ES', EF') →
  finished_ok predecessors EF → (∀ t, is_Some (ES !! t) → is_Some (EF !! t)) →
  finished_ok predecessors EF' ∧ (∀ t, is_Some (ES' !! t) → is_Some (EF' !! t)).
Proof.
  revert ES EF. induction order as [|t order IH]; intros ES EF Hrun Hok Hdom;
    simpl in Hrun.
  - by simplify_eq.
  - apply bind_Ok in Hrun as (ps & Hps%subscript_Ok & Hrun).
    apply bind_Ok in Hrun as (es & Hes & Hrun).
    apply bind_Ok in Hrun as (d & _ & Hrun).
    apply (IH _ _ Hrun).
    + assert (preds t = ps) as Hpreds by by apply getlist_Some.
      assert (∀ p, p ∈ ps → is_Some (EF !! p)) as Hps_done.
      { intros p Hp. apply earliest_start_Ok in Hes as [_ Hmax].
        destruct Hmax as [_ Hall]; [by intros ->; apply elem_of_nil in Hp|].
        destruct (Hall p Hp) as (v & Hv & _). eauto. }
      intros x Hx. rewrite lookup_insert_is_Some in Hx.
      assert (∀ p, is_Some (EF !! p) → is_Some (<[t := es + d]> EF !! p)) as Hmono.
      { intros p Hp. rewrite lookup_insert_is_Some.
        destruct (decide (t = p)); [by left | by right]. }
      destruct (decide (t = x)) as [<-|Hne].
      * split_and!; [eauto| |].
        -- constructor. intros p Hp. rewrite Hpreds in Hp.
           by apply Hok, Hps_done.
        -- intros p Hp. rewrite Hpreds in Hp. by apply Hmono, Hps_done.
      * destruct Hx as [?|[_ Hx]]; [done|].
        destruct (Hok x Hx) as (H1 & H2 & H3). split_and!; [done..|].
        intros p Hp. by apply Hmono, H3.
    + intros x. rewrite !lookup_insert_is_Some.
      intros [?|[? ?]]; [by left | right; split; [done | by apply Hdom]].
Qed.
End forward_sound.

(** A schedule is only ever returned for a closed acyclic graph. *)
Lemma compute_cpm_Ok_wellformed rows s :
  compute_cpm_and_export_pdf rows = Ok s → closed rows ∧ acyclic rows.
Proof.
  unfold compute_cpm_and_export_pdf, run_stages. intros Hrun.
  apply bind_Ok in Hrun as (topo & _ & Hrun).
  apply bind_Ok in Hrun as ([ES EF] & Hfw & Hrun).
  apply bind_Ok in Hrun as (pd & _ & Hrun).
  apply bind_Ok in Hrun as ([LS LF] & _ & Hrun).
  apply bind_Ok in Hrun as (sl & Hsl & _).
  destruct (forward_pass_sound _ _ _ _ _ _ _ Hfw) as [Hok Hdom].
  { intros t. rewrite lookup_empty. by intros [? ?]. }
  { intros t. rewrite lookup_empty. by intros [? ?]. }
  assert (∀ t, t ∈ tasks_of rows → is_Some (EF !! t)) as Hall
    by (intros t Ht; eapply Hdom, slack_table_dom; done).
  split.
  - intros p t Hpt. pose proof (edge_task _ _ _ Hpt) as Ht.
    destruct (Hok t (Hall t Ht)) as (_ & _ & Hpreds).
    apply predecessors_of_is_Some. by apply Hok, Hpreds.
  - intros t Htc.
    assert (t ∈ tasks_of rows) as Ht.
    { apply tc_last_step in Htc as (y & _ & Hyt). by eapply edge_task. }
    destruct (Hok t (Hall t Ht)) as (_ & Hacc & _).
    by apply (Acc_no_cycle _ _ Hacc).
Qed.

(** ** The schedule computed for a valid DAG *)

Section valid_rows.
Variable rows : list row.
Hypothesis rows_valid : valid_dag rows.

Lemma valid_nodup : NoDup (tasks_of rows).
Proof. apply rows_valid. Qed.

Lemma valid_pred_dom t : t ∈ tasks_of rows ↔ is_Some (predecessors_of rows !! t).
Proof. symmetry. apply predecessors_of_is_Some. Qed.

Lemma valid_dur_dom t : t ∈ tasks_of rows → is_Some (duration_of rows !! t).
Proof. apply duration_of_is_Some. Qed.

Lemma valid_succ_occ p s :
  occ s (getlist (successors_of rows) p) = occ p (getlist (predecessors_of rows) s).
Proof. apply successors_of_occ, valid_nodup. Qed.

Lemma valid_closed p t : p ∈ getlist (predecessors_of rows) t → p ∈ tasks_of rows.
Proof. destruct rows_valid as (_ & Hclosed & _). apply Hclosed. Qed.

Lemma valid_acyclic t : ¬ tc (λ p t, p ∈ getlist (predecessors_of rows) t) t t.
Proof. destruct rows_valid as (_ & _ & Hacyclic). apply Hacyclic. Qed.

Lemma valid_topo_order :
  ∃ topo, topo_order_of rows = Ok topo ∧ NoDup topo ∧
    (∀ t, t ∈ topo ↔ t ∈ tasks_of rows) ∧ respects (preds_of rows) topo.
Proof.
  exact (topo_sort_complete (tasks_of rows) (predecessors_of rows)
           (successors_of rows) valid_nodup valid_pred_dom valid_succ_occ
           valid_closed valid_acyclic).
Qed.

Lemma compute_cpm_valid :
  rows ≠ [] → ∃ s, compute_cpm_and_export_pdf rows = Ok s ∧ schedule_ok rows s.
Proof.
  intros Hne.
  destruct valid_topo_order as (topo & Htopo & Hnd & Helem & Hresp).
  assert (∀ t, t ∈ topo → t ∈ tasks_of rows) as Hsub by (intros; by apply Helem).
  destruct (forward_pass_spec (tasks_of rows) (duration_of rows)
              (predecessors_of rows) valid_pred_dom valid_dur_dom topo)
    as (ES & EF & Hfw & HES & HEF & Hfw_ok); [done..|].
  destruct (nonempty_elem (tasks_of rows)) as [t0 Ht0];
    [by destruct rows|].
  destruct (max_values_total EF t0) as [pd Hpd]; [by apply HEF, Helem|].
  destruct (backward_pass_spec (tasks_of rows) (duration_of rows)
              (predecessors_of rows) (successors_of rows) valid_pred_dom
              valid_dur_dom pd (reverse topo))
    as (LS & LF & Hbw & HLS & HLF & Hbw_ok).
  { by rewrite reverse_Permutation. }
  { apply (respects_reverse (preds_of rows)); [done..|].
    intros s t Hs. simpl in Hs. split.
    - apply occ_pos. unfold preds_of. rewrite <- valid_succ_occ. by apply occ_pos.
    - apply Helem. by eapply successors_of_task. }
  { intros t Ht. apply Hsub. by apply elem_of_reverse. }
  destruct (slack_table_total (tasks_of rows) (duration_of rows)
              (predecessors_of rows) valid_pred_dom valid_dur_dom
              LS ES (tasks_of rows) ∅) as (sl & Hsl & Hsl_ok & _).
  { intros t Ht. split; [apply HLS, elem_of_reverse | apply HES]; by apply Helem. }
  destruct (best_path_dp_spec (tasks_of rows) (duration_of rows)
              (predecessors_of rows) valid_pred_dom valid_dur_dom topo)
    as (best & Hbest & Hbest_dom & Hbest_ok); [done..|].
  eexists. split.
  - unfold compute_cpm_and_export_pdf, run_stages. unfold topo_order_of in Htopo.
    rewrite Htopo. simpl. rewrite Hfw. simpl. rewrite Hpd. simpl.
    rewrite Hbw. simpl. rewrite Hsl. simpl. rewrite Hbest. simpl. done.
  - split; simpl; try done.
    + intros t Ht. by apply Hfw_ok, Helem.
    + intros t Ht. by apply Hsub, HEF.
    + by apply max_values_Ok.
    + intros t Ht. by apply Hbw_ok, elem_of_reverse, Helem.
    + intros t Ht. by apply Hbest_ok, Helem.
Qed.
End valid_rows.

Lemma kahn_visit_deterministic ss deg q deg1 q1 deg2 q2 :
  kahn_visit ss deg q deg1 q1 → kahn_visit ss deg q deg2 q2 →
  deg1 = deg2 ∧ q1 = q2.
Proof.
  intros H1. revert deg2 q2.
  induction H1 as [deg q|s ss deg q d deg1 q1 Hd Hz _ IH|s ss deg q d deg1 q1 Hd Hz _ IH];
    intros deg2 q2 H2; inversion H2; simplify_eq; try done; by apply IH.
Qed.

Lemma kahn_run_deterministic succ deg q topo out1 out2 :
  kahn_run succ deg q topo out1 → kahn_run succ deg q topo out2 → out1 = out2.
Proof.
  intros H1. revert out2.
  induction H1 as [deg topo|deg node q topo deg1 q1 out1 Hv _ IH];
    intros out2 H2; inversion H2 as [|? ? ? ? deg2 q2 ? Hv2 Hrun2]; simplify_eq;
    [done|].
  destruct (kahn_visit_deterministic _ _ _ _ _ _ _ Hv Hv2) as [-> ->].
  by apply IH.
Qed.

Lemma relax_visit ss deg q deg' q' :
  relax ss deg q = Ok (deg', q') → kahn_visit ss deg q deg' q'.
Proof.
  revert deg q. induction ss as [|s ss IH]; intros deg q Hrun; simpl in Hrun.
  - simplify_eq. constructor.
  - apply bind_Ok in Hrun as (d & Hd%subscript_Ok & Hrun).
    destruct (Z.eqb_spec (d - 1) 0) as [Hz|Hz].
    + eapply visit_ready; [done..|]. rewrite <- Hz. by apply IH.
    + eapply visit_wait; [done..|]. by apply IH.
Qed.

Lemma kahn_loop_run successors succ fuel deg q topo out :
  (∀ p, succ p = getlist successors p) →
  kahn_loop successors fuel deg q topo = Ok out → kahn_run succ deg q topo out.
Proof.
  intros Hsucc. revert deg q topo.
  induction fuel as [|fuel IH]; intros deg q topo Hrun.
  - destruct q; simpl in Hrun; [|done]. simplify_eq. constructor.
  - destruct q as [|node q]; simpl in Hrun; [simplify_eq; constructor|].
    apply bind_Ok in Hrun as ([deg' q'] & Hrelax & Hrun).
    eapply run_dequeue; [|by apply IH]. rewrite Hsucc. by apply relax_visit.
Qed.

Lemma declared_in_degree_lookup rows t :
  NoDup (tasks_of rows) →
  declared_in_degree rows !! t =
  if decide (t ∈ tasks_of rows)
  then Some (Z.of_nat (length (getlist (predecessors_of rows) t)))
  else None.
Proof.
  intros Hnd. unfold declared_in_degree.
  assert (((λ r, (Task r, Z.of_nat (length (Predecessors r)))) <$> rows).*1
          = tasks_of rows) as Hfst.
  { unfold tasks_of. rewrite <- list_fmap_compose. done. }
  case_decide as Ht.
  - apply elem_of_tasks_of in Ht as (r & Hr & <-).
    rewrite (getlist_Some _ _ _ (predecessors_of_lookup _ _ Hnd Hr)).
    apply elem_of_list_to_map; [by rewrite Hfst|].
    apply list_elem_of_fmap. eauto.
  - apply not_elem_of_list_to_map. by rewrite Hfst.
Qed.

Lemma topo_order_kahn rows topo :
  NoDup (tasks_of rows) → topo_order_of rows = Ok topo → kahn_order rows topo.
Proof.
  intros Hnd Hrun. unfold topo_order_of, topo_sort in Hrun.
  apply bind_Ok in Hrun as (deg & Hdeg & Hrun).
  apply bind_Ok in Hrun as (q & Hq & Hrun).
  destruct (in_degree_init_Ok (predecessors_of rows) (tasks_of rows) ∅)
    as (deg0 & Hdeg0 & Hlook); [intros t; apply predecessors_of_is_Some|].
  rewrite Hdeg in Hdeg0. injection Hdeg0 as <-.
  assert (deg = declared_in_degree rows) as ->.
  { apply map_eq. intros t. rewrite Hlook, declared_in_degree_lookup by done.
    by case_decide. }
  rewrite queue_init_Ok in Hq.
  2:{ intros t Ht. rewrite declared_in_degree_lookup, decide_True by done. eauto. }
  injection Hq as <-.
  eapply kahn_loop_run; [|done]. intros p. symmetry. apply successors_of_declared.
Qed.

(** ** Checking that concrete rows form a valid DAG *)

Lemma valid_dag_check rows :
  NoDup (tasks_of rows) → declared_in_order rows → valid_dag rows.
Proof.
  intros Hnd Hord.
  assert (∀ p t, edge rows p t →
            p ∈ tasks_of rows ∧
            (position p (tasks_of rows) < position t (tasks_of rows))%nat) as Hedge.
  { intros p t (r & Hr & <- & Hp)%edge_declared; [|done].
    unfold declared_in_order in Hord. rewrite Forall_forall in Hord.
    specialize (Hord r Hr). rewrite Forall_forall in Hord. by apply Hord. }
  split_and!; [done| |].
  - intros p t Hpt. by apply Hedge in Hpt as [? _].
  - intros t Htc.
    assert (∀ x y, tc (edge rows) x y →
              (position x (tasks_of rows) < position y (tasks_of rows))%nat) as Hlt.
    { induction 1 as [x y Hxy|x y z Hxy _ IH].
      - by apply Hedge in Hxy as [_ ?].
      - apply Hedge in Hxy as [_ ?]. lia. }
    specialize (Hlt t t Htc). lia.
Qed.

(** ** Longest paths of a valid DAG and its schedule *)

Lemma longest_path_unfold rows l :
  longest_path rows l ↔
  root_to_terminal rows l ∧
  ∀ l', root_to_terminal rows l' →
        total (value_of (duration_of rows)) l' ≤ total (value_of (duration_of rows)) l.
Proof. done. Qed.

Lemma sum_durations_total duration l :
  (∀ t, t ∈ l → is_Some (duration !! t)) →
  sum_durations duration l = Ok (total (value_of duration) l).
Proof.
  unfold sum_durations. induction l as [|t l IH]; intros Hdom; simpl; [done|].
  destruct (Hdom t) as [d Hd]; [by left|].
  rewrite (subscript_lookup _ _ _ Hd). simpl.
  specialize (IH ltac:(intros; apply Hdom; by right)).
  destruct (subscripts duration l) as [vs| |]; simpl in *; [|done..].
  injection IH as IH. unfold value_of at 1. rewrite Hd. simpl. by rewrite IH.
Qed.

Lemma duration_of_row rows t d :
  duration_of rows !! t = Some d → ∃ r, r ∈ rows ∧ Task r = t ∧ Duration r = d.
Proof.
  induction rows as [|r rows IH] using rev_ind; [done|].
  rewrite duration_of_snoc. destruct (decide (Task r = t)) as [<-|Hne].
  - rewrite lookup_insert_eq. intros [= <-]. exists r. set_solver.
  - rewrite lookup_insert_ne by done. intros (r' & ? & ?)%IH. exists r'. set_solver.
Qed.

Lemma nonneg_dur rows t : nonneg_durations rows → 0 ≤ value_of (duration_of rows) t.
Proof.
  intros Hpos. unfold value_of.
  destruct (duration_of rows !! t) as [d|] eqn:Hd; simpl; [|done].
  apply duration_of_row in Hd as (r & Hr & _ & <-). by apply Hpos.
Qed.

Section schedule_facts.
Variable rows : list row.
Variable s : schedule.
Hypothesis rows_valid : valid_dag rows.
Hypothesis s_ok : schedule_ok rows s.

Lemma sched_slack t :
  t ∈ tasks_of rows → slack s !! t = Some (value_of (LS s) t - value_of (ES s) t).
Proof.
  intros (l & e & Hl & He & ->)%(ok_slack rows s s_ok).
  unfold value_of. by rewrite Hl, He.
Qed.

Lemma sched_slack_nonneg t :
  t ∈ tasks_of rows → 0 ≤ value_of (LS s) t - value_of (ES s) t.
Proof.
  apply (slack_nonneg (tasks_of rows) (duration_of rows) (predecessors_of rows)
           (successors_of rows) (valid_pred_dom rows)
           (valid_succ_occ rows rows_valid) (valid_closed rows rows_valid)
           (valid_acyclic rows rows_valid) (ES s) (EF s) (LS s) (LF s)
           (project_duration s) (best_info s) (ok_forward rows s s_ok)
           (ok_backward rows s s_ok) (ok_best rows s s_ok) (ok_pd rows s s_ok)).
Qed.



Lemma sched_best_last t d c path :
  t ∈ tasks_of rows → best_info s !! t = Some (d, c, path) → last path = Some t.
Proof.
  intros Ht Hbest.
  destruct (best_walk (tasks_of rows) (duration_of rows) (predecessors_of rows)
              (valid_pred_dom rows) (valid_closed rows rows_valid)
              (valid_acyclic rows rows_valid) (ES s) (EF s) (best_info s)
              (ok_forward rows s s_ok) (ok_best rows s s_ok) t Ht)
    as (d' & c' & path' & r & Hb & Hw & _).
  rewrite Hbest in Hb. injection Hb as <- <- <-. by eapply walk_last.
Qed.

Hypothesis rows_nonneg : nonneg_durations rows.

Lemma sched_slack_zero t :
  t ∈ tasks_of rows →
  value_of (LS s) t - value_of (ES s) t = 0 ↔ ∃ l, longest_path rows l ∧ t ∈ l.
Proof.
  apply (slack_zero_iff (tasks_of rows) (duration_of rows) (predecessors_of rows)
           (successors_of rows) (valid_pred_dom rows)
           (valid_succ_occ rows rows_valid) (valid_closed rows rows_valid)
           (valid_acyclic rows rows_valid) (ES s) (EF s) (LS s) (LF s)
           (project_duration s) (best_info s) (ok_forward rows s s_ok)
           (ok_backward rows s s_ok) (ok_best rows s s_ok) (ok_pd rows s s_ok)
           (ok_EF_dom rows s s_ok) (λ t, nonneg_dur rows t rows_nonneg)).
Qed.

Lemma sched_critical :
  rows ≠ [] →
  ∃ e d c,
    first_max (best_key (best_info s)) (terminals_of rows) e ∧
    best_info s !! e = Some (d, c, critical_path s) ∧
    longest_path rows (critical_path s) ∧
    total (value_of (duration_of rows)) (critical_path s) = project_duration s.
Proof.
  intros Hne. rewrite (ok_critical rows s s_ok).
  apply (critical_path_spec (tasks_of rows) (duration_of rows)
           (predecessors_of rows) (successors_of rows) (valid_pred_dom rows)
           (valid_succ_occ rows rows_valid) (valid_closed rows rows_valid)
           (valid_acyclic rows rows_valid) (ES s) (EF s) (LS s) (LF s)
           (project_duration s) (best_info s) (ok_forward rows s s_ok)
           (ok_backward rows s s_ok) (ok_best rows s s_ok) (ok_pd rows s s_ok)
           (ok_EF_dom rows s s_ok) (λ t, nonneg_dur rows t rows_nonneg)).
  by destruct rows.
Qed.

Lemma longest_path_tasks l t : longest_path rows l → t ∈ l → t ∈ tasks_of rows.
Proof.
  intros [(r & e & Hw & [Hr _] & _) _] Ht.
  eapply (walk_tasks (tasks_of rows) (predecessors_of rows)); try done.
  - apply valid_pred_dom.
  - by apply valid_closed.
Qed.
End schedule_facts.

(** ** Evaluating the concrete inputs *)

Ltac by_computation := apply (bool_decide_unpack _); vm_compute; exact I.

Ltac check_valid_dag :=
  apply valid_dag_check; [|unfold declared_in_order]; by_computation.

Ltac check_nonneg :=
  let r := fresh "r" in let Hr := fresh "Hr" in
  intros r Hr;
  repeat (apply elem_of_cons in Hr as [->|Hr]; [simpl; lia|]);
  by apply elem_of_nil in Hr.

Example scenario_A_result :
  ∃ sl, summary (compute_cpm_and_export_pdf scenario_A)
        = Some (8, ["A"; "C"; "D"], sl) ∧
        ("B", 2) ∈ sl.
Proof. eexists. split; [vm_compute; reflexivity|]. set_solver. Qed.

Example scenario_B_result :
  summary (compute_cpm_and_export_pdf [Row "T" 5 []]) = Some (5, ["T"], [("T", 0)]).
Proof. vm_compute. reflexivity. Qed.

Example scenario_D_result : compute_cpm_and_export_pdf rows_cycle = Raise ValueError.
Proof. vm_compute. reflexivity. Qed.

(** ** Properties of the scheduler *)

Lemma lex_total a b : ¬ lex_lt a b → a ≠ b → lex_lt b a.
Proof.
  destruct a as [a1 a2], b as [b1 b2]. unfold lex_lt. simpl. intros Hnlt Hne.
  destruct (decide (a1 = b1)) as [->|?]; [|lia].
  destruct (decide (a2 = b2)) as [->|?]; [done | lia].
Qed.

Lemma first_max_intro key l l1 p l2 :
  l = l1 ++ p :: l2 →
  (∀ q, q ∈ l → ¬ lex_lt (key p) (key q)) →
  (∀ q, q ∈ l1 → key q ≠ key p) →
  first_max key l p.
Proof.
  intros -> Hmax Hfirst. exists l1, l2. split_and!; [done| |].
  - intros q Hq. apply lex_total; [apply Hmax; set_solver | by apply not_eq_sym, Hfirst].
  - intros q Hq. apply Hmax. set_solver.
Qed.

(** C1 as stated does not hold: on a graph with a dangling predecessor
    the sort returns normally with a shortened order, the forward pass
    runs to completion on it, and the failure is the [KeyError] of a
    subscript in the backward pass. *)
Lemma C1_malformed_graph_not_rejected :
  malformed rows_dangling ∧
  ¬ rejected_before_passes rows_dangling ∧
  topo_order_of rows_dangling = Ok ["A"] ∧
  (∃ ES EF,
     forward_pass (duration_of rows_dangling) (predecessors_of rows_dangling)
       ["A"] ∅ ∅ = Ok (ES, EF)) ∧
  compute_cpm_and_export_pdf rows_dangling = Raise (KeyError "B").
Proof.
  assert (topo_order_of rows_dangling = Ok ["A"]) as Htopo
    by (vm_compute; reflexivity).
  split_and!.
  - right. exists "X", "B". unfold edge. split; by_computation.
  - intros [e He]. by rewrite Htopo in He.
  - done.
  - eexists _, _. vm_compute. reflexivity.
  - vm_compute. reflexivity.
Qed.

(** C1 (amended): on every input whose graph has a cycle or a dangling
    predecessor the topological sort completes without an error, and the
    computation then fails in a later stage with a Python exception
    ([KeyError] or [ValueError]); no schedule is returned. *)
Theorem C1_malformed_graph_raises rows :
  malformed rows →
  (∃ topo, topo_order_of rows = Ok topo) ∧
  ∃ e, compute_cpm_and_export_pdf rows = Raise e.
Proof.
  intros Hbad. split.
  - apply topo_sort_total; [|apply successors_of_task].
    intros t. apply predecessors_of_is_Some.
  - destruct (compute_cpm_and_export_pdf rows) as [s|e|] eqn:Hrun; [|by eauto|].
    + exfalso. apply compute_cpm_Ok_wellformed in Hrun as [Hclosed Hacyclic].
      destruct Hbad as [[t Ht]|(p & t & Hpt & Hp)].
      * by apply (Hacyclic t).
      * by apply Hp, (Hclosed p t).
    + by apply compute_cpm_terminates in Hrun.
Qed.

Lemma C1_malformed_graph_raises_witness :
  malformed rows_cycle ∧
  (∃ topo, topo_order_of rows_cycle = Ok topo) ∧
  ∃ e, compute_cpm_and_export_pdf rows_cycle = Raise e.
Proof.
  assert (malformed rows_cycle) as Hbad.
  { left. exists "A". apply tc_l with "B"; [|apply tc_once]; unfold edge;
      by_computation. }
  split; [exact Hbad|]. exact (C1_malformed_graph_raises rows_cycle Hbad).
Defined.

(** C3: on a valid DAG the sort returns an order as long as the task list
    in which every predecessor stands before its dependents, and this
    order is the one Kahn's algorithm yields with a FIFO queue seeded in
    declaration order and successors swept in first-seen order. *)
Theorem C3_topological_order rows :
  valid_dag rows →
  ∃ topo, topo_order_of rows = Ok topo ∧
    length topo = length (tasks_of rows) ∧
    (∀ p t, edge rows p t → before topo p t) ∧
    kahn_order rows topo.
Proof.
  intros Hvalid.
  destruct (valid_topo_order rows Hvalid) as (topo & Hrun & Hnd & Helem & Hresp).
  exists topo. split_and!; [done| | |].
  - apply Permutation_length, NoDup_Permutation; [done | apply Hvalid | done].
  - intros p t Hpt.
    assert (t ∈ topo) as Ht by (by eapply Helem, edge_task).
    apply list_elem_of_split in Ht as (l1 & l2 & Htopo).
    pose proof (Hresp l1 t l2 Htopo p Hpt) as Hp.
    apply list_elem_of_split in Hp as (a & b & ->).
    exists a, b, l2. by rewrite Htopo, <- app_assoc.
  - apply topo_order_kahn; [apply Hvalid | done].
Qed.

Lemma C3_topological_order_witness :
  valid_dag scenario_A ∧
  ∃ topo, topo_order_of scenario_A = Ok topo ∧
    length topo = length (tasks_of scenario_A) ∧
    (∀ p t, edge scenario_A p t → before topo p t) ∧
    kahn_order scenario_A topo.
Proof.
  assert (valid_dag scenario_A) as Hvalid by check_valid_dag.
  split; [exact Hvalid|]. exact (C3_topological_order scenario_A Hvalid).
Defined.

(** C4: on a valid non-empty DAG the forward pass runs over the
    topological order; it gives [ES = 0] to a task without predecessors
    and [ES = max EF[p]] over its predecessors otherwise, [EF = ES +
    duration] always, and the project duration is the maximum [EF] over
    all tasks. *)
Theorem C4_forward_pass rows :
  valid_dag rows → rows ≠ [] →
  ∃ s, compute_cpm_and_export_pdf rows = Ok s ∧
    topo_order_of rows = Ok (topo_order s) ∧
    forward_pass (duration_of rows) (predecessors_of rows) (topo_order s) ∅ ∅
    = Ok (ES s, EF s) ∧
    (∀ r, r ∈ rows →
       ∃ es, ES s !! Task r = Some es ∧
             EF s !! Task r = Some (es + Duration r) ∧
             (Predecessors r = [] → es = 0) ∧
             (Predecessors r ≠ [] → max_over (EF s) (Predecessors r) es)) ∧
    max_over (EF s) (tasks_of rows) (project_duration s).
Proof.
  intros Hvalid Hne.
  destruct (compute_cpm_valid rows Hvalid Hne) as (s & Hrun & Hok).
  pose proof (valid_nodup rows Hvalid) as Hnd.
  exists s. split_and!; [done|apply Hok..| |].
  - intros r Hr.
    assert (Task r ∈ tasks_of rows) as Ht by (apply elem_of_tasks_of; eauto).
    destruct (ok_forward rows s Hok _ Ht) as (es & d & H1 & H2 & H3 & H4 & H5).
    rewrite (duration_of_lookup rows r Hnd Hr) in H2. injection H2 as <-.
    rewrite (getlist_Some _ _ _ (predecessors_of_lookup rows r Hnd Hr)) in H4, H5.
    by exists es.
  - destruct (ok_pd rows s Hok) as [[t Ht] Hmax]. split.
    + exists t. split; [|done]. apply (ok_EF_dom rows s Hok). eauto.
    + intros t' Ht'.
      destruct (ok_forward rows s Hok _ Ht') as (es & d & _ & _ & H3 & _).
      eexists. split; [done|]. by eapply Hmax.
Qed.

Lemma C4_forward_pass_witness :
  valid_dag scenario_A ∧ scenario_A ≠ [] ∧
  ∃ s, compute_cpm_and_export_pdf scenario_A = Ok s ∧
    topo_order_of scenario_A = Ok (topo_order s) ∧
    forward_pass (duration_of scenario_A) (predecessors_of scenario_A)
      (topo_order s) ∅ ∅ = Ok (ES s, EF s) ∧
    (∀ r, r ∈ scenario_A →
       ∃ es, ES s !! Task r = Some es ∧
             EF s !! Task r = Some (es + Duration r) ∧
             (Predecessors r = [] → es = 0) ∧
             (Predecessors r ≠ [] → max_over (EF s) (Predecessors r) es)) ∧
    max_over (EF s) (tasks_of scenario_A) (project_duration s).
Proof.
  assert (valid_dag scenario_A) as Hvalid by check_valid_dag.
  assert (scenario_A ≠ []) as Hne by discriminate.
  split; [exact Hvalid|]. split; [exact Hne|].
  exact (C4_forward_pass scenario_A Hvalid Hne).
Defined.

(** C5: on a valid non-empty DAG the backward pass runs over the reversed
    topological order; it gives [LF = project_duration] to a task without
    successors and [LF = min LS[s]] over its successors otherwise, [LS =
    LF - duration] always, and the slack of every task is [LS - ES]. *)
Theorem C5_backward_pass rows :
  valid_dag rows → rows ≠ [] →
  ∃ s, compute_cpm_and_export_pdf rows = Ok s ∧
    backward_pass (duration_of rows) (successors_of rows) (project_duration s)
      (reverse (topo_order s)) ∅ ∅ = Ok (LS s, LF s) ∧
    ∀ r, r ∈ rows →
      ∃ lf es, LF s !! Task r = Some lf ∧
        LS s !! Task r = Some (lf - Duration r) ∧
        (succs_of rows (Task r) = [] → lf = project_duration s) ∧
        (succs_of rows (Task r) ≠ [] → min_over (LS s) (succs_of rows (Task r)) lf) ∧
        ES s !! Task r = Some es ∧
        slack s !! Task r = Some (lf - Duration r - es).
Proof.
  intros Hvalid Hne.
  destruct (compute_cpm_valid rows Hvalid Hne) as (s & Hrun & Hok).
  pose proof (valid_nodup rows Hvalid) as Hnd.
  exists s. split_and!; [done|apply Hok|].
  intros r Hr.
  assert (Task r ∈ tasks_of rows) as Ht by (apply elem_of_tasks_of; eauto).
  destruct (ok_backward rows s Hok _ Ht) as (lf & d & H1 & H2 & H3 & H4 & H5).
  rewrite (duration_of_lookup rows r Hnd Hr) in H2. injection H2 as <-.
  destruct (ok_slack rows s Hok _ Ht) as (ls & es & Hls & Hes & Hsl).
  rewrite H3 in Hls. injection Hls as <-.
  by exists lf, es.
Qed.

Lemma C5_backward_pass_witness :
  valid_dag scenario_A ∧ scenario_A ≠ [] ∧
  ∃ s, compute_cpm_and_export_pdf scenario_A = Ok s ∧
    backward_pass (duration_of scenario_A) (successors_of scenario_A)
      (project_duration s) (reverse (topo_order s)) ∅ ∅ = Ok (LS s, LF s) ∧
    ∀ r, r ∈ scenario_A →
      ∃ lf es, LF s !! Task r = Some lf ∧
        LS s !! Task r = Some (lf - Duration r) ∧
        (succs_of scenario_A (Task r) = [] → lf = project_duration s) ∧
        (succs_of scenario_A (Task r) ≠ [] →
         min_over (LS s) (succs_of scenario_A (Task r)) lf) ∧
        ES s !! Task r = Some es ∧
        slack s !! Task r = Some (lf - Duration r - es).
Proof.
  assert (valid_dag scenario_A) as Hvalid by check_valid_dag.
  assert (scenario_A ≠ []) as Hne by discriminate.
  split; [exact Hvalid|]. split; [exact Hne|].
  exact (C5_backward_pass scenario_A Hvalid Hne).
Defined.

(** *** Entries of the table and declared terminals *)

Lemma best_key_entry best q d c path :
  best !! q = Some (d, c, path) → best_key best q = (d, c).
Proof. intros Hq. unfold best_key, get_info, key2. by rewrite Hq. Qed.

(** Every task has an entry, and the entry carries the total duration
    and the length of its own path. *)
Lemma sched_best_entry rows s t :
  valid_dag rows → schedule_ok rows s → t ∈ tasks_of rows →
  ∃ d c path, best_info s !! t = Some (d, c, path) ∧
    sum_durations (duration_of rows) path = Ok d ∧ c = Z.of_nat (length path).
Proof.
  intros Hvalid Hok Ht.
  destruct (best_walk (tasks_of rows) (duration_of rows) (predecessors_of rows)
              (valid_pred_dom rows) (valid_closed rows Hvalid)
              (valid_acyclic rows Hvalid) (ES s) (EF s) (best_info s)
              (ok_forward rows s Hok) (ok_best rows s Hok) t Ht)
    as (d & c & path & r & Hb & Hw & [Hr _] & Htotal & _ & Hc).
  exists d, c, path. split_and!; [done| |done].
  rewrite <- Htotal. apply sum_durations_total. intros x Hx.
  apply duration_of_is_Some.
  eapply (walk_tasks (tasks_of rows) (predecessors_of rows)); try done.
  - apply valid_pred_dom.
  - by apply valid_closed.
Qed.

Lemma declared_terminal_end rows t :
  declared_terminal rows t ↔ t ∈ terminals_of rows.
Proof.
  unfold declared_terminal, terminals_of, end_tasks.
  rewrite list_elem_of_filter, successors_of_declared.
  split.
  - intros [Ht Hno]. split; [|done].
    destruct (declared_successors rows t) as [|x l] eqn:Hl; [done|]. exfalso.
    assert (x ∈ declared_successors rows t) as Hx by (rewrite Hl; by left).
    apply elem_of_declared_successors in Hx as (r & Hr & _ & Hin).
    by apply (Hno r).
  - intros [Hnil Ht]. split; [done|]. intros r Hr Hin.
    assert (Task r ∈ declared_successors rows t) as Hx
      by (apply elem_of_declared_successors; eauto).
    destruct (declared_successors rows t); [by apply elem_of_nil in Hx | done].
Qed.

Lemma filter_split {A} (P : A → Prop) `{!∀ x, Decision (P x)} l l1 e l2 :
  filter P l = l1 ++ e :: l2 →
  ∃ a b, l = a ++ e :: b ∧ filter P a = l1 ∧ filter P b = l2.
Proof.
  revert l1. induction l as [|x l IH]; intros l1 Hf.
  - by destruct l1.
  - rewrite filter_cons in Hf. destruct (decide (P x)) as [Hx|Hx].
    + destruct l1 as [|y l1]; simpl in Hf.
      * injection Hf as -> Hf. exists [], l. by rewrite filter_nil.
      * injection Hf as -> Hf. destruct (IH _ Hf) as (a & b & -> & Ha & Hb).
        exists (y :: a), b. split_and!; [done| |done].
        by rewrite filter_cons, decide_True, Ha.
    + destruct (IH _ Hf) as (a & b & -> & Ha & Hb).
      exists (x :: a), b. split_and!; [done| |done].
      by rewrite filter_cons, decide_False.
Qed.

(** The terminal whose path is selected, placed in the task list. *)
Lemma sched_selected_terminal rows s :
  valid_dag rows → schedule_ok rows s → nonneg_durations rows → rows ≠ [] →
  ∃ e d c l1 l2,
    tasks_of rows = l1 ++ e :: l2 ∧ declared_terminal rows e ∧
    best_info s !! e = Some (d, c, critical_path s) ∧
    (∀ q, q ∈ l1 → declared_terminal rows q →
       ∃ dq cq pq, best_info s !! q = Some (dq, cq, pq) ∧ lex_lt (dq, cq) (d, c)) ∧
    (∀ q, q ∈ l2 → declared_terminal rows q →
       ∃ dq cq pq, best_info s !! q = Some (dq, cq, pq) ∧ ¬ lex_lt (d, c) (dq, cq)).
Proof.
  intros Hvalid Hok Hpos Hne.
  destruct (sched_critical rows s Hvalid Hok Hpos Hne)
    as (e & d & c & (t1 & t2 & Hsplit & Hlt & Hle) & Hbest & _).
  pose proof (best_key_entry _ _ _ _ _ Hbest) as Hkey.
  unfold terminals_of, end_tasks in Hsplit.
  destruct (filter_split _ _ _ _ _ Hsplit) as (l1 & l2 & Htasks & H1 & H2).
  assert (∀ (q : string) (l : list string), q ∈ l →
            declared_terminal rows q →
            q ∈ filter (λ t, is_nil (getlist (successors_of rows) t) = true) l)
    as Hfilter.
  { intros q l Hq Hterm. apply declared_terminal_end in Hterm.
    unfold terminals_of, end_tasks in Hterm.
    apply list_elem_of_filter in Hterm as [Hnil _].
    by apply list_elem_of_filter. }
  exists e, d, c, l1, l2. split_and!; [done| |done| |].
  - apply declared_terminal_end. unfold terminals_of, end_tasks.
    rewrite Hsplit. set_solver.
  - intros q Hq Hterm.
    destruct (sched_best_entry rows s q Hvalid Hok (proj1 Hterm))
      as (dq & cq & pq & Hentry & _).
    exists dq, cq, pq. split; [done|].
    rewrite <- (best_key_entry _ _ _ _ _ Hentry), <- Hkey. apply Hlt.
    rewrite <- H1. by apply Hfilter.
  - intros q Hq Hterm.
    destruct (sched_best_entry rows s q Hvalid Hok (proj1 Hterm))
      as (dq & cq & pq & Hentry & _).
    exists dq, cq, pq. split; [done|].
    rewrite <- (best_key_entry _ _ _ _ _ Hentry), <- Hkey. apply Hle.
    rewrite <- H2. by apply Hfilter.
Qed.

(** C2: on a valid non-empty DAG with non-negative durations the table
    is filled along the topological order, and every entry
    [(total_duration, node_count, path)] carries the summed duration and
    the number of tasks of its own path; a task without predecessors
    gets [(duration, 1, [task])]; any other task extends the entry of a
    predecessor whose pair [(total_duration, node_count)] no other
    predecessor's pair exceeds lexicographically; the critical path is
    the stored path of a task that no row lists as a predecessor, whose
    pair is strictly greater than that of every such task declared before
    it and not exceeded by that of any such task declared after it. *)
Theorem C2_critical_path_dp rows :
  valid_dag rows → nonneg_durations rows → rows ≠ [] →
  ∃ s, compute_cpm_and_export_pdf rows = Ok s ∧
    best_path_dp (duration_of rows) (predecessors_of rows) (topo_order s) ∅
    = Ok (best_info s) ∧
    (∀ r, r ∈ rows →
       ∃ d c path, best_info s !! Task r = Some (d, c, path) ∧
         sum_durations (duration_of rows) path = Ok d ∧
         c = Z.of_nat (length path)) ∧
    (∀ r, r ∈ rows → Predecessors r = [] →
       best_info s !! Task r = Some (Duration r, 1, [Task r])) ∧
    (∀ r, r ∈ rows → Predecessors r ≠ [] →
       ∃ p d c path, p ∈ Predecessors r ∧
         best_info s !! p = Some (d, c, path) ∧
         (∀ q, q ∈ Predecessors r →
            ∃ dq cq pq, best_info s !! q = Some (dq, cq, pq) ∧
                        ¬ lex_lt (d, c) (dq, cq)) ∧
         best_info s !! Task r = Some (d + Duration r, c + 1, path ++ [Task r])) ∧
    (∃ e d c l1 l2,
       tasks_of rows = l1 ++ e :: l2 ∧ declared_terminal rows e ∧
       best_info s !! e = Some (d, c, critical_path s) ∧
       (∀ q, q ∈ l1 → declared_terminal rows q →
          ∃ dq cq pq, best_info s !! q = Some (dq, cq, pq) ∧
                      lex_lt (dq, cq) (d, c)) ∧
       (∀ q, q ∈ l2 → declared_terminal rows q →
          ∃ dq cq pq, best_info s !! q = Some (dq, cq, pq) ∧
                      ¬ lex_lt (d, c) (dq, cq))).
Proof.
  intros Hvalid Hpos Hne.
  destruct (compute_cpm_valid rows Hvalid Hne) as (s & Hrun & Hok).
  pose proof (valid_nodup rows Hvalid) as Hnd.
  assert (∀ r, r ∈ rows → Task r ∈ tasks_of rows) as Htask
    by (intros r Hr; apply elem_of_tasks_of; eauto).
  assert (∀ r, r ∈ rows →
            ∃ dur, duration_of rows !! Task r = Some dur ∧ dur = Duration r ∧
              (Predecessors r = [] → best_info s !! Task r = Some (dur, 1, [Task r])) ∧
              (Predecessors r ≠ [] →
               ∃ prev d c path,
                 first_max (best_key (best_info s)) (Predecessors r) prev ∧
                 best_info s !! prev = Some (d, c, path) ∧
                 best_info s !! Task r = Some (d + dur, c + 1, path ++ [Task r])))
    as Hrow.
  { intros r Hr.
    destruct (ok_best rows s Hok _ (Htask r Hr)) as (dur & H1 & H2 & H3).
    rewrite (getlist_Some _ _ _ (predecessors_of_lookup rows r Hnd Hr)) in H2, H3.
    exists dur. split_and!; [done| |done..].
    rewrite (duration_of_lookup rows r Hnd Hr) in H1. by injection H1. }
  exists s. split_and!; [done|apply Hok| | | |].
  - intros r Hr. by apply sched_best_entry, Htask.
  - intros r Hr Hnil. destruct (Hrow r Hr) as (dur & _ & -> & H2 & _). by apply H2.
  - intros r Hr Hcons. destruct (Hrow r Hr) as (dur & _ & -> & _ & H3).
    destruct (H3 Hcons) as (prev & d & c & path & Hfm & Hprev & Hbest).
    exists prev, d, c, path. split_and!; [by eapply first_max_elem|done| |done].
    intros q Hq.
    assert (q ∈ tasks_of rows) as Hqt.
    { apply (valid_closed rows Hvalid q (Task r)).
      by rewrite (getlist_Some _ _ _ (predecessors_of_lookup rows r Hnd Hr)). }
    destruct (sched_best_entry rows s q Hvalid Hok Hqt)
      as (dq & cq & pq & Hentry & _).
    exists dq, cq, pq. split; [done|].
    rewrite <- (best_key_entry _ _ _ _ _ Hentry), <- (best_key_entry _ _ _ _ _ Hprev).
    by eapply first_max_ge.
  - by apply sched_selected_terminal.
Qed.

Lemma C2_critical_path_dp_witness :
  valid_dag scenario_A ∧ nonneg_durations scenario_A ∧ scenario_A ≠ [] ∧
  ∃ s, compute_cpm_and_export_pdf scenario_A = Ok s ∧
    best_path_dp (duration_of scenario_A) (predecessors_of scenario_A)
      (topo_order s) ∅ = Ok (best_info s) ∧
    (∀ r, r ∈ scenario_A →
       ∃ d c path, best_info s !! Task r = Some (d, c, path) ∧
         sum_durations (duration_of scenario_A) path = Ok d ∧
         c = Z.of_nat (length path)) ∧
    (∀ r, r ∈ scenario_A → Predecessors r = [] →
       best_info s !! Task r = Some (Duration r, 1, [Task r])) ∧
    (∀ r, r ∈ scenario_A → Predecessors r ≠ [] →
       ∃ p d c path, p ∈ Predecessors r ∧
         best_info s !! p = Some (d, c, path) ∧
         (∀ q, q ∈ Predecessors r →
            ∃ dq cq pq, best_info s !! q = Some (dq, cq, pq) ∧
                        ¬ lex_lt (d, c) (dq, cq)) ∧
         best_info s !! Task r = Some (d + Duration r, c + 1, path ++ [Task r])) ∧
    (∃ e d c l1 l2,
       tasks_of scenario_A = l1 ++ e :: l2 ∧ declared_terminal scenario_A e ∧
       best_info s !! e = Some (d, c, critical_path s) ∧
       (∀ q, q ∈ l1 → declared_terminal scenario_A q →
          ∃ dq cq pq, best_info s !! q = Some (dq, cq, pq) ∧
                      lex_lt (dq, cq) (d, c)) ∧
       (∀ q, q ∈ l2 → declared_terminal scenario_A q →
          ∃ dq cq pq, best_info s !! q = Some (dq, cq, pq) ∧
                      ¬ lex_lt (d, c) (dq, cq))).
Proof.
  assert (valid_dag scenario_A) as Hvalid by check_valid_dag.
  assert (nonneg_durations scenario_A) as Hpos by check_nonneg.
  assert (scenario_A ≠ []) as Hne by discriminate.
  split; [exact Hvalid|]. split; [exact Hpos|]. split; [exact Hne|].
  exact (C2_critical_path_dp scenario_A Hvalid Hpos Hne).
Defined.

(** C10: when the pair [(total_duration, node_count)] stored for a
    predecessor [p] of a task is exceeded by that of no other predecessor
    of the task, and no predecessor listed before [p] stores the same
    pair, then [p] is the predecessor whose path is extended: among
    predecessors that tie on the maximal pair, the one listed first
    wins. *)
Theorem C10_predecessor_tie rows :
  valid_dag rows → rows ≠ [] →
  ∃ s, compute_cpm_and_export_pdf rows = Ok s ∧
    ∀ r l1 p l2 d c path,
      r ∈ rows → Predecessors r = l1 ++ p :: l2 →
      best_info s !! p = Some (d, c, path) →
      (∀ q dq cq pq, q ∈ Predecessors r →
         best_info s !! q = Some (dq, cq, pq) → ¬ lex_lt (d, c) (dq, cq)) →
      (∀ q dq cq pq, q ∈ l1 →
         best_info s !! q = Some (dq, cq, pq) → (dq, cq) ≠ (d, c)) →
      best_info s !! Task r = Some (d + Duration r, c + 1, path ++ [Task r]).
Proof.
  intros Hvalid Hne.
  destruct (compute_cpm_valid rows Hvalid Hne) as (s & Hrun & Hok).
  pose proof (valid_nodup rows Hvalid) as Hnd.
  exists s. split; [done|].
  intros r l1 p l2 d c path Hr Hsplit Hp Hmax Hfirst.
  assert (Task r ∈ tasks_of rows) as Ht by (apply elem_of_tasks_of; eauto).
  assert (∀ q, q ∈ Predecessors r →
            ∃ dq cq pq, best_info s !! q = Some (dq, cq, pq)) as Hentry.
  { intros q Hq.
    assert (q ∈ tasks_of rows) as Hqt.
    { apply (valid_closed rows Hvalid q (Task r)).
      by rewrite (getlist_Some _ _ _ (predecessors_of_lookup rows r Hnd Hr)). }
    destruct (sched_best_entry rows s q Hvalid Hok Hqt) as (dq & cq & pq & ? & _).
    eauto. }
  destruct (ok_best rows s Hok _ Ht) as (dur & H1 & _ & H3).
  rewrite (getlist_Some _ _ _ (predecessors_of_lookup rows r Hnd Hr)) in H3.
  rewrite (duration_of_lookup rows r Hnd Hr) in H1. injection H1 as <-.
  destruct H3 as (prev & d' & c' & path' & Hfm & Hprev & Hbest);
    [rewrite Hsplit; by destruct l1|].
  assert (prev = p) as ->.
  { eapply first_max_unique; [done|]. eapply first_max_intro; [done| |].
    - intros q Hq. destruct (Hentry q Hq) as (dq & cq & pq & Hq').
      rewrite (best_key_entry _ _ _ _ _ Hp), (best_key_entry _ _ _ _ _ Hq').
      by eapply Hmax.
    - intros q Hq.
      destruct (Hentry q) as (dq & cq & pq & Hq'); [rewrite Hsplit; set_solver|].
      rewrite (best_key_entry _ _ _ _ _ Hp), (best_key_entry _ _ _ _ _ Hq').
      by eapply Hfirst. }
  rewrite Hp in Hprev. by simplify_eq.
Qed.

Lemma C10_predecessor_tie_witness :
  valid_dag rows_join ∧ rows_join ≠ [] ∧
  ∃ s, compute_cpm_and_export_pdf rows_join = Ok s ∧
    best_info s !! "A" = Some (2, 1, ["A"]) ∧
    best_info s !! "B" = Some (2, 1, ["B"]) ∧
    best_info s !! "C" = Some (2 + 1, 1 + 1, ["B"] ++ ["C"]).
Proof.
  assert (valid_dag rows_join) as Hvalid by check_valid_dag.
  assert (rows_join ≠ []) as Hne by discriminate.
  split; [exact Hvalid|]. split; [exact Hne|].
  destruct (C10_predecessor_tie rows_join Hvalid Hne) as (s & Hrun & Htie).
  exists s. split; [exact Hrun|].
  assert (compute_cpm_and_export_pdf rows_join = Ok s) as Hrun' by exact Hrun.
  vm_compute in Hrun'. injection Hrun' as <-.
  split; [vm_compute; reflexivity|]. split; [vm_compute; reflexivity|].
  apply (Htie (Row "C" 1 ["B"; "A"]) [] "B" ["A"] 2 1 ["B"]).
  - unfold rows_join. do 2 apply list_elem_of_further. apply list_elem_of_here.
  - reflexivity.
  - vm_compute. reflexivity.
  - intros q dq cq pq Hq Hb. simpl in Hq.
    repeat (apply elem_of_cons in Hq as [->|Hq];
            [vm_compute in Hb; injection Hb as <- <- _;
             unfold lex_lt; simpl; lia|]).
    by apply elem_of_nil in Hq.
  - intros q dq cq pq Hq. by apply elem_of_nil in Hq.
Defined.

(** *** Fractional durations *)

Ltac check_float_rows :=
  let r := fresh "r" in let Hr := fresh "Hr" in
  intros r Hr;
  repeat (apply elem_of_cons in Hr as [->|Hr]; [vm_compute; reflexivity|]);
  by apply elem_of_nil in Hr.

(** C6 as stated does not hold for fractional durations, which the code
    accepts and computes on as binary64 numbers.  With two tasks in
    sequence of 0.1 and 0.7 time units, a valid DAG with non-negative
    durations, both slacks come out negative; with three tasks in
    sequence of 0.1, 0.2 and 0.3 time units every slack is positive,
    although the three tasks form a root-to-terminal path. *)
Lemma C6_fractional_durations :
  (valid_dag (Binary64.graph Binary64.rows_tenths) ∧
   Binary64.nonneg_durations Binary64.rows_tenths ∧
   ∃ t, Binary64.compute_times Binary64.rows_tenths = Ok t ∧
     ∀ k, k ∈ Binary64.tasks_of Binary64.rows_tenths →
       ∃ sl, Binary64.getitem (Binary64.slack t) k = Ok sl ∧
             (sl <? 0)%float = true) ∧
  (valid_dag (Binary64.graph Binary64.rows_chain) ∧
   Binary64.nonneg_durations Binary64.rows_chain ∧
   root_to_terminal (Binary64.graph Binary64.rows_chain) ["A"; "B"; "C"] ∧
   ∃ t, Binary64.compute_times Binary64.rows_chain = Ok t ∧
     ∀ k, k ∈ Binary64.tasks_of Binary64.rows_chain →
       ∃ sl, Binary64.getitem (Binary64.slack t) k = Ok sl ∧
             (0 <? sl)%float = true).
Proof.
  split.
  - split; [check_valid_dag|]. split; [check_float_rows|].
    eexists. split; [vm_compute; reflexivity|]. intros k Hk.
    assert (k ∈ ["A"; "B"]) as Hk' by exact Hk.
    repeat (apply elem_of_cons in Hk' as [->|Hk'];
            [eexists; split; vm_compute; reflexivity|]).
    by apply elem_of_nil in Hk'.
  - split; [check_valid_dag|]. split; [check_float_rows|]. split.
    + exists "A", "C". split_and!.
      * apply walk_step with "B"; [unfold pred_edge; by_computation|].
        apply walk_step with "C"; [unfold pred_edge; by_computation|].
        apply walk_here.
      * split; [by_computation | vm_compute; reflexivity].
      * split; [by_computation | vm_compute; reflexivity].
    + eexists. split; [vm_compute; reflexivity|]. intros k Hk.
      assert (k ∈ ["A"; "B"; "C"]) as Hk' by exact Hk.
      repeat (apply elem_of_cons in Hk' as [->|Hk'];
              [eexists; split; vm_compute; reflexivity|]).
      by apply elem_of_nil in Hk'.
Qed.

(** C6 (amended): on a valid non-empty DAG with non-negative integer
    durations every slack is non-negative, a slack is 0 exactly for the
    tasks that lie on some root-to-terminal path of maximal total
    duration, and the selected critical path is such a path. *)
Theorem C6_slack_and_critical_path rows :
  valid_dag rows → nonneg_durations rows → rows ≠ [] →
  ∃ s, compute_cpm_and_export_pdf rows = Ok s ∧
    (∀ t, t ∈ tasks_of rows →
       ∃ sl, slack s !! t = Some sl ∧ 0 ≤ sl ∧
             (sl = 0 ↔ ∃ l, longest_path rows l ∧ t ∈ l)) ∧
    longest_path rows (critical_path s).
Proof.
  intros Hvalid Hpos Hne.
  destruct (compute_cpm_valid rows Hvalid Hne) as (s & Hrun & Hok).
  exists s. split_and!; [done| |].
  - intros t Ht. exists (value_of (LS s) t - value_of (ES s) t). split_and!.
    + by apply (sched_slack rows s).
    + by apply (sched_slack_nonneg rows s).
    + by apply (sched_slack_zero rows s).
  - destruct (sched_critical rows s Hvalid Hok Hpos Hne)
      as (e & d & c & _ & _ & Hlong & _). exact Hlong.
Qed.

Lemma C6_slack_and_critical_path_witness :
  valid_dag scenario_A ∧ nonneg_durations scenario_A ∧ scenario_A ≠ [] ∧
  ∃ s, compute_cpm_and_export_pdf scenario_A = Ok s ∧
    (∀ t, t ∈ tasks_of scenario_A →
       ∃ sl, slack s !! t = Some sl ∧ 0 ≤ sl ∧
             (sl = 0 ↔ ∃ l, longest_path scenario_A l ∧ t ∈ l)) ∧
    longest_path scenario_A (critical_path s).
Proof.
  assert (valid_dag scenario_A) as Hvalid by check_valid_dag.
  assert (nonneg_durations scenario_A) as Hpos by check_nonneg.
  assert (scenario_A ≠ []) as Hne by discriminate.
  split; [exact Hvalid|]. split; [exact Hpos|]. split; [exact Hne|].
  exact (C6_slack_and_critical_path scenario_A Hvalid Hpos Hne).
Defined.



(** *** Inputs in which no task is free of predecessors *)

Lemma filter_none {A} (P : A → Prop) `{!∀ x, Decision (P x)} (l : list A) :
  (∀ x, x ∈ l → ¬ P x) → filter P l = [].
Proof.
  induction l as [|x l IH]; intros Hno; [done|].
  rewrite filter_cons, decide_False by (apply Hno; by left).
  apply IH. intros y Hy. apply Hno. by right.
Qed.

Lemma no_root_topo rows : no_root rows → topo_order_of rows = Ok [].
Proof.
  intros Hno. unfold topo_order_of, topo_sort.
  destruct (in_degree_init_Ok (predecessors_of rows) (tasks_of rows) ∅)
    as (deg & -> & Hdeg); [intros t Ht; by apply predecessors_of_is_Some|].
  simpl. rewrite queue_init_Ok.
  - rewrite filter_none; [simpl; by destruct (length (tasks_of rows))|].
    intros t Ht. rewrite Hdeg, decide_True by done.
    intros [= Hlen]. apply (Hno t Ht).
    destruct (getlist (predecessors_of rows) t); [done | simpl in Hlen; lia].
  - intros t Ht. rewrite Hdeg, decide_True by done. eauto.
Qed.

(** C8 as stated does not hold: the code has no error kind of its own
    for the empty input.  What the empty input raises is the built-in
    [ValueError] of [max] on an empty sequence, and a non-empty input,
    two tasks that list each other, raises the very same exception. *)
Lemma C8_no_empty_input_error :
  compute_cpm_and_export_pdf [] = Raise ValueError ∧
  rows_cycle ≠ [] ∧
  compute_cpm_and_export_pdf rows_cycle = Raise ValueError ∧
  ¬ ∃ e, empty_input_error e.
Proof.
  assert (compute_cpm_and_export_pdf [] = Raise ValueError) as Hempty
    by (vm_compute; reflexivity).
  assert (compute_cpm_and_export_pdf rows_cycle = Raise ValueError) as Hcycle
    by (vm_compute; reflexivity).
  split_and!; [done..|].
  intros (e & He & Honly). rewrite Hempty in He. injection He as <-.
  by specialize (Honly rows_cycle Hcycle).
Qed.

(** C8 (amended): when no task is supplied, and more generally whenever
    no task is free of predecessors, the topological sort returns the
    empty order, the forward pass completes on it with empty tables, and
    [max(EF.values())] at line 87 raises Python's built-in [ValueError]:
    no schedule is returned. *)
Theorem C8_empty_input rows :
  no_root rows →
  topo_order_of rows = Ok [] ∧
  forward_pass (duration_of rows) (predecessors_of rows) [] ∅ ∅ = Ok (∅, ∅) ∧
  max_values ∅ = Raise ValueError ∧
  compute_cpm_and_export_pdf rows = Raise ValueError.
Proof.
  intros Hno. pose proof (no_root_topo rows Hno) as Htopo.
  split_and!; [done..|].
  unfold topo_order_of in Htopo.
  unfold compute_cpm_and_export_pdf, run_stages. by rewrite Htopo.
Qed.

Lemma C8_empty_input_witness :
  no_root [] ∧
  topo_order_of [] = Ok [] ∧
  forward_pass (duration_of []) (predecessors_of []) [] ∅ ∅ = Ok (∅, ∅) ∧
  max_values ∅ = Raise ValueError ∧
  compute_cpm_and_export_pdf [] = Raise ValueError.
Proof.
  assert (no_root []) as Hno by (intros t Ht; by apply elem_of_nil in Ht).
  split; [exact Hno|]. exact (C8_empty_input [] Hno).
Defined.

(** C9: the outcome is a function of the input (equal inputs give equal
    outcomes, and the FIFO description of the sort admits one order only),
    and a terminal whose key ties with that of an earlier terminal is never
    the one selected: when two terminals carry the same maximal key and the
    first of them is the earliest terminal with that key, the critical
    path is the stored path of the first and not that of the second. *)
Theorem C9_deterministic_selection :
  (∀ rows1 rows2, rows1 = rows2 →
     compute_cpm_and_export_pdf rows1 = compute_cpm_and_export_pdf rows2) ∧
  (∀ rows topo1 topo2,
     kahn_order rows topo1 → kahn_order rows topo2 → topo1 = topo2) ∧
  ∀ rows, valid_dag rows → nonneg_durations rows → rows ≠ [] →
    ∃ s, compute_cpm_and_export_pdf rows = Ok s ∧
      ∀ l1 e1 l2 e2 l3,
        terminals_of rows = l1 ++ e1 :: l2 ++ e2 :: l3 →
        best_key (best_info s) e1 = best_key (best_info s) e2 →
        (∀ q, q ∈ terminals_of rows →
           ¬ lex_lt (best_key (best_info s) e1) (best_key (best_info s) q)) →
        (∀ q, q ∈ l1 → best_key (best_info s) q ≠ best_key (best_info s) e1) →
        (∃ d c, best_info s !! e1 = Some (d, c, critical_path s)) ∧
        ¬ ∃ d c, best_info s !! e2 = Some (d, c, critical_path s).
Proof.
  split; [by intros rows1 rows2 ->|].
  split; [intros rows topo1 topo2; apply kahn_run_deterministic|].
  intros rows Hvalid Hpos Hne.
  destruct (compute_cpm_valid rows Hvalid Hne) as (s & Hrun & Hok).
  exists s. split; [done|]. intros l1 e1 l2 e2 l3 Hsplit Hkey Hmax Hfirst.
  destruct (sched_critical rows s Hvalid Hok Hpos Hne)
    as (e & d & c & Hfm & Hbest & _).
  assert (e = e1) as ->
    by (eapply first_max_unique; [done | by eapply first_max_intro]).
  split; [by exists d, c|]. intros (d2 & c2 & Hbest2).
  assert (∀ x, x ∈ terminals_of rows → x ∈ tasks_of rows) as Hsub
    by (intros x Hx; by apply list_elem_of_filter in Hx as [_ ?]).
  assert (last (critical_path s) = Some e1) as Hlast1.
  { eapply (sched_best_last rows s); [done..| |done]. apply Hsub.
    rewrite Hsplit. set_solver. }
  assert (last (critical_path s) = Some e2) as Hlast2.
  { eapply (sched_best_last rows s); [done..| |done]. apply Hsub.
    rewrite Hsplit. set_solver. }
  rewrite Hlast1 in Hlast2. injection Hlast2 as <-.
  assert (NoDup (terminals_of rows)) as Hnd
    by (apply NoDup_filter, (valid_nodup rows Hvalid)).
  rewrite Hsplit in Hnd. apply NoDup_app in Hnd as (_ & _ & Hnd).
  apply NoDup_cons in Hnd as [Hnin _]. apply Hnin. set_solver.
Qed.

Lemma C9_deterministic_selection_witness :
  valid_dag rows_two_ends ∧ nonneg_durations rows_two_ends ∧
  rows_two_ends ≠ [] ∧
  compute_cpm_and_export_pdf rows_two_ends
  = compute_cpm_and_export_pdf rows_two_ends ∧
  ∃ s, compute_cpm_and_export_pdf rows_two_ends = Ok s ∧
    (∃ d c, best_info s !! "A" = Some (d, c, critical_path s)) ∧
    ¬ ∃ d c, best_info s !! "B" = Some (d, c, critical_path s).
Proof.
  assert (valid_dag rows_two_ends) as Hvalid by check_valid_dag.
  assert (nonneg_durations rows_two_ends) as Hpos by check_nonneg.
  assert (rows_two_ends ≠ []) as Hne by discriminate.
  split; [exact Hvalid|]. split; [exact Hpos|]. split; [exact Hne|].
  destruct C9_deterministic_selection as (Hfun & _ & Htie).
  split; [exact (Hfun rows_two_ends rows_two_ends eq_refl)|].
  destruct (Htie rows_two_ends Hvalid Hpos Hne) as (s & Hrun & Hsel).
  exists s. split; [exact Hrun|].
  assert (compute_cpm_and_export_pdf rows_two_ends = Ok s) as Hrun' by exact Hrun.
  vm_compute in Hrun'. injection Hrun' as <-.
  apply (Hsel [] "A" [] "B" []).
  - vm_compute. reflexivity.
  - vm_compute. reflexivity.
  - intros q Hq. unfold lex_lt.
    assert (q ∈ ["A"; "B"]) as Hq' by exact Hq.
    repeat (apply elem_of_cons in Hq' as [->|Hq'];
            [vm_compute; intuition discriminate|]).
    by apply elem_of_nil in Hq'.
  - intros q Hq. by apply elem_of_nil in Hq.
Defined.

(** ** Text of the predecessor cells *)

Abbreviation chars := String.list_ascii_of_string.

Lemma append_cons c s t : String c s +:+ t = String c (s +:+ t).
Proof. reflexivity. Qed.

Lemma chars_app s t : chars (s +:+ t) = chars s ++ chars t.
Proof.
  induction s as [|c s IH]; [done|].
  change (String c s +:+ t) with (String c (s +:+ t)). cbn. by rewrite IH.
Qed.

Lemma comma_not_space : py_isspace ","%char = false.
Proof. reflexivity. Qed.

Lemma blank_nil : blank EmptyString.
Proof. by intros c ?%elem_of_nil. Qed.

Lemma blank_cons c s : blank (String c s) ↔ py_isspace c = true ∧ blank s.
Proof.
  unfold blank. cbn. split.
  - intros H. split; [apply H; by left | intros c' Hc'; apply H; by right].
  - intros [Hc Hs] c' [->|Hc']%elem_of_cons; [done | by apply Hs].
Qed.

Lemma blank_no_comma s : blank s → ","%char ∉ chars s.
Proof. intros Hs Hin. apply Hs in Hin. by rewrite comma_not_space in Hin. Qed.

Lemma lstrip_blank_app l s : blank l → lstrip (l +:+ s) = lstrip s.
Proof.
  induction l as [|c l IH]; [done|]. intros [Hc Hl]%blank_cons.
  rewrite append_cons. cbn. rewrite Hc. by apply IH.
Qed.

Lemma rstrip_blank r : blank r → rstrip r = EmptyString.
Proof.
  induction r as [|c r IH]; [done|]. intros [Hc Hr]%blank_cons.
  cbn. by rewrite (IH Hr), Hc.
Qed.

Lemma lstrip_blank l : blank l → lstrip l = EmptyString.
Proof.
  induction l as [|c l IH]; [done|]. intros [Hc Hl]%blank_cons.
  cbn. rewrite Hc. by apply IH.
Qed.

Lemma rstrip_app_blank s r : blank r → rstrip (s +:+ r) = rstrip s.
Proof.
  intros Hr. induction s as [|c s IH]; [by apply rstrip_blank|].
  rewrite append_cons. cbn. by rewrite IH.
Qed.

Lemma lstrip_length s : (String.length (lstrip s) ≤ String.length s)%nat.
Proof. induction s as [|c s IH]; cbn; [done|]. destruct (py_isspace c); cbn; lia. Qed.

Lemma rstrip_length s : (String.length (rstrip s) ≤ String.length s)%nat.
Proof.
  induction s as [|c s IH]; cbn; [done|].
  destruct (rstrip s); [destruct (py_isspace c)|]; cbn in *; lia.
Qed.

Lemma lstrip_head s :
  lstrip s = EmptyString ∨
  ∃ c s', lstrip s = String c s' ∧ py_isspace c = false.
Proof.
  induction s as [|c s IH]; [by left|]. cbn.
  destruct (py_isspace c) eqn:Hc; [done|]. right. eauto.
Qed.

Lemma lstrip_nonspace c s : py_isspace c = false → lstrip (String c s) = String c s.
Proof. intros Hc. cbn. by rewrite Hc. Qed.

Lemma rstrip_nonspace c s :
  py_isspace c = false → ∃ r, rstrip (String c s) = String c r.
Proof.
  intros Hc. cbn. destruct (rstrip s); [rewrite Hc|]; eauto.
Qed.

Lemma rstrip_idem s : rstrip (rstrip s) = rstrip s.
Proof.
  induction s as [|c s IH]; [done|]. cbn.
  destruct (rstrip s) as [|a r] eqn:Hr.
  - destruct (py_isspace c) eqn:Hc; [done|]. cbn. by rewrite Hc.
  - cbn. cbn in IH. by rewrite IH.
Qed.

Lemma strip_idem s : strip (strip s) = strip s.
Proof.
  unfold strip. destruct (lstrip_head s) as [->|(c & s' & -> & Hc)]; [done|].
  destruct (rstrip_nonspace c s' Hc) as [r Hr].
  assert (lstrip (rstrip (String c s')) = rstrip (String c s')) as ->
    by (rewrite Hr; by apply lstrip_nonspace).
  apply rstrip_idem.
Qed.

(** A string equal to its own [strip] is unchanged by either half. *)
Lemma strip_fixed s : strip s = s → lstrip s = s ∧ rstrip s = s.
Proof.
  unfold strip. intros Heq.
  assert (lstrip s = s) as Hl.
  { destruct s as [|c s]; [done|]. cbn in *.
    destruct (py_isspace c); [|done]. exfalso.
    pose proof (rstrip_length (lstrip s)). pose proof (lstrip_length s).
    rewrite Heq in *. cbn in *. lia. }
  by rewrite Hl in Heq.
Qed.

Lemma strip_padded l n r :
  blank l → blank r → n ≠ EmptyString → strip n = n → strip (l +:+ n +:+ r) = n.
Proof.
  intros Hl Hr Hne [Hln Hrn]%strip_fixed. unfold strip.
  rewrite lstrip_blank_app by done.
  destruct n as [|c n]; [done|].
  assert (py_isspace c = false) as Hc.
  { destruct (py_isspace c) eqn:Hc; [|done]. exfalso. cbn in Hln.
    rewrite Hc in Hln. pose proof (lstrip_length n). rewrite Hln in *.
    cbn in *. lia. }
  change (String c n +:+ r) with (String c (n +:+ r)).
  rewrite lstrip_nonspace by done.
  change (String c (n +:+ r)) with (String c n +:+ r).
  by rewrite rstrip_app_blank.
Qed.

Lemma strip_blank s : blank s → strip s = EmptyString.
Proof. intros Hs. unfold strip. by rewrite lstrip_blank. Qed.

Lemma lstrip_chars c s : c ∈ chars (lstrip s) → c ∈ chars s.
Proof.
  induction s as [|a s IH]; [done|]. cbn.
  destruct (py_isspace a); [|done]. intros. right. by apply IH.
Qed.

Lemma rstrip_chars c s : c ∈ chars (rstrip s) → c ∈ chars s.
Proof.
  induction s as [|a s IH]; [done|]. cbn.
  destruct (rstrip s) as [|b r].
  - destruct (py_isspace a); cbn; [by intros ?%elem_of_nil|].
    intros ->%list_elem_of_singleton. by left.
  - cbn. intros [->|Hc]%elem_of_cons; [by left | right; by apply IH].
Qed.

Lemma lstrip_keeps c s :
  c ∈ chars s → py_isspace c = false → c ∈ chars (lstrip s).
Proof.
  induction s as [|a s IH]; [done|]. cbn. intros [->|Hc]%elem_of_cons Hns.
  - rewrite Hns. by left.
  - destruct (py_isspace a); [by apply IH | by right].
Qed.

Lemma rstrip_keeps c s :
  c ∈ chars s → py_isspace c = false → c ∈ chars (rstrip s).
Proof.
  induction s as [|a s IH]; [done|]. cbn. intros [->|Hc]%elem_of_cons Hns.
  - destruct (rstrip s); [rewrite Hns|]; by left.
  - specialize (IH Hc Hns).
    destruct (rstrip s); [by apply elem_of_nil in IH | by right].
Qed.

Lemma split_comma_nonempty s : split_comma s ≠ [].
Proof.
  destruct s as [|c s]; [done|]. cbn.
  destruct (Ascii.eqb c ","); [done|]. by destruct (split_comma s).
Qed.

Lemma split_comma_no_comma s p : p ∈ split_comma s → ","%char ∉ chars p.
Proof.
  revert p. induction s as [|c s IH]; intros p; cbn.
  - intros ->%list_elem_of_singleton. apply not_elem_of_nil.
  - destruct (Ascii.eqb_spec c ",") as [->|Hne].
    + intros [->|Hp]%elem_of_cons; [apply not_elem_of_nil | by apply IH].
    + pose proof (split_comma_nonempty s).
      destruct (split_comma s) as [|q qs]; [done|].
      intros [->|Hp]%elem_of_cons.
      * cbn. intros [?|Hq]%elem_of_cons; [done|]. apply (IH q); [by left | done].
      * apply IH. by right.
Qed.

Lemma split_comma_chars s p c : p ∈ split_comma s → c ∈ chars p → c ∈ chars s.
Proof.
  revert p. induction s as [|a s IH]; intros p; cbn.
  - by intros ->%list_elem_of_singleton.
  - destruct (Ascii.eqb a ",").
    + intros [->|Hp]%elem_of_cons; [by intros ?%elem_of_nil|].
      intros. right. by eapply IH.
    + pose proof (split_comma_nonempty s).
      destruct (split_comma s) as [|q qs]; [done|].
      intros [->|Hp]%elem_of_cons.
      * cbn. intros [->|Hq]%elem_of_cons; [by left|]. right.
        apply (IH q); [by left | done].
      * intros. right. apply (IH p); [by right | done].
Qed.

Lemma split_comma_covers s c :
  c ∈ chars s → c ≠ ","%char → ∃ p, p ∈ split_comma s ∧ c ∈ chars p.
Proof.
  induction s as [|a s IH]; [by intros ?%elem_of_nil|]. cbn.
  intros Hc Hne. pose proof (split_comma_nonempty s) as Hs.
  destruct (Ascii.eqb_spec a ",") as [->|Ha].
  - apply elem_of_cons in Hc as [?|Hc]; [done|].
    destruct (IH Hc Hne) as (p & Hp & Hcp). exists p. split; [by right | done].
  - destruct (split_comma s) as [|q qs]; [done|].
    apply elem_of_cons in Hc as [->|Hc].
    + exists (String a q). split; [by left | cbn; by left].
    + destruct (IH Hc Hne) as (p & [->|Hp]%elem_of_cons & Hcp).
      * exists (String a q). split; [by left | cbn; by right].
      * exists p. split; [by right | done].
Qed.

Lemma split_comma_whole p : ","%char ∉ chars p → split_comma p = [p].
Proof.
  induction p as [|c p IH]; [done|]. cbn. intros Hp.
  destruct (Ascii.eqb_spec c ",") as [->|Hne]; [exfalso; apply Hp; by left|].
  rewrite IH; [done|]. intros ?. apply Hp. by right.
Qed.

Lemma split_comma_app p rest :
  ","%char ∉ chars p →
  split_comma (p +:+ "," +:+ rest) = p :: split_comma rest.
Proof.
  induction p as [|c p IH]; [done|]. cbn. intros Hp.
  destruct (Ascii.eqb_spec c ",") as [->|Hne]; [exfalso; apply Hp; by left|].
  change (String c p +:+ "," +:+ rest) with (String c (p +:+ "," +:+ rest)).
  cbn. destruct (Ascii.eqb_spec c ",") as [?|_]; [done|].
  rewrite IH; [done|]. intros ?. apply Hp. by right.
Qed.

Lemma split_join_commas pieces :
  pieces ≠ [] → Forall (λ p, ","%char ∉ chars p) pieces →
  split_comma (join_commas pieces) = pieces.
Proof.
  induction pieces as [|p pieces IH]; [done|]. intros _ Hall.
  apply Forall_cons in Hall as [Hp Hall].
  destruct pieces as [|q pieces]; [by apply split_comma_whole|].
  change (join_commas (p :: q :: pieces))
    with (p +:+ "," +:+ join_commas (q :: pieces)).
  rewrite split_comma_app by done. by rewrite IH.
Qed.

Lemma parse_join_commas pieces :
  Forall (λ p, ","%char ∉ chars p) pieces →
  parse_predecessors (join_commas pieces)
  = filter (λ p, p ≠ EmptyString) (strip <$> pieces).
Proof.
  intros Hall. unfold parse_predecessors.
  destruct pieces as [|p pieces]; [done|]. by rewrite split_join_commas.
Qed.

(** ** The loader and the rendering *)

Example sheet_A_loaded : load_rows sheet_A = scenario_A.
Proof. vm_compute. reflexivity. Qed.

Example parse_example :
  parse_predecessors " A, B ,,C " = ["A"; "B"; "C"].
Proof. vm_compute. reflexivity. Qed.

Example sheet_A_report :
  report_summary (compute_cpm_and_export_pdf (load_rows sheet_A)
                    ≫= render (load_rows sheet_A)) =
  Some ([("A", "red"); ("B", "lightblue"); ("C", "red"); ("D", "red")],
        [("A", "B"); ("A", "C"); ("B", "D"); ("C", "D")],
        [TableRow "A" 3 0 3 0 3 0; TableRow "B" 2 3 5 5 7 2;
         TableRow "C" 4 3 7 3 7 0; TableRow "D" 1 7 8 7 8 0]).
Proof. vm_compute. reflexivity. Qed.

Lemma parse_predecessors_elem cell t :
  t ∈ parse_predecessors cell ↔
  t ≠ EmptyString ∧ ∃ p, p ∈ split_comma cell ∧ t = strip p.
Proof.
  unfold parse_predecessors. rewrite list_elem_of_filter, list_elem_of_fmap.
  naive_solver.
Qed.

Lemma parse_predecessors_clean cell t : t ∈ parse_predecessors cell → clean_name t.
Proof.
  intros (Hne & p & Hp & ->)%parse_predecessors_elem. split_and!; [done| |].
  - apply strip_idem.
  - intros Hc. apply (split_comma_no_comma cell p Hp).
    by apply lstrip_chars, rstrip_chars.
Qed.

Lemma elem_of_load_rows df r :
  r ∈ load_rows df ↔
  ∃ x, x ∈ df ∧
    r = Row (cell_Task x) (cell_Duration x)
          (parse_predecessors (fillna (cell_Predecessors x))).
Proof. unfold load_rows. rewrite list_elem_of_fmap. naive_solver. Qed.

Lemma load_rows_clean df r p :
  r ∈ load_rows df → p ∈ Predecessors r → clean_name p.
Proof.
  intros (x & _ & ->)%elem_of_load_rows. simpl. apply parse_predecessors_clean.
Qed.

Lemma no_elem_nil {A} (l : list A) : (∀ x, x ∉ l) → l = [].
Proof. destruct l as [|x l]; [done|]. intros H. destruct (H x). by left. Qed.

Lemma entry_text_no_comma e : entry_ok e → ","%char ∉ chars (entry_text e).
Proof.
  destruct e as [l n r|pad]; simpl; [|apply blank_no_comma].
  intros (Hl & (_ & _ & Hn) & Hr). rewrite !chars_app, !elem_of_app.
  intros [?|[?|?]]; [by apply (blank_no_comma l) | done | by apply (blank_no_comma r)].
Qed.

Lemma predecessors_of_last rows1 r rows2 :
  Task r ∉ tasks_of rows2 →
  predecessors_of (rows1 ++ r :: rows2) !! Task r = Some (Predecessors r).
Proof.
  induction rows2 as [|x rows2 IH] using rev_ind; intros Hnin.
  - by rewrite predecessors_of_snoc, lookup_insert_eq.
  - rewrite tasks_of_snoc, not_elem_of_app, list_elem_of_singleton in Hnin.
    destruct Hnin as [Hnin Hne].
    replace (rows1 ++ r :: rows2 ++ [x]) with ((rows1 ++ r :: rows2) ++ [x])
      by (by rewrite <- app_assoc).
    rewrite predecessors_of_snoc, lookup_insert_ne by done. by apply IH.
Qed.

Lemma duration_of_last rows1 r rows2 :
  Task r ∉ tasks_of rows2 →
  duration_of (rows1 ++ r :: rows2) !! Task r = Some (Duration r).
Proof.
  induction rows2 as [|x rows2 IH] using rev_ind; intros Hnin.
  - by rewrite duration_of_snoc, lookup_insert_eq.
  - rewrite tasks_of_snoc, not_elem_of_app, list_elem_of_singleton in Hnin.
    destruct Hnin as [Hnin Hne].
    replace (rows1 ++ r :: rows2 ++ [x]) with ((rows1 ++ r :: rows2) ++ [x])
      by (by rewrite <- app_assoc).
    rewrite duration_of_snoc, lookup_insert_ne by done. by apply IH.
Qed.

Ltac check_blank := repeat (apply blank_cons; split; [reflexivity|]); apply blank_nil.

Ltac check_clean_name :=
  split_and!; [discriminate | vm_compute; reflexivity | by_computation].

(** X1: every predecessor name the loader hands to the computation is
    non-empty, has no whitespace at either end and contains no comma. *)
Theorem load_rows_predecessors_clean df r p :
  r ∈ load_rows df → p ∈ Predecessors r → clean_name p.
Proof. apply load_rows_clean. Qed.

Lemma load_rows_predecessors_clean_witness :
  Row "D" 1 ["B"; "C"] ∈ load_rows sheet_A ∧ clean_name "C".
Proof.
  assert (Row "D" 1 ["B"; "C"] ∈ load_rows sheet_A) as Hr.
  { rewrite sheet_A_loaded. unfold scenario_A.
    do 3 apply list_elem_of_further. apply list_elem_of_here. }
  split; [exact Hr|].
  apply (load_rows_predecessors_clean sheet_A (Row "D" 1 ["B"; "C"]) "C" Hr).
  simpl. apply list_elem_of_further, list_elem_of_here.
Defined.

(** X2: a cell written as comma-separated entries, each a clean name
    with blank padding or nothing but blanks, is parsed into exactly the
    names, in the order written; blank entries are dropped. *)
Theorem parse_predecessors_entries entries :
  Forall entry_ok entries →
  parse_predecessors (join_commas (entry_text <$> entries))
  = entries ≫= entry_names.
Proof.
  intros Hok. rewrite parse_join_commas.
  - induction Hok as [|e entries He _ IH]; [done|].
    rewrite !fmap_cons, filter_cons, IH.
    destruct e as [l n r|pad]; simpl in *.
    + destruct He as (Hl & (Hne & Hfix & _) & Hr).
      rewrite strip_padded by done. by destruct (decide (n ≠ EmptyString)).
    + rewrite strip_blank by done. by destruct (decide (EmptyString ≠ EmptyString)).
  - apply Forall_fmap. eapply Forall_impl; [exact Hok|].
    intros e He. by apply entry_text_no_comma.
Qed.

Lemma parse_predecessors_entries_witness :
  parse_predecessors " A, ,B2 " = ["A"; "B2"].
Proof.
  apply (parse_predecessors_entries
           [Listed " " "A" ""; Unlisted " "; Listed "" "B2" " "]).
  repeat apply Forall_cons_2; [| |  |apply Forall_nil_2]; simpl.
  - split_and!; [check_blank | check_clean_name | check_blank].
  - check_blank.
  - split_and!; [check_blank | check_clean_name | check_blank].
Defined.

(** X3: a cell yields no predecessor exactly when it consists of
    whitespace and commas only. *)
Theorem parse_predecessors_nil cell :
  parse_predecessors cell = [] ↔
  ∀ c, c ∈ String.list_ascii_of_string cell → py_isspace c = true ∨ c = ","%char.
Proof.
  split.
  - intros Hnil c Hc. destruct (py_isspace c) eqn:Hsp; [by left|]. right.
    destruct (decide (c = ","%char)) as [|Hne]; [done|]. exfalso.
    destruct (split_comma_covers cell c Hc Hne) as (p & Hp & Hcp).
    assert (strip p ∈ parse_predecessors cell) as Hin.
    { apply parse_predecessors_elem. split; [|eauto].
      intros Hempty.
      assert (c ∈ chars (strip p)) as Hcs
        by (by apply rstrip_keeps; [apply lstrip_keeps|]).
      rewrite Hempty in Hcs. by apply elem_of_nil in Hcs. }
    rewrite Hnil in Hin. by apply elem_of_nil in Hin.
  - intros Hall. apply no_elem_nil.
    intros t (Hne & p & Hp & ->)%parse_predecessors_elem. apply Hne, strip_blank.
    intros c Hc. destruct (Hall c) as [?| ->]; [by eapply split_comma_chars|done|].
    by destruct (split_comma_no_comma cell p Hp).
Qed.

(** X4: task identifiers are taken as written while predecessor names
    are stripped, so a task whose identifier is empty, has whitespace at
    an end or contains a comma is named by no predecessor list and gets
    no successor. *)
Theorem load_rows_unclean_task df t :
  ¬ clean_name t →
  getlist (successors_of (load_rows df)) t = [] ∧
  ∀ r, r ∈ load_rows df → t ∉ Predecessors r.
Proof.
  intros Hdirty.
  assert (∀ r, r ∈ load_rows df → t ∉ Predecessors r) as Hno.
  { intros r Hr Ht. apply Hdirty. by eapply load_rows_clean. }
  split; [|done]. rewrite successors_of_declared. apply no_elem_nil.
  intros s (r & Hr & _ & Ht)%elem_of_declared_successors. by apply (Hno r).
Qed.

Lemma load_rows_unclean_task_witness :
  getlist (successors_of
             (load_rows [SheetRow "A " 1 None; SheetRow "B" 2 (Some "A ")])) "A "
  = [] ∧
  ∀ r, r ∈ load_rows [SheetRow "A " 1 None; SheetRow "B" 2 (Some "A ")] →
       "A " ∉ Predecessors r.
Proof.
  apply load_rows_unclean_task. intros (_ & Hfix & _).
  vm_compute in Hfix. discriminate.
Defined.

(** X5: when an identifier is declared by several rows, the
    [predecessors] and [duration] dictionaries keep the last such row
    only, while [successors] still records the listings of every row. *)
Theorem duplicate_task_rows rows1 r rows2 :
  Task r ∉ tasks_of rows2 →
  predecessors_of (rows1 ++ r :: rows2) !! Task r = Some (Predecessors r) ∧
  duration_of (rows1 ++ r :: rows2) !! Task r = Some (Duration r) ∧
  ∀ r' p, r' ∈ rows1 ++ r :: rows2 → p ∈ Predecessors r' →
    Task r' ∈ getlist (successors_of (rows1 ++ r :: rows2)) p.
Proof.
  intros Hnin. split_and!.
  - by apply predecessors_of_last.
  - by apply duration_of_last.
  - intros r' p Hr' Hp.
    rewrite successors_of_declared. apply elem_of_declared_successors. eauto.
Qed.

Lemma duplicate_task_rows_witness :
  predecessors_of ([Row "A" 1 []; Row "T" 2 ["A"]] ++ Row "T" 5 [] :: [])
    !! "T" = Some [] ∧
  duration_of ([Row "A" 1 []; Row "T" 2 ["A"]] ++ Row "T" 5 [] :: [])
    !! "T" = Some 5 ∧
  ∀ r' p, r' ∈ [Row "A" 1 []; Row "T" 2 ["A"]] ++ Row "T" 5 [] :: [] →
    p ∈ Predecessors r' →
    Task r' ∈ getlist
      (successors_of ([Row "A" 1 []; Row "T" 2 ["A"]] ++ Row "T" 5 [] :: [])) p.
Proof.
  apply (duplicate_task_rows [Row "A" 1 []; Row "T" 2 ["A"]] (Row "T" 5 []) []).
  apply not_elem_of_nil.
Defined.

(** X6: with unique identifiers the two adjacency dictionaries are
    inverse to each other, multiplicities included: [successors[p]] lists
    [t] as often as [predecessors[t]] lists [p]. *)
Theorem adjacency_inverse rows p t :
  NoDup (tasks_of rows) →
  occ t (getlist (successors_of rows) p) = occ p (getlist (predecessors_of rows) t) ∧
  (t ∈ getlist (successors_of rows) p ↔ edge rows p t).
Proof.
  intros Hnd. split; [by apply successors_of_occ|].
  symmetry. by apply edge_successor.
Qed.

Lemma adjacency_inverse_witness :
  occ "D" (getlist (successors_of scenario_A) "C")
  = occ "C" (getlist (predecessors_of scenario_A) "D") ∧
  ("D" ∈ getlist (successors_of scenario_A) "C" ↔ edge scenario_A "C" "D").
Proof. apply adjacency_inverse. by_computation. Defined.


(** ** What a returned schedule holds for every task, on any input *)

Lemma forward_pass_arith duration predecessors order ES0 EF0 ES EF :
  forward_pass duration predecessors order ES0 EF0 = Ok (ES, EF) →
  (∀ t es, ES0 !! t = Some es →
     ∃ d, duration !! t = Some d ∧ EF0 !! t = Some (es + d)) →
  ∀ t es, ES !! t = Some es →
    ∃ d, duration !! t = Some d ∧ EF !! t = Some (es + d).
Proof.
  revert ES0 EF0. induction order as [|task rest IH]; intros ES0 EF0 Hrun Hinv.
  - simpl in Hrun. by simplify_eq.
  - simpl in Hrun. inv_bind Hrun. eapply IH; [exact Hrun|].
    match goal with H : subscript duration _ = Ok _ |- _ =>
      apply subscript_Ok in H; rename H into Hd end.
    intros t es. destruct (decide (t = task)) as [->|Hne].
    + rewrite !lookup_insert_eq. intros [= <-]. eauto.
    + rewrite !lookup_insert_ne by done. apply Hinv.
Qed.

Lemma backward_pass_arith duration successors pd order LS0 LF0 LS LF :
  backward_pass duration successors pd order LS0 LF0 = Ok (LS, LF) →
  (∀ t ls, LS0 !! t = Some ls →
     ∃ d, duration !! t = Some d ∧ LF0 !! t = Some (ls + d)) →
  ∀ t ls, LS !! t = Some ls →
    ∃ d, duration !! t = Some d ∧ LF !! t = Some (ls + d).
Proof.
  revert LS0 LF0. induction order as [|task rest IH]; intros LS0 LF0 Hrun Hinv.
  - simpl in Hrun. by simplify_eq.
  - simpl in Hrun. inv_bind Hrun. eapply IH; [exact Hrun|].
    match goal with H : subscript duration _ = Ok _ |- _ =>
      apply subscript_Ok in H; rename H into Hd end.
    intros t ls. destruct (decide (t = task)) as [->|Hne].
    + rewrite !lookup_insert_eq. intros [= <-]. eexists. split; [done|].
      f_equal. lia.
    + rewrite !lookup_insert_ne by done. apply Hinv.
Qed.

Lemma slack_table_lookup LS ES ts acc sl :
  slack_table LS ES ts acc = Ok sl →
  (∀ t, t ∈ ts → ∃ ls es, LS !! t = Some ls ∧ ES !! t = Some es ∧
                           sl !! t = Some (ls - es)) ∧
  (∀ t, t ∉ ts → sl !! t = acc !! t).
Proof.
  revert acc. induction ts as [|t ts IH]; intros acc Hrun.
  - simpl in Hrun. simplify_eq. split; [by intros t ?%elem_of_nil | done].
  - simpl in Hrun. apply bind_Ok in Hrun as (ls & Hls%subscript_Ok & Hrun).
    apply bind_Ok in Hrun as (es & Hes%subscript_Ok & Hrun).
    destruct (IH _ Hrun) as [Hin Hout]. split.
    + intros x Hx. destruct (decide (x ∈ ts)) as [Hx'|Hx']; [by apply Hin|].
      apply elem_of_cons in Hx as [->|?]; [|done].
      exists ls, es. by rewrite Hout, lookup_insert_eq.
    + intros x Hx. rewrite Hout by set_solver.
      apply lookup_insert_ne. set_solver.
Qed.

Lemma compute_cpm_stages rows s :
  compute_cpm_and_export_pdf rows = Ok s →
  topo_order_of rows = Ok (topo_order s) ∧
  forward_pass (duration_of rows) (predecessors_of rows) (topo_order s) ∅ ∅
  = Ok (ES s, EF s) ∧
  max_values (EF s) = Ok (project_duration s) ∧
  backward_pass (duration_of rows) (successors_of rows) (project_duration s)
    (reverse (topo_order s)) ∅ ∅ = Ok (LS s, LF s) ∧
  slack_table (LS s) (ES s) (tasks_of rows) ∅ = Ok (slack s) ∧
  critical_path s = select_path (best_info s) (terminals_of rows) (0, 0) [].
Proof.
  unfold compute_cpm_and_export_pdf, run_stages. intros Hrun.
  apply bind_Ok in Hrun as (topo & Htopo & Hrun).
  apply bind_Ok in Hrun as ([ES EF] & Hfw & Hrun).
  apply bind_Ok in Hrun as (pd & Hpd & Hrun).
  apply bind_Ok in Hrun as ([LS LF] & Hbw & Hrun).
  apply bind_Ok in Hrun as (sl & Hsl & Hrun).
  apply bind_Ok in Hrun as (best & _ & Hrun). by simplify_eq.
Qed.

Lemma schedule_lookups rows s t :
  compute_cpm_and_export_pdf rows = Ok s → t ∈ tasks_of rows →
  ∃ d es ls,
    duration_of rows !! t = Some d ∧
    ES s !! t = Some es ∧ EF s !! t = Some (es + d) ∧
    LS s !! t = Some ls ∧ LF s !! t = Some (ls + d) ∧
    slack s !! t = Some (ls - es).
Proof.
  intros (_ & Hfw & _ & Hbw & Hsl & _)%compute_cpm_stages Ht.
  destruct (slack_table_lookup _ _ _ _ _ Hsl) as [Hin _].
  destruct (Hin t Ht) as (ls & es & Hls & Hes & Hslack).
  destruct (forward_pass_arith _ _ _ _ _ _ _ Hfw) with (t := t) (es := es)
    as (d & Hd & Hef); [by intros ?? ?%lookup_empty_Some | done |].
  destruct (backward_pass_arith _ _ _ _ _ _ _ _ Hbw) with (t := t) (ls := ls)
    as (d' & Hd' & Hlf); [by intros ?? ?%lookup_empty_Some | done |].
  rewrite Hd in Hd'. injection Hd' as <-. exists d, es, ls. done.
Qed.

(** ** The rendering reads the schedule task by task *)

Lemma value_of_lookup m t v : m !! t = Some v → value_of m t = v.
Proof. unfold value_of. by intros ->. Qed.

Lemma subscripts_values (m : gmap string Z) ks :
  (∀ k, k ∈ ks → is_Some (m !! k)) → subscripts m ks = Ok (value_of m <$> ks).
Proof.
  intros Hdom. apply subscripts_Ok.
  induction ks as [|k ks IH]; [constructor|]. rewrite fmap_cons. constructor.
  - destruct (Hdom k) as [v Hv]; [by left|]. by rewrite (value_of_lookup _ _ _ Hv).
  - apply IH. intros. apply Hdom. by right.
Qed.

Lemma zip_columns_fmap (f1 f2 f3 f4 f5 f6 : string → Z) ts :
  zip_columns ts (f1 <$> ts) (f2 <$> ts) (f3 <$> ts) (f4 <$> ts) (f5 <$> ts)
    (f6 <$> ts)
  = (λ t, TableRow t (f1 t) (f2 t) (f3 t) (f4 t) (f5 t) (f6 t)) <$> ts.
Proof. induction ts as [|t ts IH]; [done|]. rewrite !fmap_cons. simpl. by rewrite IH. Qed.

Lemma diagram_nodes_values s ts :
  (∀ t, t ∈ ts → is_Some (ES s !! t) ∧ is_Some (EF s !! t) ∧ is_Some (LS s !! t) ∧
                 is_Some (LF s !! t) ∧ is_Some (slack s !! t)) →
  diagram_nodes s ts = Ok (node_of s <$> ts).
Proof.
  induction ts as [|t ts IH]; intros Hdom; [done|].
  destruct (Hdom t) as ([es Hes] & [ef Hef] & [ls Hls] & [lf Hlf] & [sl Hsl]);
    [by left|].
  simpl.
  rewrite (subscript_lookup _ _ _ Hes). simpl.
  rewrite (subscript_lookup _ _ _ Hef). simpl.
  rewrite (subscript_lookup _ _ _ Hls). simpl.
  rewrite (subscript_lookup _ _ _ Hlf). simpl.
  rewrite (subscript_lookup _ _ _ Hsl). simpl.
  rewrite IH by (intros; apply Hdom; by right). simpl.
  unfold node_of.
  by rewrite (value_of_lookup _ _ _ Hes), (value_of_lookup _ _ _ Hef),
    (value_of_lookup _ _ _ Hls), (value_of_lookup _ _ _ Hlf),
    (value_of_lookup _ _ _ Hsl).
Qed.

Lemma diagram_edges_values predecessors ts :
  (∀ t, t ∈ ts → is_Some (predecessors !! t)) →
  diagram_edges predecessors ts
  = Ok (ts ≫= λ t, (λ p, (p, t)) <$> getlist predecessors t).
Proof.
  induction ts as [|t ts IH]; intros Hdom; [done|].
  destruct (Hdom t) as [ps Hps]; [by left|]. simpl.
  rewrite (subscript_lookup _ _ _ Hps). simpl.
  rewrite IH by (intros; apply Hdom; by right). simpl.
  by rewrite (getlist_Some _ _ _ Hps).
Qed.

Lemma schedule_table_values tasks duration s :
  (∀ t, t ∈ tasks → is_Some (duration !! t) ∧ is_Some (ES s !! t) ∧
     is_Some (EF s !! t) ∧ is_Some (LS s !! t) ∧ is_Some (LF s !! t) ∧
     is_Some (slack s !! t)) →
  schedule_table tasks duration s = Ok (row_of duration s <$> tasks).
Proof.
  intros Hdom. unfold schedule_table.
  rewrite !subscripts_values by (intros k Hk; apply (Hdom k Hk)). simpl.
  by rewrite zip_columns_fmap.
Qed.

Lemma render_values rows s :
  compute_cpm_and_export_pdf rows = Ok s →
  render rows s
  = Ok (Report s (node_of s <$> tasks_of rows)
          (tasks_of rows ≫= λ t, (λ p, (p, t)) <$> getlist (predecessors_of rows) t)
          (row_of (duration_of rows) s <$> tasks_of rows)).
Proof.
  intros Hrun. unfold render.
  rewrite diagram_nodes_values; [simpl|].
  - rewrite diagram_edges_values by (intros; by apply predecessors_of_is_Some).
    simpl. rewrite schedule_table_values; [done|].
    intros t Ht. destruct (schedule_lookups rows s t Hrun Ht)
      as (d & es & ls & -> & -> & -> & -> & -> & ->). by split_and!.
  - intros t Ht. destruct (schedule_lookups rows s t Hrun Ht)
      as (d & es & ls & _ & -> & -> & -> & -> & ->). by split_and!.
Qed.

Lemma row_of_consistent rows s t :
  compute_cpm_and_export_pdf rows = Ok s → t ∈ tasks_of rows →
  row_consistent (row_of (duration_of rows) s t).
Proof.
  intros Hrun Ht. destruct (schedule_lookups rows s t Hrun Ht)
    as (d & es & ls & Hd & Hes & Hef & Hls & Hlf & Hsl).
  unfold row_consistent, row_of. simpl.
  rewrite (value_of_lookup _ _ _ Hd), (value_of_lookup _ _ _ Hes),
    (value_of_lookup _ _ _ Hef), (value_of_lookup _ _ _ Hls),
    (value_of_lookup _ _ _ Hlf), (value_of_lookup _ _ _ Hsl). lia.
Qed.

Lemma elem_of_edge_list rows p t :
  (p, t) ∈ (tasks_of rows ≫= λ t, (λ p, (p, t)) <$> getlist (predecessors_of rows) t)
  ↔ edge rows p t.
Proof.
  rewrite list_elem_of_bind. split.
  - intros (t' & (p' & [= -> ->] & Hp)%list_elem_of_fmap & _). done.
  - intros Hpt. exists t. split; [|by eapply edge_task].
    apply list_elem_of_fmap. by exists p.
Qed.

(** X7: for rows with text identifiers and integer durations (the rows
    of this embedding), once the computation has returned a schedule, no
    subscript of the rendering raises a [KeyError], whatever the rows
    (repeated identifiers included): one node is drawn and one table row
    written per task, in declaration order. *)
Theorem render_never_fails rows s :
  compute_cpm_and_export_pdf rows = Ok s →
  ∃ rep, render rows s = Ok rep ∧
    report_schedule rep = s ∧
    node_name <$> report_nodes rep = tasks_of rows ∧
    row_Task <$> report_table rep = tasks_of rows.
Proof.
  intros Hrun. eexists. split; [by apply render_values|]. simpl.
  split_and!; [done|..]; rewrite <- list_fmap_compose; apply list_fmap_id.
Qed.

Lemma render_never_fails_witness :
  ∃ s, compute_cpm_and_export_pdf scenario_A = Ok s ∧
  ∃ rep, render scenario_A s = Ok rep ∧
    report_schedule rep = s ∧
    node_name <$> report_nodes rep = tasks_of scenario_A ∧
    row_Task <$> report_table rep = tasks_of scenario_A.
Proof.
  eexists. split; [vm_compute; reflexivity|].
  apply render_never_fails. vm_compute. reflexivity.
Defined.

(** X8: in every row of the schedule table, on any rows for which a
    schedule is returned (repeated identifiers included), the columns
    are tied by the three assignments of the passes: [EF = ES + Duration],
    [LS = LF - Duration] and [Slack = LS - ES], each cell being the
    schedule's value for the row's task. *)
Theorem schedule_table_consistent rows s rep :
  compute_cpm_and_export_pdf rows = Ok s → render rows s = Ok rep →
  Forall row_consistent (report_table rep) ∧
  report_table rep = row_of (duration_of rows) s <$> tasks_of rows.
Proof.
  intros Hrun Hrep. rewrite (render_values rows s Hrun) in Hrep.
  injection Hrep as <-. simpl. split; [|done].
  apply Forall_fmap, Forall_forall. intros t Ht. by apply row_of_consistent.
Qed.

Lemma schedule_table_consistent_witness :
  ∃ s rep, compute_cpm_and_export_pdf scenario_A = Ok s ∧
    render scenario_A s = Ok rep ∧
    Forall row_consistent (report_table rep) ∧
    report_table rep = row_of (duration_of scenario_A) s <$> tasks_of scenario_A.
Proof.
  eexists _, _. split; [vm_compute; reflexivity|].
  split; [vm_compute; reflexivity|].
  apply schedule_table_consistent; vm_compute; reflexivity.
Defined.

(** X9: the diagram has an arrow from [p] to [t] exactly when
    [predecessors[t]] lists [p]; drawing the arrows never fails. *)
Theorem diagram_edges_spec rows :
  ∃ edges, diagram_edges (predecessors_of rows) (tasks_of rows) = Ok edges ∧
    ∀ p t, (p, t) ∈ edges ↔ edge rows p t.
Proof.
  eexists. split.
  - apply diagram_edges_values. intros. by apply predecessors_of_is_Some.
  - apply elem_of_edge_list.
Qed.

(** X10: whenever a report is produced, both ends of every arrow of the
    diagram are nodes that were drawn. *)
Theorem diagram_edges_between_nodes rows s rep p t :
  compute_cpm_and_export_pdf rows = Ok s → render rows s = Ok rep →
  (p, t) ∈ report_edges rep →
  p ∈ node_name <$> report_nodes rep ∧ t ∈ node_name <$> report_nodes rep.
Proof.
  intros Hrun Hrep. rewrite (render_values rows s Hrun) in Hrep.
  injection Hrep as <-. simpl. intros Hpt%elem_of_edge_list.
  destruct (compute_cpm_Ok_wellformed rows s Hrun) as [Hclosed _].
  rewrite <- list_fmap_compose, list_fmap_id.
  split; [by eapply Hclosed | by eapply edge_task].
Qed.

Lemma diagram_edges_between_nodes_witness :
  ∃ s rep, compute_cpm_and_export_pdf scenario_A = Ok s ∧
    render scenario_A s = Ok rep ∧
    ("C", "D") ∈ report_edges rep ∧
    "C" ∈ node_name <$> report_nodes rep ∧ "D" ∈ node_name <$> report_nodes rep.
Proof.
  assert (∃ s, compute_cpm_and_export_pdf scenario_A = Ok s) as [s Hrun]
    by (eexists; vm_compute; reflexivity).
  pose proof (render_values scenario_A s Hrun) as Hrep.
  eexists s, _. split; [exact Hrun|]. split; [exact Hrep|].
  assert (("C", "D") ∈ tasks_of scenario_A ≫=
            λ t, (λ p, (p, t)) <$> getlist (predecessors_of scenario_A) t) as Hedge.
  { apply elem_of_edge_list. unfold edge. by_computation. }
  split; [exact Hedge|].
  exact (diagram_edges_between_nodes scenario_A s _ "C" "D" Hrun Hrep Hedge).
Defined.

(** X11: the topological sort itself cannot fail: on every input, with
    or without cycles, missing tasks or repeated identifiers, the loop
    of lines 63-74 ends normally with some order. *)
Theorem topological_sort_never_fails rows : ∃ topo, topo_order_of rows = Ok topo.
Proof.
  apply topo_sort_total.
  - intros t Ht. by apply predecessors_of_is_Some.
  - intros p s. apply successors_of_task.
Qed.

(** ** The schedule of a valid project, as the report shows it *)

Lemma sched_ES_nonneg rows s :
  valid_dag rows → schedule_ok rows s → nonneg_durations rows →
  ∀ t, t ∈ tasks_of rows → 0 ≤ value_of (ES s) t.
Proof.
  intros Hvalid Hok Hnn t.
  induction (preds_wf (tasks_of rows) (predecessors_of rows)
               (valid_closed rows Hvalid) (valid_acyclic rows Hvalid) t)
    as [t _ IH].
  intros Ht.
  destruct (ok_forward rows s Hok t Ht) as (es & d & Hes & Hd & Hef & Hroot & Hmax).
  rewrite (value_of_lookup _ _ _ Hes).
  destruct (decide (getlist (predecessors_of rows) t = [])) as [Hnil|Hne].
  - by rewrite (Hroot Hnil).
  - destruct (Hmax Hne) as [(k & Hk & Hek) _].
    assert (k ∈ tasks_of rows) as Hkt by (by eapply valid_closed).
    specialize (IH k Hk Hkt).
    destruct (ok_forward rows s Hok k Hkt) as (es' & d' & Hes' & Hd' & Hef' & _).
    rewrite Hef' in Hek. injection Hek as <-.
    rewrite (value_of_lookup _ _ _ Hes') in IH.
    pose proof (nonneg_dur rows k Hnn) as Hdk.
    rewrite (value_of_lookup _ _ _ Hd') in Hdk. lia.
Qed.

Lemma sched_LF_le_pd rows s :
  valid_dag rows → schedule_ok rows s → nonneg_durations rows →
  ∀ t, t ∈ tasks_of rows → value_of (LF s) t ≤ project_duration s.
Proof.
  intros Hvalid Hok Hnn t.
  induction (succs_wf (tasks_of rows) (predecessors_of rows) (successors_of rows)
               (valid_pred_dom rows) (valid_succ_occ rows Hvalid)
               (valid_closed rows Hvalid) (valid_acyclic rows Hvalid) t)
    as [t _ IH].
  intros Ht.
  destruct (ok_backward rows s Hok t Ht) as (lf & d & Hlf & Hd & Hls & Hterm & Hmin).
  rewrite (value_of_lookup _ _ _ Hlf).
  destruct (decide (getlist (successors_of rows) t = [])) as [Hnil|Hne].
  - by rewrite (Hterm Hnil).
  - destruct (Hmin Hne) as [(k & Hk & Hlk) _].
    assert (k ∈ tasks_of rows) as Hkt by (by eapply successors_of_task).
    specialize (IH k Hk Hkt).
    destruct (ok_backward rows s Hok k Hkt) as (lf' & d' & Hlf' & Hd' & Hls' & _).
    rewrite Hls' in Hlk. injection Hlk as <-.
    rewrite (value_of_lookup _ _ _ Hlf') in IH.
    pose proof (nonneg_dur rows k Hnn) as Hdk.
    rewrite (value_of_lookup _ _ _ Hd') in Hdk. lia.
Qed.

Lemma row_of_in_window rows s t :
  valid_dag rows → schedule_ok rows s → nonneg_durations rows →
  compute_cpm_and_export_pdf rows = Ok s → t ∈ tasks_of rows →
  row_in_window (project_duration s) (row_of (duration_of rows) s t).
Proof.
  intros Hvalid Hok Hnn Hrun Ht.
  pose proof (sched_ES_nonneg rows s Hvalid Hok Hnn t Ht) as Hes.
  pose proof (sched_LF_le_pd rows s Hvalid Hok Hnn t Ht) as Hlf.
  pose proof (sched_slack_nonneg rows s Hvalid Hok t Ht) as Hsl.
  pose proof (nonneg_dur rows t Hnn) as Hd.
  destruct (row_of_consistent rows s t Hrun Ht) as (Hef & Hls & _).
  unfold row_in_window, row_of in *. simpl in *. lia.
Qed.

Lemma tasks_of_load_rows df : tasks_of (load_rows df) = cell_Task <$> df.
Proof. unfold tasks_of, load_rows. by rewrite <- list_fmap_compose. Qed.

Lemma node_of_red s t :
  node_fillcolor (node_of s t) = "red" ↔ t ∈ critical_path s.
Proof. unfold node_of. simpl. by case_bool_decide. Qed.

(** X12: for a valid project with non-negative integer durations every
    row of the schedule table has its early and its late interval inside
    the project: [0 ≤ ES ≤ EF ≤ project_duration] and
    [LS ≤ LF ≤ project_duration]. *)
Theorem schedule_table_window rows :
  valid_dag rows → nonneg_durations rows → rows ≠ [] →
  ∃ s rep, compute_cpm_and_export_pdf rows = Ok s ∧ render rows s = Ok rep ∧
    Forall (row_in_window (project_duration s)) (report_table rep).
Proof.
  intros Hvalid Hnn Hne.
  destruct (compute_cpm_valid rows Hvalid Hne) as (s & Hrun & Hok).
  eexists s, _. split; [done|]. split; [by apply render_values|]. simpl.
  apply Forall_fmap, Forall_forall. intros t Ht. by apply row_of_in_window.
Qed.

Lemma schedule_table_window_witness :
  ∃ s rep, compute_cpm_and_export_pdf scenario_A = Ok s ∧
    render scenario_A s = Ok rep ∧
    Forall (row_in_window (project_duration s)) (report_table rep).
Proof.
  apply schedule_table_window; [check_valid_dag | check_nonneg | done].
Defined.

(** X13: for a valid project with non-negative integer durations the
    diagram fills red exactly the tasks of the selected critical path and
    light blue all others; that path runs along declared dependencies
    from a task without predecessors to a task without successors, every
    task of it is drawn, and at least one node is red. *)
Theorem critical_nodes_red rows :
  valid_dag rows → nonneg_durations rows → rows ≠ [] →
  ∃ s rep, compute_cpm_and_export_pdf rows = Ok s ∧ render rows s = Ok rep ∧
    (∀ n, n ∈ report_nodes rep →
       (node_fillcolor n = "red" ↔ node_name n ∈ critical_path s) ∧
       (node_fillcolor n = "red" ∨ node_fillcolor n = "lightblue")) ∧
    root_to_terminal rows (critical_path s) ∧
    (∀ t, t ∈ critical_path s →
       ∃ n, n ∈ report_nodes rep ∧ node_name n = t ∧ node_fillcolor n = "red") ∧
    (∃ n, n ∈ report_nodes rep ∧ node_fillcolor n = "red").
Proof.
  intros Hvalid Hnn Hne.
  destruct (compute_cpm_valid rows Hvalid Hne) as (s & Hrun & Hok).
  destruct (sched_critical rows s Hvalid Hok Hnn Hne)
    as (e & d & c & Hfirst & Hbest & Hlongest & _).
  assert (∀ t, t ∈ critical_path s → t ∈ tasks_of rows) as Hcp
    by (intros t; by apply longest_path_tasks).
  assert (∀ t, t ∈ critical_path s →
            node_of s t ∈ node_of s <$> tasks_of rows ∧
            node_fillcolor (node_of s t) = "red") as Hdrawn.
  { intros t Ht. split; [|by apply node_of_red].
    apply list_elem_of_fmap. exists t. split; [done | by apply Hcp]. }
  eexists s, _. split; [done|]. split; [by apply render_values|]. simpl.
  split_and!.
  - intros n (t & -> & Ht)%list_elem_of_fmap. split; [apply node_of_red|].
    unfold node_of. simpl. case_bool_decide; [by left | by right].
  - by apply longest_path_unfold in Hlongest as [? _].
  - intros t Ht. exists (node_of s t). destruct (Hdrawn t Ht). by split_and!.
  - assert (e ∈ critical_path s) as He.
    { destruct Hfirst as (l1 & l2 & Hends & _).
      assert (e ∈ tasks_of rows) as Het.
      { assert (e ∈ terminals_of rows) as Hin by (rewrite Hends; set_solver).
        unfold terminals_of, end_tasks in Hin.
        by apply list_elem_of_filter in Hin as [_ ?]. }
      eapply last_Some_elem_of, (sched_best_last rows s Hvalid Hok); done. }
    exists (node_of s e). by apply Hdrawn.
Qed.

Lemma critical_nodes_red_witness :
  ∃ s rep, compute_cpm_and_export_pdf scenario_A = Ok s ∧
    render scenario_A s = Ok rep ∧
    (∀ n, n ∈ report_nodes rep →
       (node_fillcolor n = "red" ↔ node_name n ∈ critical_path s) ∧
       (node_fillcolor n = "red" ∨ node_fillcolor n = "lightblue")) ∧
    root_to_terminal scenario_A (critical_path s) ∧
    (∀ t, t ∈ critical_path s →
       ∃ n, n ∈ report_nodes rep ∧ node_name n = t ∧ node_fillcolor n = "red") ∧
    (∃ n, n ∈ report_nodes rep ∧ node_fillcolor n = "red").
Proof.
  apply critical_nodes_red; [check_valid_dag | check_nonneg | done].
Defined.

(** ** Fractional durations: what the passes still guarantee *)

Lemma getitem_setitem d k v k' :
  Binary64.getitem (Binary64.setitem d k v) k'
  = if decide (k = k') then Ok v else Binary64.getitem d k'.
Proof.
  induction d as [|[k0 v0] d IH]; simpl.
  - repeat case_decide; naive_solver.
  - destruct (decide (k0 = k)) as [->|Hne]; simpl.
    + repeat case_decide; naive_solver.
    + rewrite IH. repeat case_decide; naive_solver.
Qed.

Lemma binary64_forward duration predecessors order ES0 EF0 ES EF :
  Binary64.forward_pass duration predecessors order ES0 EF0 = Ok (ES, EF) →
  (∀ k es, Binary64.getitem ES0 k = Ok es →
     ∃ d, Binary64.getitem duration k = Ok d ∧
          Binary64.getitem EF0 k = Ok (es + d)%float) →
  ∀ k es, Binary64.getitem ES k = Ok es →
    ∃ d, Binary64.getitem duration k = Ok d ∧
         Binary64.getitem EF k = Ok (es + d)%float.
Proof.
  revert ES0 EF0. induction order as [|task rest IH]; intros ES0 EF0 Hrun Hinv.
  - simpl in Hrun. by simplify_eq.
  - simpl in Hrun. apply bind_Ok in Hrun as (ps & _ & Hrun).
    apply bind_Ok in Hrun as (es0 & _ & Hrun).
    apply bind_Ok in Hrun as (d0 & Hd & Hrun).
    eapply IH; [exact Hrun|]. intros k es. rewrite !getitem_setitem.
    case_decide as Hk; [|apply Hinv]. subst k. intros [= <-]. eauto.
Qed.

Lemma binary64_backward duration successors pd order LS0 LF0 LS LF :
  Binary64.backward_pass duration successors pd order LS0 LF0 = Ok (LS, LF) →
  (∀ k ls, Binary64.getitem LS0 k = Ok ls →
     ∃ d lf, Binary64.getitem duration k = Ok d ∧
             Binary64.getitem LF0 k = Ok lf ∧ ls = (lf - d)%float) →
  ∀ k ls, Binary64.getitem LS k = Ok ls →
    ∃ d lf, Binary64.getitem duration k = Ok d ∧
            Binary64.getitem LF k = Ok lf ∧ ls = (lf - d)%float.
Proof.
  revert LS0 LF0. induction order as [|task rest IH]; intros LS0 LF0 Hrun Hinv.
  - simpl in Hrun. by simplify_eq.
  - simpl in Hrun. apply bind_Ok in Hrun as (lf0 & _ & Hrun).
    apply bind_Ok in Hrun as (d0 & Hd & Hrun).
    eapply IH; [exact Hrun|]. intros k ls. rewrite !getitem_setitem.
    case_decide as Hk; [|apply Hinv]. subst k. intros [= <-]. eauto.
Qed.

Lemma binary64_slack LS ES ts acc sl :
  Binary64.slack_table LS ES ts acc = Ok sl →
  (∀ k, k ∈ ts → ∃ ls es, Binary64.getitem LS k = Ok ls ∧
                           Binary64.getitem ES k = Ok es ∧
                           Binary64.getitem sl k = Ok (ls - es)%float) ∧
  (∀ k, k ∉ ts → Binary64.getitem sl k = Binary64.getitem acc k).
Proof.
  revert acc. induction ts as [|t ts IH]; intros acc Hrun.
  - simpl in Hrun. simplify_eq. split; [by intros k ?%elem_of_nil | done].
  - simpl in Hrun. apply bind_Ok in Hrun as (ls & Hls & Hrun).
    apply bind_Ok in Hrun as (es & Hes & Hrun).
    destruct (IH _ Hrun) as [Hin Hout]. split.
    + intros x Hx. destruct (decide (x ∈ ts)) as [Hx'|Hx']; [by apply Hin|].
      apply elem_of_cons in Hx as [->|?]; [|done].
      exists ls, es. by rewrite Hout, getitem_setitem, decide_True.
    + intros x Hx. rewrite Hout by set_solver.
      rewrite getitem_setitem, decide_False; [done | set_solver].
Qed.

(** X15: with fractional durations, on any rows for which the passes
    return, the tables are still tied by the three assignments, each
    rounded once as binary64 prescribes: [EF = ES + Duration],
    [LS = LF - Duration] and [slack = LS - ES]. *)
Theorem binary64_pass_equations rows t k :
  Binary64.compute_times rows = Ok t → k ∈ Binary64.tasks_of rows →
  ∃ d es lf,
    Binary64.getitem (Binary64.duration_of rows) k = Ok d ∧
    Binary64.getitem (Binary64.ES t) k = Ok es ∧
    Binary64.getitem (Binary64.EF t) k = Ok (es + d)%float ∧
    Binary64.getitem (Binary64.LF t) k = Ok lf ∧
    Binary64.getitem (Binary64.LS t) k = Ok (lf - d)%float ∧
    Binary64.getitem (Binary64.slack t) k = Ok ((lf - d) - es)%float.
Proof.
  unfold Binary64.compute_times, Binary64.run_passes. intros Hrun Hk.
  apply bind_Ok in Hrun as (topo & _ & Hrun).
  apply bind_Ok in Hrun as ([ES EF] & Hfw & Hrun).
  apply bind_Ok in Hrun as (pd & _ & Hrun).
  apply bind_Ok in Hrun as ([LS LF] & Hbw & Hrun).
  apply bind_Ok in Hrun as (sl & Hsl & Hrun). simplify_eq. simpl.
  destruct (binary64_slack _ _ _ _ _ Hsl) as [Hin _].
  destruct (Hin k Hk) as (ls & es & Hls & Hes & Hslack).
  destruct (binary64_forward _ _ _ _ _ _ _ Hfw) with (k := k) (es := es)
    as (d & Hd & Hef); [done..|].
  destruct (binary64_backward _ _ _ _ _ _ _ _ Hbw) with (k := k) (ls := ls)
    as (d' & lf & Hd' & Hlf & ->); [done..|].
  rewrite Hd in Hd'. injection Hd' as <-. exists d, es, lf. done.
Qed.

Lemma binary64_pass_equations_witness :
  ∃ t, Binary64.compute_times Binary64.rows_tenths = Ok t ∧
  ∃ d es lf,
    Binary64.getitem (Binary64.duration_of Binary64.rows_tenths) "B" = Ok d ∧
    Binary64.getitem (Binary64.ES t) "B" = Ok es ∧
    Binary64.getitem (Binary64.EF t) "B" = Ok (es + d)%float ∧
    Binary64.getitem (Binary64.LF t) "B" = Ok lf ∧
    Binary64.getitem (Binary64.LS t) "B" = Ok (lf - d)%float ∧
    Binary64.getitem (Binary64.slack t) "B" = Ok ((lf - d) - es)%float.
Proof.
  assert (∃ t, Binary64.compute_times Binary64.rows_tenths = Ok t) as [t Hrun]
    by (eexists; vm_compute; reflexivity).
  exists t. split; [exact Hrun|].
  apply (binary64_pass_equations Binary64.rows_tenths t "B" Hrun).
  by_computation.
Defined.
